(** * A shallow embedding of oarkflow/sqlparser

    The development follows the packages of the Go repository:

    - [lexer]: token kinds, the keyword table and the byte-level scanner
      ([lexer/token.go], [lexer/keywords.go], [lexer/lexer.go]);
    - [ast]: the syntax tree ([ast/ast.go]);
    - [parser]: the arena, the token cursor, the Pratt expression parser and
      the entry points ([parser/arena.go], [parser/parser.go]);
    - [sqlparser]: the dialect renderer ([convert.go]).

    Conventions.  A Go [[]byte] or [string] is a [list ascii]; an index into
    the source is a [nat] (it never exceeds [len(src)]); [int32] and [uint32]
    fields are integers in [Z] with the wrap-around of the conversion written
    out.  A Go [for] loop is a [Fixpoint] on a fuel argument that the caller
    sets to the number of bytes (or nodes) left, and the lemmas named
    [*_total] show that this fuel is never exhausted. *)

From Stdlib Require Import List String Ascii ZArith NArith Lia Bool Arith.
From Stdlib Require Import DecimalString.
Import ListNotations.

Set Implicit Arguments.

(** ** Go primitives *)

Definition byte := ascii.
Definition bytes := list ascii.

Definition int32 (z : Z) : Z := ((z + 2 ^ 31) mod 2 ^ 32 - 2 ^ 31)%Z.
Definition uint32 (z : Z) : Z := (z mod 2 ^ 32)%Z.

(** [s[i]] for an index the code has already checked against [len(s)]. *)
Definition index (s : bytes) (i : nat) : byte := nth i s zero.

(** [s[lo:hi]]. *)
Definition slice (s : bytes) (lo hi : nat) : bytes :=
  firstn (hi - lo) (skipn lo s).

Definition B (s : string) : bytes := list_ascii_of_string s.

Definition LF : byte := Eval compute in ascii_of_nat 10.
Definition CR : byte := Eval compute in ascii_of_nat 13.
Definition HT : byte := Eval compute in ascii_of_nat 9.
Definition VT : byte := Eval compute in ascii_of_nat 11.
Definition FF : byte := Eval compute in ascii_of_nat 12.
Definition NUL : byte := zero.
Definition DQ : byte := Eval compute in ascii_of_nat 34.   (* the double quote *)

Definition bytes_eqb (a b : bytes) : bool :=
  String.eqb (string_of_list_ascii a) (string_of_list_ascii b).

(** ** Package lexer *)

Module lexer.

Local Open Scope char_scope.

Inductive TokenType : Set :=
  | ILLEGAL | EOF | COMMENT | WHITESPACE | IDENT | INT | FLOAT | STRING
  | BACKTICK | DQUOTE | HEXLIT | BITLIT | NAMEDPARAM | LPAREN | RPAREN
  | LBRACE | RBRACE | LBRACKET | RBRACKET | COMMA | SEMICOLON | COLON | DOT
  | DOTDOT | STAR | PLUS | MINUS | SLASH | PERCENT | AMPERSAND | PIPE
  | CARET | TILDE | BANG | QUESTION | AT | HASH | DOLLAR | EQ | NEQ | LT
  | GT | LTE | GTE | LSHIFT | RSHIFT | DBAR | DAMP | DARROW | ARROW
  | DARROW2 | HASHARROW | HASHDARROW | ATGT | LTAT | QMARKPIPE | QMARKAMP
  | kwSTART | ADD | AFTER | ALL | ALTER | ANALYZE | AND | AS | ASC
  | AUTO_INCREMENT | BETWEEN | BY | CASCADE | CASE | CAST | CHANGE
  | CHARACTER | CHECK | COLLATE | COLUMN | COMMENT_KW | CONSTRAINT | CREATE
  | CROSS | DATABASE | DEFAULT | DEFERRABLE | DEFERRED | DELETE | DESC
  | DISTINCT | DROP | ELSE | END | ENGINE | ESCAPE | EXCEPT | EXISTS
  | EXPLAIN | FALSE_KW | FIRST | FOR | FOREIGN | FROM | FULL | FUNCTION
  | GROUP | HAVING | IF_KW | IGNORE | IN | INDEX | INNER | INSERT
  | INTERSECT | INTO | IS | JOIN | KEY | LAST | LEFT | LIKE | LIMIT | MATCH
  | NATURAL | NO | NOT | NULL_KW | OFFSET | ON | OR | ORDER | OUTER
  | PARTITION | PRIMARY | PROCEDURE | RECURSIVE | REFERENCES | RENAME
  | REPLACE | RESTRICT | RIGHT | ROLLBACK | SELECT | SET | SHOW | TABLE
  | TABLES | THEN | TO | TRANSACTION | TRIGGER | TRUE_KW | TRUNCATE | UNION
  | UNIQUE | UPDATE | USE | USING | VALUES | VIEW | WHEN | WHERE | WITH
  | WITHOUT | kwEND | BIGINT | BINARY | BLOB | BOOLEAN | CHAR | DATE
  | DATETIME | DECIMAL | DOUBLE | ENUM | FLOAT_KW | INT_KW | INTEGER | JSON
  | JSONB | LONGBLOB | LONGTEXT | MEDIUMBLOB | MEDIUMINT | MEDIUMTEXT
  | NCHAR | NUMERIC | REAL | SMALLINT | TEXT | TIME | TIMESTAMP | TINYBLOB
  | TINYINT | TINYTEXT | VARBINARY | VARCHAR | YEAR.

(** The [iota] value of each kind ([TokenType] is a [uint16]). *)
Local Open Scope N_scope.

Definition code (t : TokenType) : N :=
  match t with
  | ILLEGAL => 0 | EOF => 1 | COMMENT => 2 | WHITESPACE => 3 | IDENT => 4
  | INT => 5 | FLOAT => 6 | STRING => 7 | BACKTICK => 8 | DQUOTE => 9
  | HEXLIT => 10 | BITLIT => 11 | NAMEDPARAM => 12 | LPAREN => 13
  | RPAREN => 14 | LBRACE => 15 | RBRACE => 16 | LBRACKET => 17
  | RBRACKET => 18 | COMMA => 19 | SEMICOLON => 20 | COLON => 21
  | DOT => 22 | DOTDOT => 23 | STAR => 24 | PLUS => 25 | MINUS => 26
  | SLASH => 27 | PERCENT => 28 | AMPERSAND => 29 | PIPE => 30
  | CARET => 31 | TILDE => 32 | BANG => 33 | QUESTION => 34 | AT => 35
  | HASH => 36 | DOLLAR => 37 | EQ => 38 | NEQ => 39 | LT => 40 | GT => 41
  | LTE => 42 | GTE => 43 | LSHIFT => 44 | RSHIFT => 45 | DBAR => 46
  | DAMP => 47 | DARROW => 48 | ARROW => 49 | DARROW2 => 50
  | HASHARROW => 51 | HASHDARROW => 52 | ATGT => 53 | LTAT => 54
  | QMARKPIPE => 55 | QMARKAMP => 56 | kwSTART => 57 | ADD => 58
  | AFTER => 59 | ALL => 60 | ALTER => 61 | ANALYZE => 62 | AND => 63
  | AS => 64 | ASC => 65 | AUTO_INCREMENT => 66 | BETWEEN => 67 | BY => 68
  | CASCADE => 69 | CASE => 70 | CAST => 71 | CHANGE => 72
  | CHARACTER => 73 | CHECK => 74 | COLLATE => 75 | COLUMN => 76
  | COMMENT_KW => 77 | CONSTRAINT => 78 | CREATE => 79 | CROSS => 80
  | DATABASE => 81 | DEFAULT => 82 | DEFERRABLE => 83 | DEFERRED => 84
  | DELETE => 85 | DESC => 86 | DISTINCT => 87 | DROP => 88 | ELSE => 89
  | END => 90 | ENGINE => 91 | ESCAPE => 92 | EXCEPT => 93 | EXISTS => 94
  | EXPLAIN => 95 | FALSE_KW => 96 | FIRST => 97 | FOR => 98
  | FOREIGN => 99 | FROM => 100 | FULL => 101 | FUNCTION => 102
  | GROUP => 103 | HAVING => 104 | IF_KW => 105 | IGNORE => 106 | IN => 107
  | INDEX => 108 | INNER => 109 | INSERT => 110 | INTERSECT => 111
  | INTO => 112 | IS => 113 | JOIN => 114 | KEY => 115 | LAST => 116
  | LEFT => 117 | LIKE => 118 | LIMIT => 119 | MATCH => 120
  | NATURAL => 121 | NO => 122 | NOT => 123 | NULL_KW => 124
  | OFFSET => 125 | ON => 126 | OR => 127 | ORDER => 128 | OUTER => 129
  | PARTITION => 130 | PRIMARY => 131 | PROCEDURE => 132 | RECURSIVE => 133
  | REFERENCES => 134 | RENAME => 135 | REPLACE => 136 | RESTRICT => 137
  | RIGHT => 138 | ROLLBACK => 139 | SELECT => 140 | SET => 141
  | SHOW => 142 | TABLE => 143 | TABLES => 144 | THEN => 145 | TO => 146
  | TRANSACTION => 147 | TRIGGER => 148 | TRUE_KW => 149 | TRUNCATE => 150
  | UNION => 151 | UNIQUE => 152 | UPDATE => 153 | USE => 154
  | USING => 155 | VALUES => 156 | VIEW => 157 | WHEN => 158 | WHERE => 159
  | WITH => 160 | WITHOUT => 161 | kwEND => 162 | BIGINT => 163
  | BINARY => 164 | BLOB => 165 | BOOLEAN => 166 | CHAR => 167
  | DATE => 168 | DATETIME => 169 | DECIMAL => 170 | DOUBLE => 171
  | ENUM => 172 | FLOAT_KW => 173 | INT_KW => 174 | INTEGER => 175
  | JSON => 176 | JSONB => 177 | LONGBLOB => 178 | LONGTEXT => 179
  | MEDIUMBLOB => 180 | MEDIUMINT => 181 | MEDIUMTEXT => 182 | NCHAR => 183
  | NUMERIC => 184 | REAL => 185 | SMALLINT => 186 | TEXT => 187
  | TIME => 188 | TIMESTAMP => 189 | TINYBLOB => 190 | TINYINT => 191
  | TINYTEXT => 192 | VARBINARY => 193 | VARCHAR => 194 | YEAR => 195
  end.

Definition of_code (n : N) : TokenType :=
  match n with
  | 0 => ILLEGAL | 1 => EOF | 2 => COMMENT | 3 => WHITESPACE | 4 => IDENT
  | 5 => INT | 6 => FLOAT | 7 => STRING | 8 => BACKTICK | 9 => DQUOTE
  | 10 => HEXLIT | 11 => BITLIT | 12 => NAMEDPARAM | 13 => LPAREN
  | 14 => RPAREN | 15 => LBRACE | 16 => RBRACE | 17 => LBRACKET
  | 18 => RBRACKET | 19 => COMMA | 20 => SEMICOLON | 21 => COLON
  | 22 => DOT | 23 => DOTDOT | 24 => STAR | 25 => PLUS | 26 => MINUS
  | 27 => SLASH | 28 => PERCENT | 29 => AMPERSAND | 30 => PIPE
  | 31 => CARET | 32 => TILDE | 33 => BANG | 34 => QUESTION | 35 => AT
  | 36 => HASH | 37 => DOLLAR | 38 => EQ | 39 => NEQ | 40 => LT | 41 => GT
  | 42 => LTE | 43 => GTE | 44 => LSHIFT | 45 => RSHIFT | 46 => DBAR
  | 47 => DAMP | 48 => DARROW | 49 => ARROW | 50 => DARROW2
  | 51 => HASHARROW | 52 => HASHDARROW | 53 => ATGT | 54 => LTAT
  | 55 => QMARKPIPE | 56 => QMARKAMP | 57 => kwSTART | 58 => ADD
  | 59 => AFTER | 60 => ALL | 61 => ALTER | 62 => ANALYZE | 63 => AND
  | 64 => AS | 65 => ASC | 66 => AUTO_INCREMENT | 67 => BETWEEN | 68 => BY
  | 69 => CASCADE | 70 => CASE | 71 => CAST | 72 => CHANGE
  | 73 => CHARACTER | 74 => CHECK | 75 => COLLATE | 76 => COLUMN
  | 77 => COMMENT_KW | 78 => CONSTRAINT | 79 => CREATE | 80 => CROSS
  | 81 => DATABASE | 82 => DEFAULT | 83 => DEFERRABLE | 84 => DEFERRED
  | 85 => DELETE | 86 => DESC | 87 => DISTINCT | 88 => DROP | 89 => ELSE
  | 90 => END | 91 => ENGINE | 92 => ESCAPE | 93 => EXCEPT | 94 => EXISTS
  | 95 => EXPLAIN | 96 => FALSE_KW | 97 => FIRST | 98 => FOR
  | 99 => FOREIGN | 100 => FROM | 101 => FULL | 102 => FUNCTION
  | 103 => GROUP | 104 => HAVING | 105 => IF_KW | 106 => IGNORE | 107 => IN
  | 108 => INDEX | 109 => INNER | 110 => INSERT | 111 => INTERSECT
  | 112 => INTO | 113 => IS | 114 => JOIN | 115 => KEY | 116 => LAST
  | 117 => LEFT | 118 => LIKE | 119 => LIMIT | 120 => MATCH
  | 121 => NATURAL | 122 => NO | 123 => NOT | 124 => NULL_KW
  | 125 => OFFSET | 126 => ON | 127 => OR | 128 => ORDER | 129 => OUTER
  | 130 => PARTITION | 131 => PRIMARY | 132 => PROCEDURE | 133 => RECURSIVE
  | 134 => REFERENCES | 135 => RENAME | 136 => REPLACE | 137 => RESTRICT
  | 138 => RIGHT | 139 => ROLLBACK | 140 => SELECT | 141 => SET
  | 142 => SHOW | 143 => TABLE | 144 => TABLES | 145 => THEN | 146 => TO
  | 147 => TRANSACTION | 148 => TRIGGER | 149 => TRUE_KW | 150 => TRUNCATE
  | 151 => UNION | 152 => UNIQUE | 153 => UPDATE | 154 => USE
  | 155 => USING | 156 => VALUES | 157 => VIEW | 158 => WHEN | 159 => WHERE
  | 160 => WITH | 161 => WITHOUT | 162 => kwEND | 163 => BIGINT
  | 164 => BINARY | 165 => BLOB | 166 => BOOLEAN | 167 => CHAR
  | 168 => DATE | 169 => DATETIME | 170 => DECIMAL | 171 => DOUBLE
  | 172 => ENUM | 173 => FLOAT_KW | 174 => INT_KW | 175 => INTEGER
  | 176 => JSON | 177 => JSONB | 178 => LONGBLOB | 179 => LONGTEXT
  | 180 => MEDIUMBLOB | 181 => MEDIUMINT | 182 => MEDIUMTEXT | 183 => NCHAR
  | 184 => NUMERIC | 185 => REAL | 186 => SMALLINT | 187 => TEXT
  | 188 => TIME | 189 => TIMESTAMP | 190 => TINYBLOB | 191 => TINYINT
  | 192 => TINYTEXT | 193 => VARBINARY | 194 => VARCHAR | 195 => YEAR
  | _ => ILLEGAL
  end.

Local Close Scope N_scope.

Definition eqb (a b : TokenType) : bool := N.eqb (code a) (code b).

(** [tokenNames] has one entry per token kind up to [QMARKAMP]; [String]
    answers ["UNKNOWN"] past its end. *)
Definition tokenNames : list string :=
  ["ILLEGAL"; "EOF"; "COMMENT"; "WHITESPACE"; "IDENT"; "INT"; "FLOAT";
   "STRING"; "BACKTICK"; "DQUOTE"; "HEXLIT"; "BITLIT"; "NAMEDPARAM";
   "("; ")"; "{"; "}"; "["; "]"; ","; ";"; ":"; "."; ".."; "*"; "+"; "-";
   "/"; "%"; "&"; "|"; "^"; "~"; "!"; "?"; "@"; "#"; "$"; "="; "!="; "<";
   ">"; "<="; ">="; "<<"; ">>"; "||"; "&&"; "=>"; "->"; "->>"; "#>"; "#>>";
   "@>"; "<@"; "?|"; "?&"]%string.

Definition String (t : TokenType) : string :=
  if (N.to_nat (code t) <? List.length tokenNames)%nat
  then nth (N.to_nat (code t)) tokenNames ""%string
  else "UNKNOWN"%string.

(** A token borrows its bytes from the source. *)
Record Token : Set := mkToken
  { Raw : bytes;
    Type_ : TokenType;
    Pos : Z;      (* int32 *)
    Line : Z;     (* uint32 *)
    Col : Z       (* uint32 *) }.

(** *** Keyword table *)

Record kwEntry : Set := kw' { word : bytes; tok : TokenType }.

Definition kw (w : string) (t : TokenType) : kwEntry :=
  {| word := B w; tok := t |}.

Definition words : list kwEntry :=
  [kw "add" ADD;
   kw "after" AFTER;
   kw "all" ALL;
   kw "alter" ALTER;
   kw "analyze" ANALYZE;
   kw "and" AND;
   kw "as" AS;
   kw "asc" ASC;
   kw "auto_increment" AUTO_INCREMENT;
   kw "between" BETWEEN;
   kw "bigint" BIGINT;
   kw "binary" BINARY;
   kw "blob" BLOB;
   kw "boolean" BOOLEAN;
   kw "by" BY;
   kw "cascade" CASCADE;
   kw "case" CASE;
   kw "cast" CAST;
   kw "change" CHANGE;
   kw "char" CHAR;
   kw "character" CHARACTER;
   kw "check" CHECK;
   kw "collate" COLLATE;
   kw "column" COLUMN;
   kw "comment" COMMENT_KW;
   kw "constraint" CONSTRAINT;
   kw "create" CREATE;
   kw "cross" CROSS;
   kw "database" DATABASE;
   kw "date" DATE;
   kw "datetime" DATETIME;
   kw "decimal" DECIMAL;
   kw "default" DEFAULT;
   kw "deferrable" DEFERRABLE;
   kw "deferred" DEFERRED;
   kw "delete" DELETE;
   kw "desc" DESC;
   kw "distinct" DISTINCT;
   kw "double" DOUBLE;
   kw "drop" DROP;
   kw "else" ELSE;
   kw "end" END;
   kw "engine" ENGINE;
   kw "enum" ENUM;
   kw "escape" ESCAPE;
   kw "except" EXCEPT;
   kw "exists" EXISTS;
   kw "explain" EXPLAIN;
   kw "false" FALSE_KW;
   kw "first" FIRST;
   kw "float" FLOAT_KW;
   kw "for" FOR;
   kw "foreign" FOREIGN;
   kw "from" FROM;
   kw "full" FULL;
   kw "function" FUNCTION;
   kw "group" GROUP;
   kw "having" HAVING;
   kw "if" IF_KW;
   kw "ignore" IGNORE;
   kw "in" IN;
   kw "index" INDEX;
   kw "inner" INNER;
   kw "insert" INSERT;
   kw "int" INT_KW;
   kw "integer" INTEGER;
   kw "intersect" INTERSECT;
   kw "into" INTO;
   kw "is" IS;
   kw "join" JOIN;
   kw "json" JSON;
   kw "jsonb" JSONB;
   kw "key" KEY;
   kw "last" LAST;
   kw "left" LEFT;
   kw "like" LIKE;
   kw "limit" LIMIT;
   kw "longblob" LONGBLOB;
   kw "longtext" LONGTEXT;
   kw "match" MATCH;
   kw "mediumblob" MEDIUMBLOB;
   kw "mediumint" MEDIUMINT;
   kw "mediumtext" MEDIUMTEXT;
   kw "natural" NATURAL;
   kw "nchar" NCHAR;
   kw "no" NO;
   kw "not" NOT;
   kw "null" NULL_KW;
   kw "numeric" NUMERIC;
   kw "offset" OFFSET;
   kw "on" ON;
   kw "or" OR;
   kw "order" ORDER;
   kw "outer" OUTER;
   kw "partition" PARTITION;
   kw "primary" PRIMARY;
   kw "procedure" PROCEDURE;
   kw "real" REAL;
   kw "recursive" RECURSIVE;
   kw "references" REFERENCES;
   kw "rename" RENAME;
   kw "replace" REPLACE;
   kw "restrict" RESTRICT;
   kw "right" RIGHT;
   kw "rollback" ROLLBACK;
   kw "select" SELECT;
   kw "set" SET;
   kw "show" SHOW;
   kw "smallint" SMALLINT;
   kw "table" TABLE;
   kw "tables" TABLES;
   kw "text" TEXT;
   kw "then" THEN;
   kw "time" TIME;
   kw "timestamp" TIMESTAMP;
   kw "tinyblob" TINYBLOB;
   kw "tinyint" TINYINT;
   kw "tinytext" TINYTEXT;
   kw "to" TO;
   kw "transaction" TRANSACTION;
   kw "trigger" TRIGGER;
   kw "true" TRUE_KW;
   kw "truncate" TRUNCATE;
   kw "union" UNION;
   kw "unique" UNIQUE;
   kw "update" UPDATE;
   kw "use" USE;
   kw "using" USING;
   kw "values" VALUES;
   kw "varbinary" VARBINARY;
   kw "varchar" VARCHAR;
   kw "view" VIEW;
   kw "when" WHEN;
   kw "where" WHERE;
   kw "with" WITH;
   kw "without" WITHOUT;
   kw "year" YEAR].

(** [init] files every word under its length, for lengths below 32. *)
Fixpoint set_bucket (i : nat) (e : kwEntry) (tbl : list (list kwEntry))
  : list (list kwEntry) :=
  match tbl, i with
  | [], _ => []
  | b :: tbl', O => (b ++ [e]) :: tbl'
  | b :: tbl', S i' => b :: set_bucket i' e tbl'
  end.

Definition init (ws : list kwEntry) : list (list kwEntry) :=
  fold_left
    (fun tbl e =>
       let l := List.length (word e) in
       if (l <? List.length tbl)%nat then set_bucket l e tbl else tbl)
    ws (repeat [] 32).

Definition keywordsByLen : list (list kwEntry) := init words.

Fixpoint bytesEqualString_loop (b s : bytes) : bool :=
  match b, s with
  | [], [] => true
  | x :: b', y :: s' => if x =? y then bytesEqualString_loop b' s' else false
  | _, _ => false
  end.

Definition bytesEqualString (b s : bytes) : bool :=
  if negb (List.length b =? List.length s)%nat then false
  else bytesEqualString_loop b s.

Fixpoint lookup_bucket (val : bytes) (bucket : list kwEntry) : TokenType :=
  match bucket with
  | [] => IDENT
  | e :: rest =>
      if bytesEqualString val (word e) then tok e
      else lookup_bucket val rest
  end.

(** [lookupKeyword] expects [val] already lowercased. *)
Definition lookupKeyword (val : bytes) : TokenType :=
  let l := List.length val in
  if (l =? 0)%nat || (List.length keywordsByLen <=? l)%nat then IDENT
  else lookup_bucket val (nth l keywordsByLen []).

(** *** Character classes *)

Definition isSpace (c : byte) : bool :=
  (c =? " ") || (c =? HT) || (c =? VT) || (c =? FF).

Definition isAlpha (c : byte) : bool :=
  (("a" <=? c) && (c <=? "z")) || (("A" <=? c) && (c <=? "Z")) || (c =? "_").

Definition isDigit (c : byte) : bool := ("0" <=? c) && (c <=? "9").

Definition isHexDigit (c : byte) : bool :=
  (("0" <=? c) && (c <=? "9")) || (("a" <=? c) && (c <=? "f"))
  || (("A" <=? c) && (c <=? "F")).

Definition isIdentCont (c : byte) : bool :=
  (("a" <=? c) && (c <=? "z")) || (("A" <=? c) && (c <=? "Z"))
  || (("0" <=? c) && (c <=? "9")) || (c =? "_") || (c =? "$").

(** [c + 32] on a byte. *)
Definition add32 (c : byte) : byte :=
  ascii_of_N ((N_of_ascii c + 32) mod 256).

Definition lower (c : byte) : byte :=
  if ("A" <=? c) && (c <=? "Z") then add32 c else c.

(** *** The size that [utf8.DecodeRune] reports

    Modelled from Go's [unicode/utf8]: the number of bytes of the first
    rune of a non-empty slice, 1 for an invalid or truncated encoding. *)

Definition between (lo hi : N) (c : byte) : bool :=
  ((lo <=? N_of_ascii c) && (N_of_ascii c <=? hi))%N.

Definition cont (c : byte) : bool := between 128 191 c.

Definition DecodeRuneSize (p : bytes) : nat :=
  match p with
  | [] => 0
  | b0 :: rest =>
      if between 194 223 b0 then
        match rest with
        | b1 :: _ => if cont b1 then 2 else 1
        | _ => 1
        end
      else if between 224 239 b0 then
        match rest with
        | b1 :: b2 :: _ =>
            let lo := if (N_of_ascii b0 =? 224)%N then 160%N else 128%N in
            let hi := if (N_of_ascii b0 =? 237)%N then 159%N else 191%N in
            if between lo hi b1 && cont b2 then 3 else 1
        | _ => 1
        end
      else if between 240 244 b0 then
        match rest with
        | b1 :: b2 :: b3 :: _ =>
            let lo := if (N_of_ascii b0 =? 240)%N then 144%N else 128%N in
            let hi := if (N_of_ascii b0 =? 244)%N then 143%N else 191%N in
            if between lo hi b1 && cont b2 && cont b3 then 4 else 1
        | _ => 1
        end
      else 1
  end.

(** *** The lexer *)

Record Lexer : Set := mkLexer
  { src : bytes;
    pos : nat;
    line : Z;     (* uint32 *)
    col : Z       (* uint32 *) }.

Definition New (s : bytes) : Lexer :=
  {| src := s; pos := 0; line := 1; col := 1 |}.

Definition NewString (s : bytes) : Lexer := New s.

Definition Reset (_ : Lexer) (s : bytes) : Lexer := New s.

Definition len (l : Lexer) : nat := List.length (src l).

(** [l.src[l.pos]] and [l.src[l.pos+1]]. *)
Definition cur (l : Lexer) : byte := index (src l) (pos l).
Definition nxt (l : Lexer) : byte := index (src l) (S (pos l)).

(** [l.pos++; l.col++] *)
Definition adv (l : Lexer) : Lexer :=
  {| src := src l; pos := S (pos l); line := line l;
     col := uint32 (col l + 1) |}.

(** [l.pos += 2; l.col += 2] *)
Definition adv2 (l : Lexer) : Lexer :=
  {| src := src l; pos := S (S (pos l)); line := line l;
     col := uint32 (col l + 2) |}.

(** [l.line++; l.col = 1; l.pos++] *)
Definition newline (l : Lexer) : Lexer :=
  {| src := src l; pos := S (pos l); line := uint32 (line l + 1);
     col := 1 |}.

(** [for l.pos < len(l.src) && p(l.src[l.pos]) { l.pos++; l.col++ }] *)
Fixpoint scan (fuel : nat) (p : byte -> bool) (l : Lexer) : Lexer :=
  match fuel with
  | O => l
  | S f =>
      if (pos l <? len l)%nat && p (cur l) then scan f p (adv l) else l
  end.

Definition scanWhile (p : byte -> bool) (l : Lexer) : Lexer :=
  scan (len l - pos l) p l.

Definition tokenAt (l : Lexer) (start : nat) (ln cl : Z) (typ : TokenType)
  : Token :=
  {| Raw := slice (src l) start (pos l); Type_ := typ;
     Pos := int32 (Z.of_nat start); Line := ln; Col := cl |}.

(** [lexIdent] scans an identifier or keyword. *)
Definition lexIdent (l : Lexer) (start : nat) (ln cl : Z) : Token * Lexer :=
  let l := scanWhile isIdentCont (adv l) in
  let raw := slice (src l) start (pos l) in
  let n := List.length raw in
  if (64 <? n)%nat then (tokenAt l start ln cl IDENT, l)
  else
    let scratch := map lower raw in
    (tokenAt l start ln cl (lookupKeyword scratch), l).

(** [lexNumber] scans integer or float literals. *)
Definition lexNumber (l : Lexer) (start : nat) (ln cl : Z) : Token * Lexer :=
  let typ := INT in
  let l := scanWhile isDigit l in
  let '(typ, l) :=
    if (pos l <? len l)%nat && (cur l =? ".")
    then (FLOAT, scanWhile isDigit (adv l))
    else (typ, l) in
  let '(typ, l) :=
    if (pos l <? len l)%nat && ((cur l =? "e") || (cur l =? "E")) then
      let l := adv l in
      let l :=
        if (pos l <? len l)%nat && ((cur l =? "+") || (cur l =? "-"))
        then adv l else l in
      (FLOAT, scanWhile isDigit l)
    else (typ, l) in
  (tokenAt l start ln cl typ, l).

(** The loop of [lexQuoted], entered after the opening delimiter. *)
Fixpoint lexQuoted_loop (fuel : nat) (delim : byte) (l : Lexer) : Lexer :=
  match fuel with
  | O => l
  | S f =>
      if (pos l <? len l)%nat then
        let c := cur l in
        if c =? delim then
          let l := adv l in
          if (pos l <? len l)%nat && (cur l =? delim)
          then lexQuoted_loop f delim (adv l)
          else l
        else if (c =? "\") && negb (delim =? "`") then
          let l := adv l in
          let l := if (pos l <? len l)%nat then adv l else l in
          lexQuoted_loop f delim l
        else if c =? LF then lexQuoted_loop f delim (newline l)
        else if (128 <=? N_of_ascii c)%N then
          (* multi-byte UTF-8: skip the full rune *)
          let size := DecodeRuneSize (skipn (pos l) (src l)) in
          lexQuoted_loop f delim
            {| src := src l; pos := pos l + size; line := line l;
               col := uint32 (col l + 1) |}
        else lexQuoted_loop f delim (adv l)
      else l
  end.

(** [lexQuoted] scans a single, double, or backtick quoted string. *)
Definition lexQuoted (l : Lexer) (start : nat) (ln cl : Z) (delim : byte)
  (typ : TokenType) : Token * Lexer :=
  let l := adv l in
  let l := lexQuoted_loop (len l - pos l) delim l in
  (tokenAt l start ln cl typ, l).

Definition lexHexLit (l : Lexer) (start : nat) (ln cl : Z) : Token * Lexer :=
  let l := adv l in
  let l := adv l in
  let l := scanWhile (fun c => negb (c =? "'")) l in
  let l := if (pos l <? len l)%nat then adv l else l in
  (tokenAt l start ln cl HEXLIT, l).

Definition lexHex0x (l : Lexer) (start : nat) (ln cl : Z) : Token * Lexer :=
  let l := adv2 l in
  let l := scanWhile isHexDigit l in
  (tokenAt l start ln cl HEXLIT, l).

Definition lexBitLit (l : Lexer) (start : nat) (ln cl : Z) : Token * Lexer :=
  let l := adv l in
  lexQuoted l (pos l - 1) ln cl "'" BITLIT.

(** The closure [peek] of [lexPunct]. *)
Definition peek (l : Lexer) : byte :=
  if (pos l <? len l)%nat then cur l else NUL.

(** [lexPunct] handles single and multi-character punctuation. *)
Definition lexPunct (l : Lexer) (start : nat) (ln cl : Z) : Token * Lexer :=
  let b := cur l in
  let l := adv l in
  let '(typ, l) :=
    if b =? "(" then (LPAREN, l)
    else if b =? ")" then (RPAREN, l)
    else if b =? "{" then (LBRACE, l)
    else if b =? "}" then (RBRACE, l)
    else if b =? "[" then (LBRACKET, l)
    else if b =? "]" then (RBRACKET, l)
    else if b =? "," then (COMMA, l)
    else if b =? ";" then (SEMICOLON, l)
    else if b =? "*" then (STAR, l)
    else if b =? "%" then (PERCENT, l)
    else if b =? "^" then (CARET, l)
    else if b =? "~" then (TILDE, l)
    else if b =? "?" then
      if peek l =? "|" then (QMARKPIPE, adv l)
      else if peek l =? "&" then (QMARKAMP, adv l)
      else (QUESTION, l)
    else if b =? "+" then (PLUS, l)
    else if b =? "=" then
      if peek l =? ">" then (DARROW, adv l) else (EQ, l)
    else if b =? "!" then
      if peek l =? "=" then (NEQ, adv l) else (BANG, l)
    else if b =? "<" then
      if peek l =? "=" then (LTE, adv l)
      else if peek l =? ">" then (NEQ, adv l)
      else if peek l =? "@" then (LTAT, adv l)
      else if peek l =? "<" then (LSHIFT, adv l)
      else (LT, l)
    else if b =? ">" then
      if peek l =? "=" then (GTE, adv l)
      else if peek l =? ">" then (RSHIFT, adv l)
      else (GT, l)
    else if b =? "|" then
      if peek l =? "|" then (DBAR, adv l) else (PIPE, l)
    else if b =? "&" then
      if peek l =? "&" then (DAMP, adv l) else (AMPERSAND, l)
    else if b =? "-" then
      if peek l =? ">" then
        let l := adv l in
        if peek l =? ">" then (DARROW2, adv l) else (ARROW, l)
      else (MINUS, l)
    else if b =? "/" then (SLASH, l)
    else if b =? "." then
      if peek l =? "." then (DOTDOT, adv l) else (DOT, l)
    else if b =? ":" then
      if isAlpha (peek l) || (peek l =? "_")
      then (NAMEDPARAM, scanWhile isIdentCont l)
      else (COLON, l)
    else if b =? "@" then
      if peek l =? ">" then (ATGT, adv l)
      else if isAlpha (peek l) || (peek l =? "_") || (peek l =? "@")
      then (NAMEDPARAM, scanWhile isIdentCont l)
      else (AT, l)
    else if b =? "$" then
      if isDigit (peek l) then (NAMEDPARAM, scanWhile isDigit l)
      else if isAlpha (peek l) || (peek l =? "_")
      then (NAMEDPARAM, scanWhile isIdentCont l)
      else (DOLLAR, l)
    else if b =? "#" then
      if peek l =? ">" then
        let l := adv l in
        if peek l =? ">" then (HASHDARROW, adv l) else (HASHARROW, l)
      else (HASH, l)
    else (ILLEGAL, l) in
  (tokenAt l start ln cl typ, l).

(** The inner loop of the horizontal-whitespace case. *)
Fixpoint skipSpaces (fuel : nat) (l : Lexer) : Lexer :=
  match fuel with
  | O => l
  | S f =>
      if (pos l <? len l)%nat && isSpace (cur l) then
        if cur l =? LF then l else skipSpaces f (adv l)
      else l
  end.

(** The inner loop of the block-comment case, entered after [/*]. *)
Fixpoint skipBlock (fuel : nat) (l : Lexer) : Lexer :=
  match fuel with
  | O => l
  | S f =>
      if (pos l + 1 <? len l)%nat then
        if cur l =? LF then skipBlock f (newline l)
        else if (cur l =? "*") && (nxt l =? "/") then adv2 l
        else skipBlock f (adv l)
      else l
  end.

Definition notLF (c : byte) : bool := negb (c =? LF).

(** What one turn of the loop of [Next] does: it skips white space or a
    comment and goes round again, or it returns a token. *)
Inductive turn : Set :=
| Continue (l : Lexer)
| Return (r : Token * Lexer).

(** The [switch] inside the loop of [Next], for [l.pos < len(l.src)]. *)
Definition Next_body (l : Lexer) : turn :=
  let start := pos l in
  let startLine := line l in
  let startCol := col l in
  let b := cur l in
  if b =? LF then Continue (newline l)
  else if b =? CR then
    let l1 := {| src := src l; pos := S (pos l); line := line l;
                 col := col l |} in
    let l2 :=
      if (pos l1 <? len l1)%nat && (cur l1 =? LF)
      then {| src := src l1; pos := S (pos l1); line := line l1;
              col := col l1 |}
      else l1 in
    Continue {| src := src l2; pos := pos l2; line := uint32 (line l2 + 1);
                col := 1 |}
  else if isSpace b then
    let l1 := adv l in
    Continue (skipSpaces (len l1 - pos l1) l1)
  else if (b =? "-") && (pos l + 1 <? len l)%nat && (nxt l =? "-") then
    (* Single-line comment -- *)
    Continue (scanWhile notLF (adv2 l))
  else if b =? "#" then
    (* PostgreSQL JSON operators #> and #>> must be tokenized as
       punctuation. *)
    if (pos l + 1 <? len l)%nat && (nxt l =? ">")
    then Return (lexPunct l start startLine startCol)
    else (* MySQL hash comment *) Continue (scanWhile notLF (adv l))
  else if (b =? "/") && (pos l + 1 <? len l)%nat && (nxt l =? "*") then
    (* Block comment *)
    let l1 := adv2 l in
    Continue (skipBlock (len l1 - pos l1) l1)
  else if isDigit b
          || ((b =? ".") && (pos l + 1 <? len l)%nat && isDigit (nxt l))
  then Return (lexNumber l start startLine startCol)
  else if b =? "'" then
    Return (lexQuoted l start startLine startCol "'" STRING)
  else if b =? DQ then
    Return (lexQuoted l start startLine startCol DQ DQUOTE)
  else if b =? "`" then
    Return (lexQuoted l start startLine startCol "`" BACKTICK)
  else if (b =? "x") || (b =? "X") then
    if (pos l + 1 <? len l)%nat && (nxt l =? "'")
    then Return (lexHexLit l start startLine startCol)
    else Return (lexIdent l start startLine startCol)
  else if (b =? "b") || (b =? "B") then
    if (pos l + 1 <? len l)%nat && (nxt l =? "'")
    then Return (lexBitLit l start startLine startCol)
    else Return (lexIdent l start startLine startCol)
  else if (b =? "0") && (pos l + 1 <? len l)%nat
          && ((nxt l =? "x") || (nxt l =? "X"))
  then Return (lexHex0x l start startLine startCol)
  else if isAlpha b || (b =? "_")
  then Return (lexIdent l start startLine startCol)
  else Return (lexPunct l start startLine startCol).

(** The token returned once the input is exhausted. *)
Definition eofToken (l : Lexer) : Token :=
  {| Raw := []; Type_ := EOF; Pos := int32 (Z.of_nat (pos l));
     Line := line l; Col := col l |}.

(** The loop of [Next]: [None] only when [fuel] runs out. *)
Fixpoint Next_loop (fuel : nat) (l : Lexer) : option (Token * Lexer) :=
  match fuel with
  | O => None
  | S f =>
      if (pos l <? len l)%nat then
        match Next_body l with
        | Continue l' => Next_loop f l'
        | Return r => Some r
        end
      else Some (eofToken l, l)
  end.

(** [Next] returns the next token from the input, [EOF] when exhausted.
    Every turn of the loop that does not return consumes a byte, so one
    more turn than there are bytes left is enough. *)
Definition Next (l : Lexer) : option (Token * Lexer) :=
  Next_loop (S (len l - pos l)) l.

(** [Tokenize] lexes all tokens of [src]; [buf[:0]] keeps nothing of the
    caller's buffer but its storage. *)
Fixpoint Tokenize_loop (fuel : nat) (l : Lexer) (buf : list Token)
  : option (list Token) :=
  match fuel with
  | O => None
  | S f =>
      match Next l with
      | None => None
      | Some (t, l') =>
          let buf := buf ++ [t] in
          if eqb (Type_ t) EOF then Some buf else Tokenize_loop f l' buf
      end
  end.

Definition Tokenize (s : bytes) (buf : list Token) : option (list Token) :=
  let buf := @nil Token in
  let l := New s in
  Tokenize_loop (S (List.length s)) l buf.

End lexer.

(** ** Package ast *)

Module ast.

(** Nested occurrences of the tree types go through these containers. *)
Scheme All for list.
Scheme All for option.

(** [Ident] is a (possibly quoted) identifier. *)
Record Ident : Type := mkIdent
  { Raw : bytes;          (* original bytes including quotes *)
    Unquoted : string;    (* resolved name *)
    TokPos : Z }.

(** [QualifiedIdent] is a dotted name.  Slices of node pointers hold no
    nil: the parser appends only nodes it has just allocated. *)
Record QualifiedIdent : Type := mkQualifiedIdent
  { Parts : list Ident }.

(** [Literal] is a numeric, string, bool, hex, or bit literal. *)
Record Literal : Type := mkLiteral
  { lit_Raw : bytes;
    lit_Kind : lexer.TokenType;
    lit_TokPos : Z }.

Record DataType : Type := mkDataType
  { dt_Name : bytes;
    dt_Precision : Z;
    dt_Scale : Z;
    dt_Unsigned : bool;
    dt_Zerofill : bool;
    dt_Charset : bytes;
    dt_Collation : bytes;
    dt_EnumVals : list bytes;
    dt_TokPos : Z }.

Inductive JoinKind : Set :=
  InnerJoin | LeftJoin | RightJoin | FullJoin | CrossJoin | NaturalJoin.

Inductive SetOp : Set := Union | Intersect | Except.

(** The records that hold expressions or selects take the type of their
    children as a parameter, so that they can sit inside the mutual
    definition of [Expr], [SelectStmt] and [TableRef] below. *)

Record WhenClause_ (E : Type) : Type := mkWhenClause
  { Cond : E; Result : E }.

Record SelectColumn_ (E : Type) : Type := mkSelectColumn
  { sc_Expr : E;
    sc_Alias : option Ident;
    sc_Star : bool }.

Record OrderByItem_ (E : Type) : Type := mkOrderByItem
  { ob_Expr : E;
    ob_Desc : bool;
    ob_NullsFirst : option bool }.

(** [LimitClause] is [LIMIT count [OFFSET skip]]. *)
Record LimitClause_ (E : Type) : Type := mkLimitClause
  { Count : E; Offset : E }.

Record CTE_ (S : Type) : Type := mkCTE
  { cte_Name : option Ident;
    cte_Columns : list Ident;
    cte_Subq : S }.

Record WithClause_ (S : Type) : Type := mkWithClause
  { Recursive : bool;
    CTEs : list (CTE_ S) }.

(** [SetOperation] chains SELECT statements. *)
Record SetOperation_ (S : Type) : Type := mkSetOperation
  { so_Op : SetOp;
    so_All : bool;
    so_Right : S }.

Scheme All for WhenClause_.
Scheme All for SelectColumn_.
Scheme All for OrderByItem_.
Scheme All for LimitClause_.
Scheme All for CTE_.
Scheme All for WithClause_.
Scheme All for SetOperation_.

(** An interface value ([Expr], [TableRef]) has one constructor per
    implementing type and one for the nil interface.  A pointer field that
    the code tests against nil is an [option]; the [*SelectStmt] fields that
    the renderer dereferences without a test are plain. *)
Inductive Expr : Type :=
| ENil
| EIdent (id : Ident)
| EQualifiedIdent (q : QualifiedIdent)
| StarExpr (tokPos : Z)
| ELiteral (lit : Literal)
| NullLit (tokPos : Z)
| Param (raw : bytes) (tokPos : Z)
| BinaryExpr (left right : Expr) (op : lexer.TokenType) (tokPos : Z)
| UnaryExpr (expr : Expr) (op : lexer.TokenType) (tokPos : Z)
| FuncCall (name : option QualifiedIdent) (args : list Expr)
    (distinct star : bool) (tokPos : Z)
| CaseExpr (operand : Expr) (whens : list (WhenClause_ Expr)) (els : Expr)
    (tokPos : Z)
| BetweenExpr (expr lo hi : Expr) (not : bool) (tokPos : Z)
| InExpr (expr : Expr) (list_ : list Expr) (subq : option SelectStmt)
    (not : bool) (tokPos : Z)
| LikeExpr (expr pattern escape : Expr) (not : bool) (tokPos : Z)
| IsNullExpr (expr : Expr) (not : bool) (tokPos : Z)
| ExistsExpr (subq : SelectStmt) (not : bool) (tokPos : Z)
| SubqueryExpr (subq : SelectStmt) (tokPos : Z)
| CastExpr (expr : Expr) (type : DataType) (tokPos : Z)
| IntervalExpr (expr : Expr) (unit_ : bytes) (tokPos : Z)
| ESelect (s : SelectStmt)

with SelectStmt : Type :=
| mkSelectStmt
    (with_ : option (WithClause_ SelectStmt))
    (distinct : bool)
    (columns : list (SelectColumn_ Expr))
    (from : list TableRef)
    (where_ : Expr)
    (groupBy : list Expr)
    (having : Expr)
    (orderBy : list (OrderByItem_ Expr))
    (limit : option (LimitClause_ Expr))
    (setOp : option (SetOperation_ SelectStmt))
    (tokPos : Z)

with TableRef : Type :=
| TNil
| SimpleTable (name : option QualifiedIdent) (alias : option Ident)
| SubqueryTable (subq : SelectStmt) (alias : option Ident) (tokPos : Z)
| JoinTable (left right : TableRef) (kind : JoinKind) (on : Expr)
    (using_ : list Ident) (tokPos : Z).

Scheme Expr_mut := Induction for Expr Sort Prop
  with SelectStmt_mut := Induction for SelectStmt Sort Prop
  with TableRef_mut := Induction for TableRef Sort Prop.

Combined Scheme tree_mutind from Expr_mut, SelectStmt_mut, TableRef_mut.

Definition WhenClause := WhenClause_ Expr.
Definition SelectColumn := SelectColumn_ Expr.
Definition OrderByItem := OrderByItem_ Expr.
Definition LimitClause := LimitClause_ Expr.
Definition CTE := CTE_ SelectStmt.
Definition WithClause := WithClause_ SelectStmt.
Definition SetOperation := SetOperation_ SelectStmt.

(** The fields of [SelectStmt]. *)
Definition sel_With (s : SelectStmt) : option WithClause :=
  let '(mkSelectStmt w _ _ _ _ _ _ _ _ _ _) := s in w.
Definition sel_Distinct (s : SelectStmt) : bool :=
  let '(mkSelectStmt _ d _ _ _ _ _ _ _ _ _) := s in d.
Definition sel_Columns (s : SelectStmt) : list SelectColumn :=
  let '(mkSelectStmt _ _ c _ _ _ _ _ _ _ _) := s in c.
Definition sel_From (s : SelectStmt) : list TableRef :=
  let '(mkSelectStmt _ _ _ f _ _ _ _ _ _ _) := s in f.
Definition sel_Where (s : SelectStmt) : Expr :=
  let '(mkSelectStmt _ _ _ _ w _ _ _ _ _ _) := s in w.
Definition sel_GroupBy (s : SelectStmt) : list Expr :=
  let '(mkSelectStmt _ _ _ _ _ g _ _ _ _ _) := s in g.
Definition sel_Having (s : SelectStmt) : Expr :=
  let '(mkSelectStmt _ _ _ _ _ _ h _ _ _ _) := s in h.
Definition sel_OrderBy (s : SelectStmt) : list OrderByItem :=
  let '(mkSelectStmt _ _ _ _ _ _ _ o _ _ _) := s in o.
Definition sel_Limit (s : SelectStmt) : option LimitClause :=
  let '(mkSelectStmt _ _ _ _ _ _ _ _ l _ _) := s in l.
Definition sel_SetOp (s : SelectStmt) : option SetOperation :=
  let '(mkSelectStmt _ _ _ _ _ _ _ _ _ o _) := s in o.
Definition sel_TokPos (s : SelectStmt) : Z :=
  let '(mkSelectStmt _ _ _ _ _ _ _ _ _ _ p) := s in p.

(** [e == nil] on an [Expr] interface value. *)
Definition isNil (e : Expr) : bool :=
  match e with ENil => true | _ => false end.

(** [Assignment] is [col = expr]. *)
Record Assignment : Type := mkAssignment
  { Column : option Ident;
    Value : Expr }.

Record InsertStmt : Type := mkInsertStmt
  { ins_With : option WithClause;
    ins_Table : option QualifiedIdent;
    ins_Columns : list Ident;
    ins_Values : list (list Expr);
    ins_Select : option SelectStmt;
    OnDupKey : list Assignment;
    OnConflictTarget : list Ident;
    OnConflictDoNothing : bool;
    OnConflictUpdate : list Assignment;
    Ignore : bool;
    Replace : bool;
    ins_TokPos : Z }.

Record UpdateStmt : Type := mkUpdateStmt
  { upd_With : option WithClause;
    upd_Tables : list TableRef;
    upd_Set : list Assignment;
    upd_Where : Expr;
    upd_Order : list OrderByItem;
    upd_Limit : option LimitClause;
    upd_TokPos : Z }.

Record DeleteStmt : Type := mkDeleteStmt
  { del_With : option WithClause;
    del_Tables : list QualifiedIdent;
    del_From : list TableRef;
    del_Where : Expr;
    del_Order : list OrderByItem;
    del_Limit : option LimitClause;
    del_TokPos : Z }.

Inductive ConstraintType : Set :=
| PrimaryKeyConstraint | UniqueConstraint | IndexConstraint
| ForeignKeyConstraint | CheckConstraint | FulltextConstraint
| SpatialConstraint.

Inductive RefAction : Set :=
  NoAction | Restrict | Cascade | SetNull | SetDefault.

Record ForeignKeyRef : Type := mkForeignKeyRef
  { fk_Table : option QualifiedIdent;
    fk_Columns : list Ident;
    fk_OnDelete : RefAction;
    fk_OnUpdate : RefAction }.

Record GeneratedCol : Type := mkGeneratedCol
  { gen_Expr : Expr;
    gen_Stored : bool }.

Record ColumnDef : Type := mkColumnDef
  { col_Name : option Ident;
    col_Type : option DataType;
    col_NotNull : bool;
    col_Default : Expr;
    col_AutoIncrement : bool;
    col_PrimaryKey : bool;
    col_Unique : bool;
    col_Comment : option Literal;
    col_References : option ForeignKeyRef;
    col_Check : Expr;
    col_Generated : option GeneratedCol;
    col_OnUpdate : Expr;
    col_TokPos : Z }.

Record IndexColDef : Type := mkIndexColDef
  { ic_Name : option Ident;
    ic_Length : option Z;
    ic_Desc : bool }.

Record TableConstraint : Type := mkTableConstraint
  { tc_Name : option Ident;
    tc_Type : ConstraintType;
    tc_Columns : list IndexColDef;
    tc_RefTable : option QualifiedIdent;
    tc_RefCols : list Ident;
    tc_OnDelete : RefAction;
    tc_OnUpdate : RefAction;
    tc_Check : Expr;
    tc_IndexType : bytes;
    tc_TokPos : Z }.

Record TableOption : Type := mkTableOption
  { Key : bytes;
    opt_Value : bytes }.

Record CreateTableStmt : Type := mkCreateTableStmt
  { ct_Table : option QualifiedIdent;
    ct_Temporary : bool;
    ct_IfNotExists : bool;
    ct_Columns : list ColumnDef;
    ct_Constraints : list TableConstraint;
    ct_Options : list TableOption;
    ct_Select : option SelectStmt;
    ct_Like : option QualifiedIdent;
    ct_TokPos : Z }.

Inductive AlterCmd : Type :=
| CmdNil
| AddColumnCmd (col : ColumnDef) (first : bool) (after : option Ident)
    (tokPos : Z)
| DropColumnCmd (name : option Ident) (tokPos : Z)
| ModifyColumnCmd (col : ColumnDef) (first : bool) (after : option Ident)
    (tokPos : Z)
| AddConstraintCmd (constraint : TableConstraint) (tokPos : Z)
| DropIndexCmd (name : option Ident) (tokPos : Z)
| RenameTableCmd (newName : option QualifiedIdent) (tokPos : Z).

Record AlterTableStmt : Type := mkAlterTableStmt
  { at_Table : option QualifiedIdent;
    at_Cmds : list AlterCmd;
    at_TokPos : Z }.

Record CreateIndexStmt : Type := mkCreateIndexStmt
  { ci_Name : option Ident;
    ci_Table : option QualifiedIdent;
    ci_Columns : list IndexColDef;
    ci_Type : ConstraintType;
    ci_IndexAlg : bytes;
    ci_TokPos : Z }.

Record DropTableStmt : Type := mkDropTableStmt
  { dtb_Tables : list QualifiedIdent;
    dtb_IfExists : bool;
    dtb_Cascade : bool;
    dtb_TokPos : Z }.

Record DropIndexStmt : Type := mkDropIndexStmt
  { di_Name : option Ident;
    di_Table : option QualifiedIdent;
    di_IfExists : bool;
    di_TokPos : Z }.

Record CreateViewStmt : Type := mkCreateViewStmt
  { cv_Name : option QualifiedIdent;
    cv_Columns : list Ident;
    cv_Select : SelectStmt;
    cv_OrReplace : bool;
    cv_TokPos : Z }.

Record CreateDatabaseStmt : Type := mkCreateDatabaseStmt
  { cdb_Name : option Ident;
    cdb_IfNotExists : bool;
    cdb_Options : list TableOption;
    cdb_TokPos : Z }.

Record AlterDatabaseStmt : Type := mkAlterDatabaseStmt
  { adb_Name : option Ident;
    adb_Options : list TableOption;
    adb_TokPos : Z }.

Record DropDatabaseStmt : Type := mkDropDatabaseStmt
  { ddb_Name : option Ident;
    ddb_IfExists : bool;
    ddb_TokPos : Z }.

Record TruncateStmt : Type := mkTruncateStmt
  { tr_Table : option QualifiedIdent;
    tr_TokPos : Z }.

Record UseStmt : Type := mkUseStmt
  { Database : option Ident;
    use_TokPos : Z }.

Record ShowStmt : Type := mkShowStmt
  { What : bytes;
    show_Like : option Literal;
    show_Where : Expr;
    show_TokPos : Z }.

Record CallStmt : Type := mkCallStmt
  { call_Name : option QualifiedIdent;
    call_Args : list Expr;
    call_TokPos : Z }.

Record TransactionStmt : Type := mkTransactionStmt
  { Action : bytes;
    Savepoint : option Ident;
    tx_Options : list bytes;
    tx_TokPos : Z }.

(** [GenericDDLStmt] is a permissive representation for statements not
    yet fully modeled. *)
Record GenericDDLStmt : Type := mkGenericDDLStmt
  { Verb : bytes;
    Object : bytes;
    ddl_Name : option Ident;
    ddl_TokPos : Z }.

(** A [Statement] interface value: one constructor per statement type of
    the package, and [SOther] for a value of no such type (the nil
    interface, or a type declared elsewhere), carrying what [%T] prints. *)
Inductive Statement : Type :=
| SSelect (s : SelectStmt)
| SInsert (s : InsertStmt)
| SUpdate (s : UpdateStmt)
| SDelete (s : DeleteStmt)
| SCreateTable (s : CreateTableStmt)
| SAlterTable (s : AlterTableStmt)
| SDropTable (s : DropTableStmt)
| SCreateIndex (s : CreateIndexStmt)
| SDropIndex (s : DropIndexStmt)
| SCreateView (s : CreateViewStmt)
| SCreateDatabase (s : CreateDatabaseStmt)
| SAlterDatabase (s : AlterDatabaseStmt)
| SDropDatabase (s : DropDatabaseStmt)
| STruncate (s : TruncateStmt)
| SUse (s : UseStmt)
| SShow (s : ShowStmt)
| SExplain (stmt : Statement) (tokPos : Z)
| SCall (s : CallStmt)
| STransaction (s : TransactionStmt)
| SGenericDDL (s : GenericDDLStmt)
| SOther (typeName : string).

End ast.

(** ** Package parser *)

Module parser.

Import lexer.

(** *** The arena ([arena.go])

    [alloc] never reads or writes the bytes of a slab, so a slab is
    represented by its length; [cur] is [None] for the nil slice of the
    zero arena.  Go's [int] is 64 bits wide. *)

Definition int (z : Z) : Z := ((z + 2 ^ 63) mod 2 ^ 64 - 2 ^ 63)%Z.

Record arena : Set := mkArena
  { slabs : list Z;
    cur : option Z;
    off : Z }.

Definition zero_arena : arena := {| slabs := []; cur := None; off := 0 |}.

Definition initialSlabSize : Z := 8 * 1024.
Definition growFactor : Z := 2.

(** [len(a.cur)] *)
Definition len_cur (a : arena) : Z :=
  match cur a with Some n => n | None => 0%Z end.

(** A sub-slice [a.cur[lo:hi]] handed out by [alloc]. *)
Record chunk : Set := mkChunk { lo : Z; hi : Z }.

(** The largest object that the Go runtime allocates, [runtime.maxAlloc]:
    [2^48] bytes where addresses have 48 bits, as on linux/amd64. *)
Definition maxAlloc : Z := 2 ^ 48.

(** [make([]byte, size)], as the length of the new slice:
    [runtime.makeslice] panics for a negative size and for a size above
    [maxAlloc].  Running out of memory below that limit is a fatal error of
    the runtime, not a panic, and is not modelled. *)
Definition make (size : Z) : option Z :=
  if ((size <? 0) || (maxAlloc <? size))%Z then None else Some size.

(** [alloc]: [None] stands for a run-time panic ([make] with a size that
    is negative or above [maxAlloc], or slice bounds out of range). *)
Definition alloc (a : arena) (n : Z) : option (chunk * arena) :=
  (* round up to 8-byte alignment *)
  let n := Z.ldiff (int (n + 7)) 7 in
  let grown :=
    if (int (off a + n) >? len_cur a)%Z then
      let size := int (len_cur a * growFactor) in
      let size :=
        if (size <? int (n + 8))%Z then int (n + initialSlabSize) else size in
      match make size with
      | None => None
      | Some slab =>
          Some {| slabs := slabs a ++ [slab]; cur := Some slab; off := 0 |}
      end
    else Some a in
  match grown with
  | None => None
  | Some a =>
      if ((0 <=? off a) && (off a <=? int (off a + n))
          && (int (off a + n) <=? len_cur a))%Z
      then Some ({| lo := off a; hi := int (off a + n) |},
                 {| slabs := slabs a; cur := cur a;
                    off := int (off a + n) |})
      else None
  end.

(** [reset] keeps the first slab. *)
Definition reset (a : arena) : arena :=
  match slabs a with
  | first :: _ => {| slabs := [first]; cur := Some first; off := 0 |}
  | [] => a
  end.

(** [init] ensures the first slab exists. *)
Definition init (a : arena) : arena :=
  match cur a with
  | None => {| slabs := slabs a ++ [initialSlabSize];
               cur := Some initialSlabSize; off := off a |}
  | Some _ => a
  end.

(** *** Errors and the token cursor *)

(** The message of a [ParseError], kept as its format and arguments. *)
Inductive message : Type :=
| MsgExpected (typ got : TokenType) (raw : bytes)
    (* "expected %s, got %s (%q)" *)
| MsgExpectedKeyword (kw : TokenType) (raw : bytes)
    (* "expected keyword %s, got %q" *)
| MsgUnexpectedAtStart (raw : bytes)
    (* "unexpected token %q at start of statement" *)
| MsgUnexpectedInExpr (raw : bytes)
    (* "unexpected token %q in expression" *)
| MsgExpectedIdent (raw : bytes)
    (* "expected identifier, got %q" *)
| MsgOther (text : string).

Record ParseError : Type := mkParseError
  { Msg : message;
    err_Pos : Z;
    err_Line : Z;
    err_Col : Z }.

(** The outcome of a parsing function: a value, a [ParseError], or the
    exhaustion of the fuel that stands for Go's unbounded recursion. *)
Inductive res (A : Type) : Type :=
| Ok (a : A)
| Err (e : ParseError)
| OutOfFuel.

Arguments Ok {A} a.
Arguments Err {A} e.
Arguments OutOfFuel {A}.

(** The parser keeps the current token and a one-slot lookahead.  Tree
    nodes are values here; their allocation in the arena is not traced. *)
Record Parser : Type := mkParser
  { lex : Lexer;
    tok : Token;      (* current (already consumed from lexer) *)
    peek : Token;     (* one ahead *)
    hasPeek : bool }.

Definition noToken : Token :=
  {| Raw := []; Type_ := ILLEGAL; Pos := 0; Line := 0; Col := 0 |}.

(** [p.lex.Next()]; the [None] case never arises
    (see [LexerFacts.Next_total]). *)
Definition lexNext (l : Lexer) : Token * Lexer :=
  match Next l with
  | Some r => r
  | None => (noToken, l)
  end.

Definition New (s : bytes) : Parser :=
  let '(t, l) := lexNext (lexer.New s) in
  {| lex := l; tok := t; peek := noToken; hasPeek := false |}.

Definition NewString (s : bytes) : Parser := New s.

Definition advance (p : Parser) : Token * Parser :=
  let prev := tok p in
  if hasPeek p then
    (prev, {| lex := lex p; tok := peek p; peek := peek p;
              hasPeek := false |})
  else
    let '(t, l) := lexNext (lex p) in
    (prev, {| lex := l; tok := t; peek := peek p; hasPeek := false |}).

Definition peekToken (p : Parser) : Token * Parser :=
  if hasPeek p then (peek p, p)
  else
    let '(t, l) := lexNext (lex p) in
    (t, {| lex := l; tok := tok p; peek := t; hasPeek := true |}).

(** [for p.tok.Type == lexer.SEMICOLON { p.advance() }] *)
Fixpoint skipSemis_loop (fuel : nat) (p : Parser) : Parser :=
  match fuel with
  | O => p
  | S f =>
      if eqb (Type_ (tok p)) SEMICOLON
      then skipSemis_loop f (snd (advance p))
      else p
  end.

(** Each turn consumes a token, and there are at most as many tokens left
    as bytes, plus the buffered ones. *)
Definition skipSemis (p : Parser) : Parser :=
  skipSemis_loop (3 + (len (lex p) - pos (lex p))) p.

Definition is_ (p : Parser) (typ : TokenType) : bool :=
  eqb (Type_ (tok p)) typ.

Definition errorf (p : Parser) (m : message) : ParseError :=
  {| Msg := m; err_Pos := Pos (tok p); err_Line := Line (tok p);
     err_Col := Col (tok p) |}.

Definition eat (typ : TokenType) (p : Parser) : res Token * Parser :=
  if negb (eqb (Type_ (tok p)) typ)
  then (Err (errorf p (MsgExpected typ (Type_ (tok p)) (Raw (tok p)))), p)
  else let '(t, p) := advance p in (Ok t, p).

Definition eatKeyword (kw : TokenType) (p : Parser) : res unit * Parser :=
  if negb (eqb (Type_ (tok p)) kw)
  then (Err (errorf p (MsgExpectedKeyword kw (Raw (tok p)))), p)
  else (Ok tt, snd (advance p)).

Definition tryEat (typ : TokenType) (p : Parser) : bool * Parser :=
  if eqb (Type_ (tok p)) typ then (true, snd (advance p)) else (false, p).

Definition tryEatKeyword (kw : TokenType) (p : Parser) : bool * Parser :=
  if eqb (Type_ (tok p)) kw then (true, snd (advance p)) else (false, p).

(** *** Identifier helpers *)

Definition hasUpperASCII (raw : bytes) : bool :=
  existsb (fun c => ("A" <=? c)%char && (c <=? "Z")%char) raw.

Definition bytesToString (raw : bytes) : string := string_of_list_ascii raw.

Definition lowerASCIIStringArena (raw : bytes) : string :=
  match raw with
  | [] => ""%string
  | _ =>
      if negb (hasUpperASCII raw) then bytesToString raw
      else bytesToString (map lower raw)
  end.

Definition unquoteIdentArena (raw : bytes) : string :=
  if (List.length raw <? 2)%nat then lowerASCIIStringArena raw
  else
    let first := index raw 0 in
    if ((first =? "`")%char || (first =? DQ)%char)
       && (index raw (List.length raw - 1) =? first)%char
    then bytesToString (slice raw 1 (List.length raw - 1))
    else lowerASCIIStringArena raw.

Fixpoint equalASCIIFold_loop (raw s : bytes) : bool :=
  match raw, s with
  | [], [] => true
  | c :: raw', d :: s' =>
      if negb (lower c =? d)%char then false else equalASCIIFold_loop raw' s'
  | _, _ => false
  end.

Definition equalASCIIFold (raw : bytes) (s : string) : bool :=
  if negb (List.length raw =? String.length s)%nat then false
  else equalASCIIFold_loop raw (B s).

(** *** The parsing monad: the parser state is threaded, an error or the
    exhaustion of fuel ends the computation. *)

Definition M (A : Type) : Type := Parser -> res A * Parser.

Definition ret {A} (a : A) : M A := fun p => (Ok a, p).

Definition bind {A B} (m : M A) (k : A -> M B) : M B :=
  fun p =>
    match m p with
    | (Ok a, p') => k a p'
    | (Err e, p') => (Err e, p')
    | (OutOfFuel, p') => (OutOfFuel, p')
    end.

Notation "x <- m ;; k" := (bind m (fun x => k))
  (at level 61, m at next level, right associativity).
Notation "m ;;; k" := (bind m (fun _ => k))
  (at level 61, right associativity).

(** A step that cannot fail. *)
Definition lift {A} (f : Parser -> A * Parser) : M A :=
  fun p => let '(a, p') := f p in (Ok a, p').

Definition curTok : M Token := fun p => (Ok (tok p), p).

Definition fail {A} (m : message) : M A := fun p => (Err (errorf p m), p).

Definition outOfFuel {A} : M A := fun p => (OutOfFuel, p).

(** [p.tok.Type] is one of [ts]. *)
Definition oneOf (t : TokenType) (ts : list TokenType) : bool :=
  existsb (eqb t) ts.

Definition parseIdent : M ast.Ident :=
  t <- curTok ;;
  if oneOf (Type_ t) [IDENT; BACKTICK; DQUOTE] then
    lift advance ;;;
    ret {| ast.Raw := Raw t; ast.Unquoted := unquoteIdentArena (Raw t);
           ast.TokPos := Pos t |}
  else if (code ILLEGAL <? code (Type_ t))%N && (code (Type_ t) <? code INT)%N
  then
    lift advance ;;;
    ret {| ast.Raw := Raw t; ast.Unquoted := lowerASCIIStringArena (Raw t);
           ast.TokPos := Pos t |}
  else fail (MsgExpectedIdent (Raw t)).

(** The loop of [parseQualifiedIdent] over [. ident]. *)
Fixpoint parseQualifiedIdent_loop (fuel : nat) (parts : list ast.Ident)
  : M ast.QualifiedIdent :=
  match fuel with
  | O => outOfFuel
  | S f =>
      fun p =>
        if is_ p DOT then
          let '(_, p) := advance p in
          match parseIdent p with
          | (Ok next, p) => parseQualifiedIdent_loop f (parts ++ [next]) p
          | (Err e, p) =>
              (* could be schema.*  treat as ident *)
              if is_ p STAR then
                let star := {| ast.Raw := Raw (tok p);
                               ast.Unquoted := "*"%string;
                               ast.TokPos := Pos (tok p) |} in
                let '(_, p) := advance p in
                (Ok {| ast.Parts := parts ++ [star] |}, p)
              else (Err e, p)
          | (OutOfFuel, p) => (OutOfFuel, p)
          end
        else (Ok {| ast.Parts := parts |}, p)
  end.

Definition parseQualifiedIdent (fuel : nat) : M ast.QualifiedIdent :=
  id <- parseIdent ;;
  parseQualifiedIdent_loop fuel [id].

(** *** Expressions (Pratt parser) *)

Definition precedence := Z.

Definition precLowest : precedence := 0%Z.
Definition precOr : precedence := 1%Z.
Definition precAnd : precedence := 2%Z.
Definition precNot : precedence := 3%Z.
Definition precComparison : precedence := 4%Z.
Definition precBitOr : precedence := 5%Z.
Definition precBitAnd : precedence := 6%Z.
Definition precShift : precedence := 7%Z.
Definition precAddSub : precedence := 8%Z.
Definition precMulDiv : precedence := 9%Z.
Definition precUnary : precedence := 10%Z.
Definition precPostfix : precedence := 11%Z.

Definition tokenPrec (t : TokenType) : precedence * bool :=
  match t with
  | OR => (precOr, true)
  | AND | DAMP => (precAnd, true)
  | EQ | NEQ | LT | GT | LTE | GTE => (precComparison, true)
  | ATGT | LTAT | QUESTION | QMARKPIPE | QMARKAMP => (precComparison, true)
  | PIPE => (precBitOr, true)
  | CARET => (precBitOr, true)
  | AMPERSAND => (precBitAnd, true)
  | LSHIFT | RSHIFT => (precShift, true)
  | PLUS | MINUS => (precAddSub, true)
  | STAR | SLASH | PERCENT => (precMulDiv, true)
  | DBAR => (precAddSub, true)
  | ARROW | DARROW2 | HASHARROW | HASHDARROW => (precPostfix, true)
  | _ => (0%Z, false)
  end.

Section Expressions.

(** The select parser and the data-type parser, which the expression
    parser calls for subqueries and for [CAST], are parameters here. *)
Variable parseSelect : M ast.SelectStmt.
Variable parseDataType : M ast.DataType.

Fixpoint parseExpr (fuel : nat) (minPrec : precedence) {struct fuel}
  : M ast.Expr :=
  match fuel with
  | O => outOfFuel
  | S f =>
      left <- parseUnary f ;;
      parseExpr_loop f minPrec left
  end

(** The [for] loop of [parseExpr], with [left] parsed so far. *)
with parseExpr_loop (fuel : nat) (minPrec : precedence) (left : ast.Expr)
  {struct fuel} : M ast.Expr :=
  match fuel with
  | O => outOfFuel
  | S f =>
      (* Standard binary operators *)
      let binary : M ast.Expr :=
        t <- curTok ;;
        let '(prec, ok) := tokenPrec (Type_ t) in
        if negb ok || (prec <=? minPrec)%Z then ret left
        else
          let op := Type_ t in
          let pos := Pos t in
          lift advance ;;;
          right <- parseExpr f prec ;;
          parseExpr_loop f minPrec (ast.BinaryExpr left right op pos) in
      let like (pos : Z) (not : bool) : M ast.Expr :=
        right <- parseExpr f precMulDiv ;;
        hasEsc <- lift (tryEatKeyword ESCAPE) ;;
        if hasEsc then
          esc <- parseExpr f precMulDiv ;;
          parseExpr_loop f minPrec (ast.LikeExpr left right esc not pos)
        else
          parseExpr_loop f minPrec (ast.LikeExpr left right ast.ENil not pos)
      in
      let between (pos : Z) (not : bool) : M ast.Expr :=
        lo <- parseExpr f (precComparison + 1)%Z ;;
        eatKeyword AND ;;;
        hi <- parseExpr f (precComparison + 1)%Z ;;
        parseExpr_loop f minPrec (ast.BetweenExpr left lo hi not pos) in
      let inRHS (pos : Z) (not : bool) : M ast.Expr :=
        inExpr <- parseInRHS f left pos not ;;
        parseExpr_loop f minPrec inExpr in
      t <- curTok ;;
      match Type_ t with
      | IS =>
          let pos := Pos t in
          lift advance ;;;
          not <- lift (tryEatKeyword NOT) ;;
          eat NULL_KW ;;;
          parseExpr_loop f minPrec (ast.IsNullExpr left not pos)
      | NOT =>
          let pos := Pos t in
          pk <- lift peekToken ;;
          match Type_ pk with
          | LIKE => lift advance ;;; lift advance ;;; like pos true
          | IN => lift advance ;;; lift advance ;;; inRHS pos true
          | BETWEEN => lift advance ;;; lift advance ;;; between pos true
          | _ => binary
          end
      | LIKE => lift advance ;;; like (Pos t) false
      | IN => lift advance ;;; inRHS (Pos t) false
      | BETWEEN => lift advance ;;; between (Pos t) false
      | _ => binary
      end
  end

with parseInRHS (fuel : nat) (left : ast.Expr) (pos : Z) (not : bool)
  {struct fuel} : M ast.Expr :=
  match fuel with
  | O => outOfFuel
  | S f =>
      eat LPAREN ;;;
      t <- curTok ;;
      if oneOf (Type_ t) [SELECT; WITH] then
        sq <- parseSelect ;;
        eat RPAREN ;;;
        ret (ast.InExpr left [] (Some sq) not pos)
      else
        list <- parseExprList f [] ;;
        eat RPAREN ;;;
        ret (ast.InExpr left list None not pos)
  end

with parseUnary (fuel : nat) {struct fuel} : M ast.Expr :=
  match fuel with
  | O => outOfFuel
  | S f =>
      t <- curTok ;;
      if oneOf (Type_ t) [MINUS; PLUS; TILDE; NOT] then
        let pos := Pos t in
        lift advance ;;;
        expr <- parseUnary f ;;
        ret (ast.UnaryExpr expr (Type_ t) pos)
      else if eqb (Type_ t) EXISTS then
        let pos := Pos t in
        lift advance ;;;
        eat LPAREN ;;;
        sq <- parseSelect ;;
        eat RPAREN ;;;
        ret (ast.ExistsExpr sq false pos)
      else parsePrimary f
  end

with parsePrimary (fuel : nat) {struct fuel} : M ast.Expr :=
  match fuel with
  | O => outOfFuel
  | S f =>
      t0 <- curTok ;;
      if oneOf (Type_ t0) [INT; FLOAT; STRING; HEXLIT; BITLIT] then
        t <- lift advance ;;
        ret (ast.ELiteral {| ast.lit_Raw := Raw t; ast.lit_Kind := Type_ t;
                             ast.lit_TokPos := Pos t |})
      else if eqb (Type_ t0) NULL_KW then
        t <- lift advance ;;
        ret (ast.NullLit (Pos t))
      else if oneOf (Type_ t0) [TRUE_KW; FALSE_KW] then
        t <- lift advance ;;
        ret (ast.ELiteral {| ast.lit_Raw := Raw t; ast.lit_Kind := Type_ t;
                             ast.lit_TokPos := Pos t |})
      else if oneOf (Type_ t0) [NAMEDPARAM; QUESTION] then
        t <- lift advance ;;
        ret (ast.Param (Raw t) (Pos t))
      else if eqb (Type_ t0) STAR then
        t <- lift advance ;;
        ret (ast.StarExpr (Pos t))
      else if eqb (Type_ t0) LPAREN then
        lift advance ;;;
        t1 <- curTok ;;
        if oneOf (Type_ t1) [SELECT; WITH] then
          sq <- parseSelect ;;
          eat RPAREN ;;;
          ret (ast.SubqueryExpr sq (ast.sel_TokPos sq))
        else
          expr <- parseExpr f 0%Z ;;
          eat RPAREN ;;;
          ret expr
      else if eqb (Type_ t0) CASE then parseCaseExpr f
      else if eqb (Type_ t0) CAST then parseCast f
      else if oneOf (Type_ t0) [IDENT; BACKTICK; DQUOTE] then
        (* Could be a function call, qualified ident, or plain ident. *)
        name <- parseQualifiedIdent f ;;
        t1 <- curTok ;;
        if eqb (Type_ t1) LPAREN then parseFuncCall f name
        else
          match ast.Parts name with
          | [part] => ret (ast.EIdent part)
          | _ => ret (ast.EQualifiedIdent name)
          end
      else if oneOf (Type_ t0) [REPLACE; LEFT; RIGHT; INSERT] then
        let part := {| ast.Raw := Raw t0;
                       ast.Unquoted := lowerASCIIStringArena (Raw t0);
                       ast.TokPos := Pos t0 |} in
        let name := {| ast.Parts := [part] |} in
        lift advance ;;;
        t1 <- curTok ;;
        if eqb (Type_ t1) LPAREN then parseFuncCall f name
        else ret (ast.EIdent part)
      else fail (MsgUnexpectedInExpr (Raw t0))
  end

with parseCaseExpr (fuel : nat) {struct fuel} : M ast.Expr :=
  match fuel with
  | O => outOfFuel
  | S f =>
      t <- curTok ;;
      let pos := Pos t in
      lift advance ;;;
      t1 <- curTok ;;
      operand <- (if negb (eqb (Type_ t1) WHEN) then parseExpr f 0%Z
                  else ret ast.ENil) ;;
      whens <- parseWhens f [] ;;
      hasElse <- lift (tryEatKeyword ELSE) ;;
      els <- (if hasElse then parseExpr f 0%Z else ret ast.ENil) ;;
      eatKeyword END ;;;
      ret (ast.CaseExpr operand whens els pos)
  end

(** [for p.tryEatKeyword(lexer.WHEN) { ... }] *)
with parseWhens (fuel : nat) (whens : list ast.WhenClause) {struct fuel}
  : M (list ast.WhenClause) :=
  match fuel with
  | O => outOfFuel
  | S f =>
      more <- lift (tryEatKeyword WHEN) ;;
      if more then
        cond <- parseExpr f 0%Z ;;
        eatKeyword THEN ;;;
        result <- parseExpr f 0%Z ;;
        parseWhens f
          (whens ++ [{| ast.Cond := cond; ast.Result := result |}])
      else ret whens
  end

with parseCast (fuel : nat) {struct fuel} : M ast.Expr :=
  match fuel with
  | O => outOfFuel
  | S f =>
      t <- curTok ;;
      let pos := Pos t in
      lift advance ;;;
      eat LPAREN ;;;
      expr <- parseExpr f 0%Z ;;
      eatKeyword AS ;;;
      dt <- parseDataType ;;
      eat RPAREN ;;;
      ret (ast.CastExpr expr dt pos)
  end

with parseFuncCall (fuel : nat) (name : ast.QualifiedIdent) {struct fuel}
  : M ast.Expr :=
  match fuel with
  | O => outOfFuel
  | S f =>
      t <- curTok ;;
      let pos := Pos t in
      lift advance ;;;
      t1 <- curTok ;;
      if eqb (Type_ t1) RPAREN then
        lift advance ;;;
        ret (ast.FuncCall (Some name) [] false false pos)
      else if eqb (Type_ t1) STAR then
        lift advance ;;;
        eat RPAREN ;;;
        ret (ast.FuncCall (Some name) [] false true pos)
      else
        distinct <- lift (tryEatKeyword DISTINCT) ;;
        args <- parseExprList f [] ;;
        eat RPAREN ;;;
        ret (ast.FuncCall (Some name) args distinct false pos)
  end

(** The loop of [parseExprList], with the expressions read so far. *)
with parseExprList (fuel : nat) (exprs : list ast.Expr) {struct fuel}
  : M (list ast.Expr) :=
  match fuel with
  | O => outOfFuel
  | S f =>
      e <- parseExpr f 0%Z ;;
      let exprs := exprs ++ [e] in
      more <- lift (tryEat COMMA) ;;
      if more then parseExprList f exprs else ret exprs
  end.

(** [parseLimit] runs after the [LIMIT] keyword.  A nil [Offset] is
    [ENil]. *)
Definition parseLimit (fuel : nat) : M ast.LimitClause :=
  count <- parseExpr fuel 0%Z ;;
  let lim := {| ast.Count := count; ast.Offset := ast.ENil |} in
  hasOffset <- lift (tryEatKeyword OFFSET) ;;
  if hasOffset then
    off <- parseExpr fuel 0%Z ;;
    ret {| ast.Count := ast.Count lim; ast.Offset := off |}
  else
    hasComma <- lift (tryEat COMMA) ;;
    if hasComma then
      (* MySQL: LIMIT offset, count *)
      off <- parseExpr fuel 0%Z ;;
      let lim := {| ast.Count := ast.Count lim;
                    ast.Offset := ast.Count lim |} in
      ret {| ast.Count := off; ast.Offset := ast.Offset lim |}
    else ret lim.

End Expressions.

(** *** Statement dispatch and the entry points *)

(** The parsers of the individual statement kinds, which [parseStatement]
    dispatches to. *)
Record StatementParsers : Type := mkStatementParsers
  { parseSelect : M ast.Statement;
    parseWithStatement : M ast.Statement;
    parseInsert : M ast.Statement;
    parseReplace : M ast.Statement;
    parseUpdate : M ast.Statement;
    parseDelete : M ast.Statement;
    parseCreate : M ast.Statement;
    parseAlter : M ast.Statement;
    parseDrop : M ast.Statement;
    parseTruncate : M ast.Statement;
    parseUse : M ast.Statement;
    parseRollback : M ast.Statement;
    parseSetStmt : M ast.Statement;
    parseShow : M ast.Statement;
    parseExplain : M ast.Statement;
    parseBegin : M ast.Statement;
    parseCommit : M ast.Statement;
    parseStartTransaction : M ast.Statement;
    parseSavepoint : M ast.Statement;
    parseReleaseSavepoint : M ast.Statement;
    parseCall : M ast.Statement }.

Section Statements.

Variable sub : StatementParsers.

Definition parseIdentLedStatement : M ast.Statement :=
  t <- curTok ;;
  if equalASCIIFold (Raw t) "begin" then parseBegin sub
  else if equalASCIIFold (Raw t) "commit" then parseCommit sub
  else if equalASCIIFold (Raw t) "start" then parseStartTransaction sub
  else if equalASCIIFold (Raw t) "savepoint" then parseSavepoint sub
  else if equalASCIIFold (Raw t) "release" then parseReleaseSavepoint sub
  else if equalASCIIFold (Raw t) "call" then parseCall sub
  else fail (MsgUnexpectedAtStart (Raw t)).

Definition parseStatement : M ast.Statement :=
  t <- curTok ;;
  match Type_ t with
  | SELECT => parseSelect sub
  | WITH => parseWithStatement sub
  | INSERT => parseInsert sub
  | REPLACE => parseReplace sub
  | UPDATE => parseUpdate sub
  | DELETE => parseDelete sub
  | CREATE => parseCreate sub
  | ALTER => parseAlter sub
  | DROP => parseDrop sub
  | TRUNCATE => parseTruncate sub
  | USE => parseUse sub
  | ROLLBACK => parseRollback sub
  | SET => parseSetStmt sub
  | SHOW => parseShow sub
  | EXPLAIN => parseExplain sub
  | IDENT => parseIdentLedStatement
  | _ => fail (MsgUnexpectedAtStart (Raw t))
  end.

(** [ParseOne] parses a single SQL statement: [Ok None] is the pair
    [(nil, nil)], [Ok (Some stmt)] is [(stmt, nil)], [Err e] is
    [(nil, e)]. *)
Definition ParseOne : M (option ast.Statement) :=
  fun p =>
    let p := skipSemis p in
    if eqb (Type_ (tok p)) EOF then (Ok None, p)
    else
      match parseStatement p with
      | (Ok stmt, p) => (Ok (Some stmt), skipSemis p)
      | (Err e, p) => (Err e, p)
      | (OutOfFuel, p) => (OutOfFuel, p)
      end.

(** [ParseStatement] is the public entrypoint for a single statement. *)
Definition ParseStatement (s : bytes) : res (option ast.Statement) :=
  let p := NewString s in
  fst (ParseOne p).

End Statements.

Section AllStatements.

Variable sub : StatementParsers.

(** The loop of [ParseAll]: the statements parsed so far come back with
    the error. *)
Fixpoint ParseAll_loop (fuel : nat) (stmts : list ast.Statement)
  (p : Parser) : (list ast.Statement * res unit) * Parser :=
  match fuel with
  | O => ((stmts, OutOfFuel), p)
  | S f =>
      let p := skipSemis p in
      if eqb (Type_ (tok p)) EOF then ((stmts, Ok tt), p)
      else
        match parseStatement sub p with
        | (Ok stmt, p) => ParseAll_loop f (stmts ++ [stmt]) p
        | (Err e, p) => ((stmts, Err e), p)
        | (OutOfFuel, p) => ((stmts, OutOfFuel), p)
        end
  end.

(** [ParseAll] parses all statements separated by semicolons.  The loop
    is given three turns more than bytes are left to read, which is enough
    when every statement takes a token; it ends with [OutOfFuel] when the
    turns run out. *)
Definition ParseAll (p : Parser)
  : (list ast.Statement * res unit) * Parser :=
  ParseAll_loop (3 + (len (lex p) - pos (lex p))) [] p.

(** [ParseStatements] parses multiple statements. *)
Definition ParseStatements (s : bytes) : list ast.Statement * res unit :=
  let p := NewString s in
  fst (ParseAll p).

End AllStatements.

End parser.

(** ** Package sqlparser: the dialect renderer ([convert.go]) *)

Module sqlparser.

Import ast.
Local Open Scope string_scope.

Definition Dialect := string.

Definition DialectMySQL : Dialect := "mysql".
Definition DialectPostgres : Dialect := "postgres".
Definition DialectSQLite : Dialect := "sqlite".

(** A rendered string is kept as the sequence of pieces it was
    concatenated from, and the pieces that [renderParam] produced are
    marked: [String] gives the Go string back, [placeholders] the parameter
    placeholders in output order. *)
Inductive piece : Set :=
| Lit (s : string)
| Placeholder (s : string).

Definition text := list piece.

Definition T (s : string) : text := [Lit s].

Definition piece_string (p : piece) : string :=
  match p with Lit s => s | Placeholder s => s end.

Fixpoint String (t : text) : string :=
  match t with
  | [] => EmptyString
  | p :: t' => piece_string p ++ String t'
  end.

Fixpoint placeholders (t : text) : list string :=
  match t with
  | [] => []
  | Lit _ :: t' => placeholders t'
  | Placeholder s :: t' => s :: placeholders t'
  end.

Inductive error : Set :=
| ErrUnsupported (typeName : string)
    (* "unsupported statement type %T" *)
| ErrNoConflictTarget.
    (* "cannot rewrite ON DUPLICATE KEY without conflict target" *)

(** The pair [(string, error)] that the statement renderers return. *)
Inductive result : Set :=
| Rendered (t : text)
| Failed (e : error).

(** [strconv.Itoa] *)
Definition Itoa (z : Z) : string := NilZero.string_of_int (Z.to_int z).

(** [strings.ReplaceAll(s, old, new)] for a one-byte [old], as the
    renderer calls it. *)
Fixpoint ReplaceAll (s : string) (old : ascii) (new : string) : string :=
  match s with
  | EmptyString => EmptyString
  | String.String c s' =>
      if Ascii.eqb c old then new ++ ReplaceAll s' old new
      else String.String c (ReplaceAll s' old new)
  end.

Definition BQ : string := "`".
Definition DQS : string := String.String DQ EmptyString.

Definition str (b : bytes) : string := string_of_list_ascii b.

Definition nonEmpty {A} (l : list A) : bool :=
  match l with [] => false | _ => true end.

(** *** The renderer monads

    [R] threads [r.paramIndex], the only field of the renderer that is
    assigned after its creation.  [W] is the body of a rendering function:
    it also carries the [strings.Builder] (or the string variable) that
    the function appends to, and may return early with an error. *)

Definition R (A : Type) : Type := Z -> A * Z.

Inductive outcome (A : Type) : Type :=
| Done (a : A)
| Fail (e : error).

Arguments Done {A} a.
Arguments Fail {A} e.

Definition W (A : Type) : Type := Z * text -> outcome A * (Z * text).

Definition ret {A} (a : A) : W A := fun st => (Done a, st).

Definition bind {A B} (m : W A) (k : A -> W B) : W B :=
  fun st =>
    match m st with
    | (Done a, st') => k a st'
    | (Fail e, st') => (Fail e, st')
    end.

Notation "x <- m ;; k" := (bind m (fun x => k))
  (at level 61, m at next level, right associativity).
Notation "m ;;; k" := (bind m (fun _ => k))
  (at level 61, right associativity).

(** [b.WriteString(t)] *)
Definition write (t : text) : W unit :=
  fun '(k, b) => (Done tt, (k, (b ++ t)%list)).

Definition writeS (s : string) : W unit := write (T s).

(** [x := r.render...(...)] *)
Definition call (m : R text) : W text :=
  fun '(k, b) => let '(t, k') := m k in (Done t, (k', b)).

(** [b.WriteString(r.render...(...))] *)
Definition writeR (m : R text) : W unit := t <- call m ;; write t.

(** [x, err := r.render...(...); if err != nil { return "", err }] *)
Definition callE (m : R result) : W text :=
  fun '(k, b) =>
    match m k with
    | (Rendered t, k') => (Done t, (k', b))
    | (Failed e, k') => (Fail e, (k', b))
    end.

(** [x, _ := r.render...(...)]: on an error the string is empty. *)
Definition callIgnore (m : R result) : W text :=
  fun '(k, b) =>
    match m k with
    | (Rendered t, k') => (Done t, (k', b))
    | (Failed _, k') => (Done [], (k', b))
    end.

Definition throw {A} (e : error) : W A := fun st => (Fail e, st).

Definition when (c : bool) (m : W unit) : W unit :=
  if c then m else ret tt.

(** [for i, x := range l { f i x }] *)
Definition forRange {A} (l : list A) (f : nat -> A -> W unit) : W unit :=
  (fix go (i : nat) (l : list A) {struct l} : W unit :=
     match l with
     | [] => ret tt
     | x :: xs => f i x ;;; go (S i) xs
     end) 0%nat l.

(** [if i > 0 { b.WriteString(sep) }] *)
Definition sep (i : nat) (s : string) : W unit :=
  when (0 <? i)%nat (writeS s).

(** The string a body has built, for a function that returns a string. *)
Definition runT (m : W unit) : R text :=
  fun k => let '(_, (k', b)) := m (k, []) in (b, k').

(** The same for a function that returns [(string, error)]. *)
Definition run (m : W unit) : R result :=
  fun k =>
    match m (k, []) with
    | (Done _, (k', b)) => (Rendered b, k')
    | (Fail e, (k', _)) => (Failed e, k')
    end.

Definition pure (t : text) : R text := fun k => (t, k).

Section Renderer.

(** [strings.ToUpper] and [strings.EqualFold], which follow Unicode, are
    parameters. *)
Variable ToUpper : string -> string.
Variable EqualFold : string -> string -> bool.

(** The fields [r.target] and [r.strict]. *)
Variable target : Dialect.
Variable strict : bool.

Definition renderIdent (id : option Ident) : string :=
  match id with
  | None => EmptyString
  | Some id =>
      let name := Unquoted id in
      if String.eqb name "*" then "*"
      else if String.eqb target DialectMySQL
      then BQ ++ ReplaceAll name "`" (BQ ++ BQ) ++ BQ
      else DQS ++ ReplaceAll name DQ (DQS ++ DQS) ++ DQS
  end.

Definition renderQualifiedIdent (q : option QualifiedIdent) : string :=
  match q with
  | None => EmptyString
  | Some q =>
      (fix go (i : nat) (parts : list Ident) : string :=
         match parts with
         | [] => EmptyString
         | p :: ps =>
             (if (0 <? i)%nat then "." else EmptyString)
             ++ renderIdent (Some p) ++ go (S i) ps
         end) 0%nat (Parts q)
  end.

Definition renderFunctionName (name : option QualifiedIdent) : string :=
  match name with
  | None => EmptyString
  | Some q =>
      match Parts q with
      | [] => EmptyString
      | [part] =>
          let fn := ToUpper (Unquoted part) in
          if String.eqb target DialectPostgres
             || String.eqb target DialectSQLite
          then if String.eqb fn "IFNULL" then "COALESCE" else fn
          else if String.eqb target DialectMySQL
          then if String.eqb fn "COALESCE" then "IFNULL" else fn
          else fn
      | _ => renderQualifiedIdent name
      end
  end.

(** [r.paramIndex++] on the field of type [int]. *)
Definition renderParam (raw : bytes) : R text :=
  fun paramIndex =>
    if String.eqb target DialectPostgres then
      let paramIndex := parser.int (paramIndex + 1) in
      ([Placeholder ("$" ++ Itoa paramIndex)], paramIndex)
    else ([Placeholder "?"], paramIndex).

Definition opString (op : lexer.TokenType) : string :=
  match op with
  | lexer.PLUS => "+"
  | lexer.MINUS => "-"
  | lexer.STAR => "*"
  | lexer.SLASH => "/"
  | lexer.PERCENT => "%"
  | lexer.AND | lexer.DAMP => "AND"
  | lexer.OR => "OR"
  | lexer.NOT => "NOT"
  | lexer.EQ => "="
  | lexer.NEQ => "!="
  | lexer.LT => "<"
  | lexer.GT => ">"
  | lexer.LTE => "<="
  | lexer.GTE => ">="
  | lexer.LSHIFT => "<<"
  | lexer.RSHIFT => ">>"
  | lexer.DBAR => "||"
  | lexer.PIPE => "|"
  | lexer.CARET => "^"
  | lexer.AMPERSAND => "&"
  | lexer.ARROW => "->"
  | lexer.DARROW2 => "->>"
  | lexer.HASHARROW => "#>"
  | lexer.HASHDARROW => "#>>"
  | lexer.ATGT => "@>"
  | lexer.LTAT => "<@"
  | lexer.QUESTION => "?"
  | lexer.QMARKPIPE => "?|"
  | lexer.QMARKAMP => "?&"
  | _ => lexer.String op
  end.

Definition renderDataType (dt : DataType) : string :=
  let name := str (dt_Name dt) in
  let name :=
    if EqualFold name "jsonb" then
      let name := if String.eqb target DialectMySQL then "JSON" else name in
      if String.eqb target DialectSQLite then "TEXT" else name
    else if EqualFold name "json" then
      if String.eqb target DialectSQLite then "TEXT" else name
    else name in
  name
  ++ (if (dt_Precision dt >? 0)%Z then
        "(" ++ Itoa (dt_Precision dt)
        ++ (if (dt_Scale dt >? 0)%Z then "," ++ Itoa (dt_Scale dt)
            else EmptyString)
        ++ ")"
      else EmptyString)
  ++ (if dt_Unsigned dt && String.eqb target DialectMySQL then " UNSIGNED"
      else EmptyString)
  ++ (if dt_Zerofill dt && String.eqb target DialectMySQL then " ZEROFILL"
      else EmptyString).

(** The identifiers of a list, separated by [", "]. *)
Definition writeIdents (ids : list Ident) : W unit :=
  forRange ids (fun i c => sep i ", " ;;; writeS (renderIdent (Some c))).

(** [renderWith], over the renderer of selects. *)
Definition renderWith_ (renderSelect : SelectStmt -> R result)
  (w : option WithClause) : R text :=
  match w with
  | None => pure []
  | Some w =>
      runT (
        writeS "WITH " ;;;
        when (Recursive w) (writeS "RECURSIVE ") ;;;
        forRange (CTEs w) (fun i cte =>
          sep i ", " ;;;
          writeS (renderIdent (cte_Name cte)) ;;;
          when (nonEmpty (cte_Columns cte)) (
            writeS " (" ;;;
            writeIdents (cte_Columns cte) ;;;
            writeS ")") ;;;
          sub <- callIgnore (renderSelect (cte_Subq cte)) ;;
          writeS " AS (" ;;;
          write sub ;;;
          writeS ")") ;;;
        writeS " ")
  end.

Definition setOpString (op : SetOp) : string :=
  match op with
  | Union => "UNION"
  | Intersect => "INTERSECT"
  | Except => "EXCEPT"
  end.

Definition joinString (k : JoinKind) : string :=
  match k with
  | InnerJoin => "JOIN "
  | LeftJoin => "LEFT JOIN "
  | RightJoin => "RIGHT JOIN "
  | FullJoin => "FULL JOIN "
  | CrossJoin => "CROSS JOIN "
  | NaturalJoin => "NATURAL JOIN "
  end.

Fixpoint renderExpr (expr : Expr) {struct expr} : R text :=
  match expr with
  | EIdent e => pure (T (renderIdent (Some e)))
  | EQualifiedIdent e => pure (T (renderQualifiedIdent (Some e)))
  | StarExpr _ => pure (T "*")
  | ELiteral e => pure (T (str (lit_Raw e)))
  | NullLit _ => pure (T "NULL")
  | Param raw _ => renderParam raw
  | BinaryExpr lhs rhs op _ =>
      runT (
        writeS "(" ;;;
        writeR (renderExpr lhs) ;;;
        writeS " " ;;;
        writeS (opString op) ;;;
        writeS " " ;;;
        writeR (renderExpr rhs) ;;;
        writeS ")")
  | UnaryExpr e op _ =>
      runT (
        writeS "(" ;;;
        writeS (opString op) ;;;
        writeS " " ;;;
        writeR (renderExpr e) ;;;
        writeS ")")
  | FuncCall name args distinct star _ =>
      runT (
        writeS (renderFunctionName name) ;;;
        writeS "(" ;;;
        (if star then writeS "*"
         else
           when distinct (writeS "DISTINCT ") ;;;
           forRange args (fun i a =>
             sep i ", " ;;; writeR (renderExpr a))) ;;;
        writeS ")")
  | CaseExpr operand whens els _ =>
      runT (
        writeS "CASE" ;;;
        when (negb (isNil operand)) (
          writeS " " ;;; writeR (renderExpr operand)) ;;;
        forRange whens (fun _ w =>
          writeS " WHEN " ;;;
          writeR (renderExpr (Cond w)) ;;;
          writeS " THEN " ;;;
          writeR (renderExpr (Result w))) ;;;
        when (negb (isNil els)) (
          writeS " ELSE " ;;; writeR (renderExpr els)) ;;;
        writeS " END")
  | BetweenExpr e lo hi not _ =>
      runT (
        writeR (renderExpr e) ;;;
        when not (writeS " NOT") ;;;
        writeS " BETWEEN " ;;;
        writeR (renderExpr lo) ;;;
        writeS " AND " ;;;
        writeR (renderExpr hi))
  | InExpr e lst subq not _ =>
      runT (
        writeR (renderExpr e) ;;;
        when not (writeS " NOT") ;;;
        writeS " IN (" ;;;
        match subq with
        | Some sq =>
            sub <- callIgnore (renderSelect sq) ;;
            write sub
        | None =>
            forRange lst (fun i it =>
              sep i ", " ;;; writeR (renderExpr it))
        end ;;;
        writeS ")")
  | LikeExpr e pattern escape not _ =>
      runT (
        writeR (renderExpr e) ;;;
        when not (writeS " NOT") ;;;
        writeS " LIKE " ;;;
        writeR (renderExpr pattern) ;;;
        when (negb (isNil escape)) (
          writeS " ESCAPE " ;;; writeR (renderExpr escape)))
  | IsNullExpr e not _ =>
      runT (
        writeR (renderExpr e) ;;;
        writeS " IS " ;;;
        when not (writeS "NOT ") ;;;
        writeS "NULL")
  | ExistsExpr subq not _ =>
      runT (
        sub <- callIgnore (renderSelect subq) ;;
        let pfx := if not then "NOT " else EmptyString in
        writeS pfx ;;;
        writeS "EXISTS (" ;;;
        write sub ;;;
        writeS ")")
  | SubqueryExpr subq _ =>
      runT (
        sub <- callIgnore (renderSelect subq) ;;
        writeS "(" ;;; write sub ;;; writeS ")")
  | CastExpr e type _ =>
      runT (
        writeS "CAST(" ;;;
        writeR (renderExpr e) ;;;
        writeS " AS " ;;;
        writeS (renderDataType type) ;;;
        writeS ")")
  | ESelect e =>
      runT (
        s <- callIgnore (renderSelect e) ;;
        writeS "(" ;;; write s ;;; writeS ")")
  | ENil | IntervalExpr _ _ _ => pure []
  end

with renderSelect (s : SelectStmt) {struct s} : R result :=
  run (
    writeR (renderWith_ renderSelect (sel_With s)) ;;;
    writeS "SELECT " ;;;
    when (sel_Distinct s) (writeS "DISTINCT ") ;;;
    forRange (sel_Columns s) (fun i c =>
      sep i ", " ;;;
      (if sc_Star c then writeS "*"
       else writeR (renderExpr (sc_Expr c))) ;;;
      match sc_Alias c with
      | Some _ => writeS " AS " ;;; writeS (renderIdent (sc_Alias c))
      | None => ret tt
      end) ;;;
    when (nonEmpty (sel_From s)) (
      writeS " FROM " ;;;
      forRange (sel_From s) (fun i tr =>
        sep i ", " ;;; writeR (renderTableRef tr))) ;;;
    when (negb (isNil (sel_Where s))) (
      writeS " WHERE " ;;; writeR (renderExpr (sel_Where s))) ;;;
    when (nonEmpty (sel_GroupBy s)) (
      writeS " GROUP BY " ;;;
      forRange (sel_GroupBy s) (fun i e =>
        sep i ", " ;;; writeR (renderExpr e))) ;;;
    when (negb (isNil (sel_Having s))) (
      writeS " HAVING " ;;; writeR (renderExpr (sel_Having s))) ;;;
    when (nonEmpty (sel_OrderBy s)) (
      writeS " ORDER BY " ;;;
      forRange (sel_OrderBy s) (fun i it =>
        sep i ", " ;;;
        writeR (renderExpr (ob_Expr it)) ;;;
        (if ob_Desc it then writeS " DESC" else writeS " ASC"))) ;;;
    match sel_Limit s with
    | Some lim =>
        writeS " LIMIT " ;;;
        writeR (renderExpr (Count lim)) ;;;
        when (negb (isNil (Offset lim))) (
          writeS " OFFSET " ;;; writeR (renderExpr (Offset lim)))
    | None => ret tt
    end ;;;
    (* cur := s.SetOp; for cur != nil { ...; cur = cur.Right.SetOp } *)
    (fix chain (x : SelectStmt) {struct x} : W unit :=
       match sel_SetOp x with
       | None => ret tt
       | Some cur =>
           writeS " " ;;;
           writeS (setOpString (so_Op cur)) ;;;
           when (so_All cur) (writeS " ALL") ;;;
           rhs <- callE (renderSelect (so_Right cur)) ;;
           writeS " " ;;;
           write rhs ;;;
           chain (so_Right cur)
       end) s)

with renderTableRef (tr : TableRef) {struct tr} : R text :=
  match tr with
  | SimpleTable name alias =>
      runT (
        writeS (renderQualifiedIdent name) ;;;
        match alias with
        | Some _ => writeS " " ;;; writeS (renderIdent alias)
        | None => ret tt
        end)
  | SubqueryTable subq alias _ =>
      runT (
        sub <- callIgnore (renderSelect subq) ;;
        writeS "(" ;;; write sub ;;; writeS ")" ;;;
        match alias with
        | Some _ => writeS " " ;;; writeS (renderIdent alias)
        | None => ret tt
        end)
  | JoinTable lhs rhs kind on using_ _ =>
      runT (
        writeR (renderTableRef lhs) ;;;
        writeS " " ;;;
        writeS (joinString kind) ;;;
        writeR (renderTableRef rhs) ;;;
        when (negb (isNil on)) (
          writeS " ON " ;;; writeR (renderExpr on)) ;;;
        when (nonEmpty using_) (
          writeS " USING (" ;;;
          writeIdents using_ ;;;
          writeS ")"))
  | TNil => pure []
  end.

Definition renderWith (w : option WithClause) : R text :=
  renderWith_ renderSelect w.

(** The loop over the set-operation chain at the end of [renderSelect],
    entered with [cur = x.SetOp]. *)
Fixpoint renderSetOps (x : SelectStmt) : W unit :=
  match sel_SetOp x with
  | None => ret tt
  | Some cur =>
      writeS " " ;;;
      writeS (setOpString (so_Op cur)) ;;;
      when (so_All cur) (writeS " ALL") ;;;
      rhs <- callE (renderSelect (so_Right cur)) ;;
      writeS " " ;;;
      write rhs ;;;
      renderSetOps (so_Right cur)
  end.

(** [col = expr] pairs separated by [", "]. *)
Definition writeAssignments (assign : list Assignment) : W unit :=
  forRange assign (fun i a =>
    sep i ", " ;;;
    writeS (renderIdent (Column a)) ;;;
    writeS " = " ;;;
    writeR (renderExpr (Value a))).

Definition renderInsert (s : InsertStmt) : R result :=
  run (
    writeR (renderWith (ins_With s)) ;;;
    (if Replace s then writeS "REPLACE INTO "
     else
       writeS "INSERT " ;;;
       when (Ignore s && String.eqb target DialectMySQL)
         (writeS "IGNORE ") ;;;
       writeS "INTO ") ;;;
    writeS (renderQualifiedIdent (ins_Table s)) ;;;
    when (nonEmpty (ins_Columns s)) (
      writeS " (" ;;; writeIdents (ins_Columns s) ;;; writeS ")") ;;;
    (if nonEmpty (ins_Values s) then
       writeS " VALUES " ;;;
       forRange (ins_Values s) (fun i row =>
         sep i ", " ;;;
         writeS "(" ;;;
         forRange row (fun j e => sep j ", " ;;; writeR (renderExpr e)) ;;;
         writeS ")")
     else
       match ins_Select s with
       | Some sel =>
           sel <- callE (renderSelect sel) ;;
           writeS " " ;;; write sel
       | None => ret tt
       end) ;;;
    if String.eqb target DialectMySQL then
      let assign := OnDupKey s in
      let assign :=
        if negb (nonEmpty assign) then OnConflictUpdate s else assign in
      when (nonEmpty assign) (
        writeS " ON DUPLICATE KEY UPDATE " ;;; writeAssignments assign)
    else if String.eqb target DialectPostgres
            || String.eqb target DialectSQLite then
      let tgt := OnConflictTarget s in
      let assign := OnConflictUpdate s in
      let doNothing := OnConflictDoNothing s in
      let assign :=
        if negb (nonEmpty assign) && nonEmpty (OnDupKey s)
        then OnDupKey s else assign in
      if nonEmpty assign || doNothing then
        tgt <- (if negb (nonEmpty tgt) && nonEmpty assign then
                  match ins_Columns s with
                  | c :: _ => ret [c]
                  | [] =>
                      if strict then throw ErrNoConflictTarget else ret tgt
                  end
                else ret tgt) ;;
        writeS " ON CONFLICT" ;;;
        when (nonEmpty tgt) (
          writeS " (" ;;; writeIdents tgt ;;; writeS ")") ;;;
        if doNothing && negb (nonEmpty assign) then writeS " DO NOTHING"
        else writeS " DO UPDATE SET " ;;; writeAssignments assign
      else ret tt
    else ret tt).

Definition renderUpdate (s : UpdateStmt) : R result :=
  run (
    writeR (renderWith (upd_With s)) ;;;
    writeS "UPDATE " ;;;
    forRange (upd_Tables s) (fun i tr =>
      sep i ", " ;;; writeR (renderTableRef tr)) ;;;
    writeS " SET " ;;;
    writeAssignments (upd_Set s) ;;;
    when (negb (isNil (upd_Where s))) (
      writeS " WHERE " ;;; writeR (renderExpr (upd_Where s))) ;;;
    when (nonEmpty (upd_Order s)) (
      writeS " ORDER BY " ;;;
      forRange (upd_Order s) (fun i o =>
        sep i ", " ;;;
        writeR (renderExpr (ob_Expr o)) ;;;
        when (ob_Desc o) (writeS " DESC"))) ;;;
    match upd_Limit s with
    | Some lim => writeS " LIMIT " ;;; writeR (renderExpr (Count lim))
    | None => ret tt
    end).

Definition renderDelete (s : DeleteStmt) : R result :=
  run (
    writeR (renderWith (del_With s)) ;;;
    writeS "DELETE FROM " ;;;
    forRange (del_From s) (fun i tr =>
      sep i ", " ;;; writeR (renderTableRef tr)) ;;;
    when (negb (isNil (del_Where s))) (
      writeS " WHERE " ;;; writeR (renderExpr (del_Where s))) ;;;
    when (nonEmpty (del_Order s)) (
      writeS " ORDER BY " ;;;
      forRange (del_Order s) (fun i o =>
        sep i ", " ;;;
        writeR (renderExpr (ob_Expr o)) ;;;
        when (ob_Desc o) (writeS " DESC"))) ;;;
    match del_Limit s with
    | Some lim => writeS " LIMIT " ;;; writeR (renderExpr (Count lim))
    | None => ret tt
    end).

Definition renderColumnDef (c : ColumnDef) : R text :=
  runT (
    writeS (renderIdent (col_Name c)) ;;;
    match col_Type c with
    | Some dt => writeS " " ;;; writeS (renderDataType dt)
    | None => ret tt
    end ;;;
    when (col_NotNull c) (writeS " NOT NULL") ;;;
    when (negb (isNil (col_Default c))) (
      writeS " DEFAULT " ;;; writeR (renderExpr (col_Default c))) ;;;
    when (col_AutoIncrement c) (
      if String.eqb target DialectPostgres
      then writeS " GENERATED BY DEFAULT AS IDENTITY"
      else writeS " AUTO_INCREMENT") ;;;
    when (col_PrimaryKey c) (writeS " PRIMARY KEY") ;;;
    when (col_Unique c) (writeS " UNIQUE") ;;;
    match col_Comment c with
    | Some lit => writeS " COMMENT " ;;; writeR (renderExpr (ELiteral lit))
    | None => ret tt
    end).

Definition renderConstraint (c : TableConstraint) : R text :=
  runT (
    match tc_Name c with
    | Some _ =>
        writeS "CONSTRAINT " ;;; writeS (renderIdent (tc_Name c)) ;;;
        writeS " "
    | None => ret tt
    end ;;;
    match tc_Type c with
    | PrimaryKeyConstraint => writeS "PRIMARY KEY"
    | UniqueConstraint => writeS "UNIQUE"
    | IndexConstraint => writeS "INDEX"
    | ForeignKeyConstraint => writeS "FOREIGN KEY"
    | CheckConstraint => writeS "CHECK"
    | _ => ret tt
    end ;;;
    when (nonEmpty (tc_Columns c)) (
      writeS " (" ;;;
      forRange (tc_Columns c) (fun i col =>
        sep i ", " ;;; writeS (renderIdent (ic_Name col))) ;;;
      writeS ")") ;;;
    match tc_RefTable c with
    | Some _ =>
        writeS " REFERENCES " ;;;
        writeS (renderQualifiedIdent (tc_RefTable c)) ;;;
        when (nonEmpty (tc_RefCols c)) (
          writeS " (" ;;; writeIdents (tc_RefCols c) ;;; writeS ")")
    | None => ret tt
    end).

(** The two loops of [renderCreateTable] that share the flag [wrote]. *)
Definition forWrote {A} (l : list A) (f : A -> W unit) (wrote : bool)
  : W bool :=
  (fix go (l : list A) (wrote : bool) {struct l} : W bool :=
     match l with
     | [] => ret wrote
     | x :: xs => when wrote (writeS ", ") ;;; f x ;;; go xs true
     end) l wrote.

Definition writeOptions (opts : list TableOption) : W unit :=
  forRange opts (fun _ opt =>
    writeS " " ;;;
    writeS (str (Key opt)) ;;;
    when (nonEmpty (opt_Value opt)) (
      writeS "=" ;;; writeS (str (opt_Value opt)))).

Definition renderCreateTable (s : CreateTableStmt) : R result :=
  run (
    writeS "CREATE TABLE " ;;;
    when (ct_IfNotExists s) (writeS "IF NOT EXISTS ") ;;;
    writeS (renderQualifiedIdent (ct_Table s)) ;;;
    match ct_Like s with
    | Some _ =>
        writeS " LIKE " ;;; writeS (renderQualifiedIdent (ct_Like s))
    | None =>
        when (nonEmpty (ct_Columns s) || nonEmpty (ct_Constraints s)) (
          writeS " (" ;;;
          wrote <- forWrote (ct_Columns s)
                     (fun col => writeR (renderColumnDef col)) false ;;
          forWrote (ct_Constraints s)
            (fun c => writeR (renderConstraint c)) wrote ;;;
          writeS ")") ;;;
        writeOptions (ct_Options s) ;;;
        match ct_Select s with
        | Some sel =>
            sel <- callE (renderSelect sel) ;;
            writeS " AS " ;;; write sel
        | None => ret tt
        end
    end).

Definition renderAlterCmd (cmd : AlterCmd) : R text :=
  match cmd with
  | AddColumnCmd col first after _ =>
      runT (
        writeS "ADD COLUMN " ;;;
        writeR (renderColumnDef col) ;;;
        when first (writeS " FIRST") ;;;
        match after with
        | Some _ => writeS " AFTER " ;;; writeS (renderIdent after)
        | None => ret tt
        end)
  | DropColumnCmd name _ => pure (T ("DROP COLUMN " ++ renderIdent name))
  | ModifyColumnCmd col first after _ =>
      runT (
        writeS "MODIFY COLUMN " ;;;
        writeR (renderColumnDef col) ;;;
        when first (writeS " FIRST") ;;;
        match after with
        | Some _ => writeS " AFTER " ;;; writeS (renderIdent after)
        | None => ret tt
        end)
  | AddConstraintCmd c _ =>
      runT (writeS "ADD " ;;; writeR (renderConstraint c))
  | DropIndexCmd name _ => pure (T ("DROP INDEX " ++ renderIdent name))
  | RenameTableCmd newName _ =>
      pure (T ("RENAME TO " ++ renderQualifiedIdent newName))
  | CmdNil => pure []
  end.

Definition renderAlterTable (s : AlterTableStmt) : R result :=
  run (
    writeS "ALTER TABLE " ;;;
    writeS (renderQualifiedIdent (at_Table s)) ;;;
    forRange (at_Cmds s) (fun i cmd =>
      (if (i =? 0)%nat then writeS " " else writeS ", ") ;;;
      writeR (renderAlterCmd cmd))).

Definition renderDropTable (s : DropTableStmt) : R result :=
  run (
    writeS "DROP TABLE " ;;;
    when (dtb_IfExists s) (writeS "IF EXISTS ") ;;;
    forRange (dtb_Tables s) (fun i t =>
      sep i ", " ;;; writeS (renderQualifiedIdent (Some t))) ;;;
    when (dtb_Cascade s) (writeS " CASCADE")).

Definition renderCreateIndex (s : CreateIndexStmt) : R result :=
  run (
    writeS "CREATE " ;;;
    match ci_Type s with
    | UniqueConstraint => writeS "UNIQUE "
    | _ => ret tt
    end ;;;
    writeS "INDEX " ;;;
    writeS (renderIdent (ci_Name s)) ;;;
    writeS " ON " ;;;
    writeS (renderQualifiedIdent (ci_Table s)) ;;;
    writeS " (" ;;;
    forRange (ci_Columns s) (fun i c =>
      sep i ", " ;;;
      writeS (renderIdent (ic_Name c)) ;;;
      match ic_Length c with
      | Some n => writeS "(" ;;; writeS (Itoa n) ;;; writeS ")"
      | None => ret tt
      end ;;;
      when (ic_Desc c) (writeS " DESC")) ;;;
    writeS ")").

Definition renderDropIndex (s : DropIndexStmt) : R result :=
  if String.eqb target DialectPostgres || String.eqb target DialectSQLite
  then
    run (
      writeS "DROP INDEX " ;;;
      when (di_IfExists s) (writeS "IF EXISTS ") ;;;
      writeS (renderIdent (di_Name s)))
  else
    run (
      writeS "DROP INDEX " ;;;
      writeS (renderIdent (di_Name s)) ;;;
      match di_Table s with
      | Some _ =>
          writeS " ON " ;;; writeS (renderQualifiedIdent (di_Table s))
      | None => ret tt
      end).

Definition renderCreateView (s : CreateViewStmt) : R result :=
  run (
    writeS "CREATE " ;;;
    when (cv_OrReplace s) (writeS "OR REPLACE ") ;;;
    writeS "VIEW " ;;;
    writeS (renderQualifiedIdent (cv_Name s)) ;;;
    when (nonEmpty (cv_Columns s)) (
      writeS " (" ;;; writeIdents (cv_Columns s) ;;; writeS ")") ;;;
    sel <- callE (renderSelect (cv_Select s)) ;;
    writeS " AS " ;;;
    write sel).

Definition renderCreateDatabase (s : CreateDatabaseStmt) : R result :=
  run (
    writeS "CREATE DATABASE " ;;;
    when (cdb_IfNotExists s) (writeS "IF NOT EXISTS ") ;;;
    writeS (renderIdent (cdb_Name s)) ;;;
    writeOptions (cdb_Options s)).

Definition renderAlterDatabase (s : AlterDatabaseStmt) : R result :=
  run (
    writeS "ALTER DATABASE " ;;;
    writeS (renderIdent (adb_Name s)) ;;;
    writeOptions (adb_Options s)).

Definition renderDropDatabase (s : DropDatabaseStmt) : R result :=
  run (
    writeS "DROP DATABASE " ;;;
    when (ddb_IfExists s) (writeS "IF EXISTS ") ;;;
    writeS (renderIdent (ddb_Name s))).

Definition renderShow (s : ShowStmt) : R result :=
  run (
    writeS "SHOW " ;;;
    writeS (str (What s)) ;;;
    match show_Like s with
    | Some lit => writeS " LIKE " ;;; writeR (renderExpr (ELiteral lit))
    | None => ret tt
    end ;;;
    when (negb (isNil (show_Where s))) (
      writeS " WHERE " ;;; writeR (renderExpr (show_Where s)))).

Definition renderCall (s : CallStmt) : R result :=
  run (
    writeS "CALL " ;;;
    writeS (renderQualifiedIdent (call_Name s)) ;;;
    writeS "(" ;;;
    forRange (call_Args s) (fun i a =>
      sep i ", " ;;; writeR (renderExpr a)) ;;;
    writeS ")").

Definition writeTxOptions (opts : list bytes) : W unit :=
  forRange opts (fun _ o => writeS " " ;;; writeS (str o)).

Definition renderTx (s : TransactionStmt) : R text :=
  let action := str (Action s) in
  if String.eqb action "begin" then pure (T "BEGIN")
  else if String.eqb action "commit" then pure (T "COMMIT")
  else if String.eqb action "rollback" then
    match Savepoint s with
    | None => pure (T "ROLLBACK")
    | Some _ =>
        pure (T ("ROLLBACK TO SAVEPOINT " ++ renderIdent (Savepoint s)))
    end
  else if String.eqb action "start_transaction" then
    runT (writeS "START TRANSACTION" ;;; writeTxOptions (tx_Options s))
  else if String.eqb action "savepoint" then
    pure (T ("SAVEPOINT " ++ renderIdent (Savepoint s)))
  else if String.eqb action "release_savepoint" then
    pure (T ("RELEASE SAVEPOINT " ++ renderIdent (Savepoint s)))
  else if String.eqb action "set_transaction" then
    runT (writeS "SET TRANSACTION" ;;; writeTxOptions (tx_Options s))
  else pure (T (ToUpper action)).

Definition renderGenericDDL (s : GenericDDLStmt) : R text :=
  runT (
    writeS (ToUpper (str (Verb s))) ;;;
    writeS " " ;;;
    writeS (ToUpper (str (Object s))) ;;;
    match ddl_Name s with
    | Some _ => writeS " " ;;; writeS (renderIdent (ddl_Name s))
    | None => ret tt
    end).

(** A function that returns [(string, nil)]. *)
Definition rendered (m : R text) : R result :=
  fun k => let '(t, k') := m k in (Rendered t, k').

Fixpoint renderStatement (stmt : Statement) : R result :=
  match stmt with
  | SSelect s => renderSelect s
  | SInsert s => renderInsert s
  | SUpdate s => renderUpdate s
  | SDelete s => renderDelete s
  | SCreateTable s => renderCreateTable s
  | SAlterTable s => renderAlterTable s
  | SDropTable s => renderDropTable s
  | SCreateIndex s => renderCreateIndex s
  | SDropIndex s => renderDropIndex s
  | SCreateView s => renderCreateView s
  | SCreateDatabase s => renderCreateDatabase s
  | SAlterDatabase s => renderAlterDatabase s
  | SDropDatabase s => renderDropDatabase s
  | STruncate s =>
      rendered
        (pure (T ("TRUNCATE TABLE " ++ renderQualifiedIdent (tr_Table s))))
  | SUse s => rendered (pure (T ("USE " ++ renderIdent (Database s))))
  | SShow s => renderShow s
  | SExplain inner _ =>
      run (
        inner <- callE (renderStatement inner) ;;
        writeS "EXPLAIN " ;;;
        write inner)
  | SCall s => renderCall s
  | STransaction s => rendered (renderTx s)
  | SGenericDDL s => rendered (renderGenericDDL s)
  | SOther typeName =>
      fun k =>
        if strict then (Failed (ErrUnsupported typeName), k)
        else (Rendered [], k)
  end.

Definition renderStatements (stmts : list Statement) : R result :=
  run (
    forRange stmts (fun i stmt =>
      sep i "; " ;;;
      s <- callE (renderStatement stmt) ;;
      write s)).

(** What [ConvertDialectWithOptions] does with the parsed statements: a
    fresh renderer, whose [paramIndex] is zero, renders them. *)
Definition ConvertStatements (stmts : list Statement) : result :=
  fst (renderStatements stmts 0%Z).

End Renderer.

End sqlparser.

(** * What the code does: theorems *)

Unset Implicit Arguments.

(** ** Facts about the lexer *)

Module LexerFacts.

Import lexer.

Lemma of_code_code (t : TokenType) : of_code (code t) = t.
Proof. destruct t; reflexivity. Qed.

Lemma code_inj (a b : TokenType) : code a = code b -> a = b.
Proof.
  intro H. rewrite <- (of_code_code a), <- (of_code_code b). now rewrite H.
Qed.

Lemma eqb_eq (a b : TokenType) : eqb a b = true <-> a = b.
Proof.
  unfold eqb. rewrite N.eqb_eq. split; [apply code_inj | now intros ->].
Qed.

Lemma eqb_refl (a : TokenType) : eqb a a = true.
Proof. now apply eqb_eq. Qed.

Lemma eqb_neq (a b : TokenType) : eqb a b = false <-> a <> b.
Proof.
  rewrite <- eqb_eq. destruct (eqb a b); split; congruence.
Qed.

(** *** The cursor only moves forward, inside the source *)

(** [l'] is [l] after some bytes were consumed. *)
Definition extends (l l' : Lexer) : Prop :=
  src l' = src l /\ pos l <= pos l' <= len l.

Lemma extends_refl l : pos l <= len l -> extends l l.
Proof. unfold extends; split; [reflexivity | lia]. Qed.

Lemma extends_len l l' : extends l l' -> len l' = len l.
Proof. intros [H _]. unfold len. now rewrite H. Qed.

Lemma extends_trans l1 l2 l3 :
  extends l1 l2 -> extends l2 l3 -> extends l1 l3.
Proof.
  intros H12 H23. pose proof (extends_len _ _ H12) as Hl.
  destruct H12 as [Hs [? ?]], H23 as [Hs' [? ?]].
  unfold extends. rewrite Hs', Hs. split; [reflexivity | lia].
Qed.

Lemma extends_adv l : pos l < len l -> extends l (adv l).
Proof. unfold extends, adv, len; simpl; split; [reflexivity | lia]. Qed.

Lemma extends_adv2 l : pos l + 1 < len l -> extends l (adv2 l).
Proof. unfold extends, adv2, len; simpl; split; [reflexivity | lia]. Qed.

Lemma extends_newline l : pos l < len l -> extends l (newline l).
Proof. unfold extends, newline, len; simpl; split; [reflexivity | lia]. Qed.

Lemma ltb_lt' a b : (a <? b) = true -> a < b.
Proof. apply Nat.ltb_lt. Qed.

Lemma scan_extends fuel p l :
  pos l <= len l -> extends l (scan fuel p l).
Proof.
  revert l. induction fuel as [|f IH]; intros l Hl; simpl.
  - now apply extends_refl.
  - destruct ((pos l <? len l) && p (cur l)) eqn:E.
    + apply andb_prop in E. destruct E as [E _]. apply ltb_lt' in E.
      pose proof (extends_adv l E) as Ha.
      eapply extends_trans; [exact Ha|]. apply IH.
      rewrite (extends_len _ _ Ha). destruct Ha as [_ ?]. lia.
    + now apply extends_refl.
Qed.

Lemma scanWhile_extends p l :
  pos l <= len l -> extends l (scanWhile p l).
Proof. apply scan_extends. Qed.

Lemma extends_le l l' : extends l l' -> pos l' <= len l'.
Proof.
  intros H. rewrite (extends_len _ _ H). destruct H as [_ ?]. lia.
Qed.

Lemma skipSpaces_extends fuel l :
  pos l <= len l -> extends l (skipSpaces fuel l).
Proof.
  revert l. induction fuel as [|f IH]; intros l Hl; simpl.
  - now apply extends_refl.
  - destruct ((pos l <? len l) && isSpace (cur l)) eqn:E;
      [|now apply extends_refl].
    apply andb_prop in E. destruct E as [E _]. apply ltb_lt' in E.
    destruct (cur l =? LF)%char; [now apply extends_refl|].
    pose proof (extends_adv l E) as Ha.
    eapply extends_trans; [exact Ha|]. apply IH. now apply (extends_le l).
Qed.

Lemma skipBlock_extends fuel l :
  pos l <= len l -> extends l (skipBlock fuel l).
Proof.
  revert l. induction fuel as [|f IH]; intros l Hl; simpl.
  - now apply extends_refl.
  - destruct (pos l + 1 <? len l) eqn:E; [|now apply extends_refl].
    apply ltb_lt' in E.
    destruct (cur l =? LF)%char.
    + assert (Ha : extends l (newline l)) by (apply extends_newline; lia).
      eapply extends_trans; [exact Ha|]. apply IH. now apply (extends_le l).
    + destruct ((cur l =? "*")%char && (nxt l =? "/")%char).
      * now apply extends_adv2.
      * assert (Ha : extends l (adv l)) by (apply extends_adv; lia).
        eapply extends_trans; [exact Ha|]. apply IH.
        now apply (extends_le l).
Qed.

Lemma DecodeRuneSize_le p : DecodeRuneSize p <= List.length p.
Proof.
  destruct p as [|b0 [|b1 [|b2 [|b3 rest]]]]; simpl;
    repeat match goal with
           | |- context [if ?c then _ else _] => destruct c
           end; simpl; lia.
Qed.

Lemma DecodeRuneSize_pos p : p <> [] -> 1 <= DecodeRuneSize p.
Proof.
  destruct p as [|b0 [|b1 [|b2 [|b3 rest]]]]; simpl; [congruence|..]; intros _;
    repeat match goal with
           | |- context [if ?c then _ else _] => destruct c
           end; simpl; lia.
Qed.

Lemma lexQuoted_loop_extends fuel delim l :
  pos l <= len l -> extends l (lexQuoted_loop fuel delim l).
Proof.
  revert l. induction fuel as [|f IH]; intros l Hl; cbn [lexQuoted_loop].
  - now apply extends_refl.
  - destruct (pos l <? len l) eqn:E; [|now apply extends_refl].
    apply ltb_lt' in E.
    pose proof (extends_adv l E) as Ha.
    pose proof (extends_le _ _ Ha) as Hla.
    destruct (cur l =? delim)%char.
    + destruct ((pos (adv l) <? len (adv l)) && (cur (adv l) =? delim)%char)
        eqn:E2; [|exact Ha].
      apply andb_prop in E2. destruct E2 as [E2 _]. apply ltb_lt' in E2.
      pose proof (extends_adv _ E2) as Hb.
      eapply extends_trans; [exact Ha|].
      eapply extends_trans; [exact Hb|]. apply IH.
      now apply (extends_le (adv l)).
    + destruct ((cur l =? "\")%char && negb (delim =? "`")%char).
      * eapply extends_trans; [exact Ha|].
        destruct (pos (adv l) <? len (adv l)) eqn:E2.
        -- apply ltb_lt' in E2. pose proof (extends_adv _ E2) as Hb.
           eapply extends_trans; [exact Hb|]. apply IH.
           now apply (extends_le (adv l)).
        -- now apply IH.
      * destruct (cur l =? LF)%char.
        -- assert (Hn : extends l (newline l))
             by (apply extends_newline; lia).
           eapply extends_trans; [exact Hn|]. apply IH.
           now apply (extends_le l).
        -- destruct (128 <=? N_of_ascii (cur l))%N.
           ++ set (sz := DecodeRuneSize (skipn (pos l) (src l))).
              assert (Hsz : 1 <= sz <= len l - pos l).
              { split.
                - apply DecodeRuneSize_pos. intro Hnil.
                  apply (f_equal (@List.length _)) in Hnil.
                  rewrite length_skipn in Hnil. simpl in Hnil.
                  unfold len in E. lia.
                - unfold sz. etransitivity; [apply DecodeRuneSize_le|].
                  rewrite length_skipn. unfold len. lia. }
              match goal with
              | |- extends l (lexQuoted_loop f delim ?x) =>
                  assert (Hx : extends l x)
                    by (unfold extends, len; simpl; split;
                        [reflexivity | unfold len in *; lia])
              end.
              eapply extends_trans; [exact Hx|]. apply IH.
              now apply (extends_le l).
           ++ eapply extends_trans; [exact Ha|]. now apply IH.
Qed.

(** *** Keyword lookup never answers [EOF] *)

Lemma lookup_bucket_in val bucket :
  lookup_bucket val bucket = IDENT \/
  In (lookup_bucket val bucket) (map tok bucket).
Proof.
  induction bucket as [|e rest IH]; simpl; [now left|].
  destruct (bytesEqualString val (word e)); [right; now left|].
  destruct IH as [IH|IH]; [now left | right; now right].
Qed.

Definition no_EOF (bucket : list kwEntry) : bool :=
  forallb (fun e => negb (eqb (tok e) EOF)) bucket.

Lemma keywordsByLen_no_EOF : forallb no_EOF keywordsByLen = true.
Proof. vm_compute. reflexivity. Qed.

Lemma lookup_table_not_EOF (tbl : list (list kwEntry)) (n : nat) val :
  forallb no_EOF tbl = true -> lookup_bucket val (nth n tbl []) <> EOF.
Proof.
  intros Htbl.
  assert (Hb : no_EOF (nth n tbl []) = true).
  { destruct (nth_in_or_default n tbl []) as [Hin|Hd].
    - rewrite forallb_forall in Htbl. apply Htbl. exact Hin.
    - rewrite Hd. reflexivity. }
  destruct (lookup_bucket_in val (nth n tbl [])) as [H|H].
  - rewrite H. discriminate.
  - apply in_map_iff in H. destruct H as [e [He Hin]].
    unfold no_EOF in Hb. rewrite forallb_forall in Hb.
    specialize (Hb e Hin). rewrite <- He. apply eqb_neq.
    destruct (eqb (tok e) EOF); [discriminate | reflexivity].
Qed.

Lemma lookupKeyword_not_EOF val : lookupKeyword val <> EOF.
Proof.
  unfold lookupKeyword.
  match goal with
  | |- (if ?c then _ else _) <> _ => destruct c
  end.
  - discriminate.
  - apply lookup_table_not_EOF. exact keywordsByLen_no_EOF.
Qed.

(** *** Every token-producing scanner consumes at least one byte *)

(** The outcome [r] of a scanner run from [l] for a token that starts at
    [start]. *)
Definition produced (l : Lexer) (start : nat) (r : Token * Lexer) : Prop :=
  extends l (snd r) /\ pos l < pos (snd r)
  /\ Pos (fst r) = int32 (Z.of_nat start) /\ Type_ (fst r) <> EOF.

Lemma extends_adv_lt l l' :
  pos l < len l -> extends (adv l) l' -> extends l l' /\ pos l < pos l'.
Proof.
  intros Hlt H. split.
  - eapply extends_trans; [now apply extends_adv | exact H].
  - destruct H as [_ [H _]]. simpl in H. lia.
Qed.

Lemma lexIdent_produced l start ln cl :
  pos l < len l -> produced l start (lexIdent l start ln cl).
Proof.
  intros Hlt. unfold lexIdent, produced.
  assert (He : extends (adv l) (scanWhile isIdentCont (adv l))).
  { apply scanWhile_extends. apply (extends_le l). now apply extends_adv. }
  destruct (extends_adv_lt _ _ Hlt He) as [H1 H2].
  destruct (64 <? _); cbn [fst snd tokenAt Pos Type_];
    repeat split; try assumption; try apply H1; try discriminate.
  apply lookupKeyword_not_EOF.
Qed.

Lemma lexQuoted_produced l start ln cl delim typ :
  pos l < len l -> typ <> EOF ->
  produced l start (lexQuoted l start ln cl delim typ).
Proof.
  intros Hlt Htyp. unfold lexQuoted, produced.
  assert (He : extends (adv l)
                 (lexQuoted_loop (len (adv l) - pos (adv l)) delim (adv l))).
  { apply lexQuoted_loop_extends. apply (extends_le l).
    now apply extends_adv. }
  destruct (extends_adv_lt _ _ Hlt He) as [H1 H2].
  simpl. repeat split; try assumption; apply H1.
Qed.

Lemma lexBitLit_produced l start ln cl :
  pos l + 1 < len l -> produced l (pos l) (lexBitLit l start ln cl).
Proof.
  intros Hlt. unfold lexBitLit.
  assert (Hlt' : pos l < len l) by lia.
  assert (Ha : extends l (adv l)) by now apply extends_adv.
  assert (Hq : produced (adv l) (pos (adv l) - 1)
                 (lexQuoted (adv l) (pos (adv l) - 1) ln cl "'"%char BITLIT)).
  { apply lexQuoted_produced; [|discriminate].
    rewrite (extends_len _ _ Ha). simpl. lia. }
  unfold produced in *. destruct Hq as [H1 [H2 [H3 H4]]].
  repeat split.
  - apply (extends_trans _ _ _ Ha H1).
  - apply (extends_trans _ _ _ Ha H1).
  - apply (extends_trans _ _ _ Ha H1).
  - assert (Hp : pos (adv l) = S (pos l)) by reflexivity. lia.
  - rewrite H3. f_equal. cbn [pos adv]. lia.
  - exact H4.
Qed.

Lemma lexHexLit_produced l start ln cl :
  pos l + 1 < len l -> produced l start (lexHexLit l start ln cl).
Proof.
  intros Hlt. unfold lexHexLit, produced.
  assert (Hlt' : pos l < len l) by lia.
  assert (Ha : extends l (adv l)) by now apply extends_adv.
  assert (Hb : extends (adv l) (adv (adv l))).
  { apply extends_adv. rewrite (extends_len _ _ Ha). simpl. lia. }
  set (l2 := adv (adv l)) in *.
  assert (Hc : extends l2 (scanWhile (fun c => negb (c =? "'")%char) l2)).
  { apply scanWhile_extends. apply (extends_le _ _ Hb). }
  set (l3 := scanWhile _ l2) in *.
  assert (Hd : extends l3 (if pos l3 <? len l3 then adv l3 else l3)).
  { destruct (pos l3 <? len l3) eqn:E.
    - apply extends_adv. now apply ltb_lt'.
    - apply extends_refl. apply (extends_le _ _ Hc). }
  assert (He : extends (adv l) (if pos l3 <? len l3 then adv l3 else l3)).
  { eapply extends_trans; [exact Hb|].
    eapply extends_trans; [exact Hc|exact Hd]. }
  destruct (extends_adv_lt _ _ Hlt' He) as [H1 H2].
  simpl. repeat split; try assumption; try apply H1. discriminate.
Qed.

Lemma lexHex0x_produced l start ln cl :
  pos l + 1 < len l -> produced l start (lexHex0x l start ln cl).
Proof.
  intros Hlt. unfold lexHex0x, produced.
  assert (Ha : extends l (adv2 l)) by now apply extends_adv2.
  assert (Hb : extends (adv2 l) (scanWhile isHexDigit (adv2 l))).
  { apply scanWhile_extends. apply (extends_le _ _ Ha). }
  pose proof (extends_trans _ _ _ Ha Hb) as Hc.
  simpl. repeat split; try apply Hc; try discriminate.
  destruct Hb as [_ [Hb _]]. simpl in Hb. lia.
Qed.

Lemma lexNumber_produced l start ln cl :
  pos l < len l -> isDigit (cur l) = true \/ (cur l = "."%char) ->
  produced l start (lexNumber l start ln cl).
Proof.
  intros Hlt Hd. unfold lexNumber.
  set (l1 := scanWhile isDigit l).
  assert (H1 : extends l l1) by (apply scanWhile_extends; lia).
  (* the first byte is consumed: a digit by the first loop, a dot by the
     fraction branch *)
  assert (Hfirst : pos l < pos l1 \/
                   (pos l1 = pos l /\ cur l1 = "."%char)).
  { unfold l1, scanWhile. destruct (len l - pos l) as [|n] eqn:En; [lia|].
    cbn [scan]. destruct Hd as [Hd|Hd].
    - rewrite Hd. assert (E: (pos l <? len l) = true) by now apply Nat.ltb_lt.
      rewrite E. simpl andb. left.
      assert (He : extends (adv l) (scan n isDigit (adv l))).
      { apply scan_extends. apply (extends_le l). now apply extends_adv. }
      destruct He as [_ [He _]]. simpl in He. lia.
    - assert (isDigit (cur l) = false) by (rewrite Hd; reflexivity).
      rewrite H. rewrite andb_false_r. right. now split. }
  pose proof (extends_le _ _ H1) as Hl1.
  destruct ((pos l1 <? len l1) && (cur l1 =? ".")%char) eqn:E1.
  - apply andb_prop in E1. destruct E1 as [E1 _]. apply ltb_lt' in E1.
    assert (Ha : extends l1 (adv l1)) by now apply extends_adv.
    set (l2 := scanWhile isDigit (adv l1)).
    assert (H2 : extends (adv l1) l2)
      by (apply scanWhile_extends; apply (extends_le _ _ Ha)).
    assert (Hgt : pos l < pos l2).
    { destruct H1 as [_ [? _]], H2 as [_ [H2 _]]. simpl in H2. lia. }
    assert (H12 : extends l l2).
    { eapply extends_trans; [exact H1|].
      eapply extends_trans; [exact Ha|exact H2]. }
    pose proof (extends_le _ _ H12) as Hl2.
    destruct ((pos l2 <? len l2) && ((cur l2 =? "e")%char || (cur l2 =? "E")%char)) eqn:E2.
    + apply andb_prop in E2. destruct E2 as [E2 _]. apply ltb_lt' in E2.
      assert (Hb : extends l2 (adv l2)) by now apply extends_adv.
      set (l3 := if (pos (adv l2) <? len (adv l2)) &&
                    ((cur (adv l2) =? "+")%char || (cur (adv l2) =? "-")%char)
                 then adv (adv l2) else adv l2).
      assert (H3 : extends (adv l2) l3).
      { unfold l3.
        match goal with
        | |- extends _ (if ?c then _ else _) => destruct c eqn:E3
        end.
        - apply andb_prop in E3. destruct E3 as [E3 _]. apply ltb_lt' in E3.
          now apply extends_adv.
        - apply extends_refl. apply (extends_le _ _ Hb). }
      assert (H4 : extends l3 (scanWhile isDigit l3))
        by (apply scanWhile_extends; apply (extends_le _ _ H3)).
      assert (Hall : extends l (scanWhile isDigit l3)).
      { eapply extends_trans; [exact H12|].
        eapply extends_trans; [exact Hb|].
        eapply extends_trans; [exact H3|exact H4]. }
      unfold produced. cbn [fst snd tokenAt Pos Type_].
      repeat split; try apply Hall; try discriminate.
      destruct Hb as [_ [Hb _]], H3 as [_ [H3 _]], H4 as [_ [H4 _]]. lia.
    + unfold produced. cbn [fst snd tokenAt Pos Type_].
      repeat split; try apply H12; try discriminate. exact Hgt.
  - assert (Hgt : pos l < pos l1).
    { destruct Hfirst as [?|[Hp Hc]]; [assumption|].
      exfalso. rewrite Hc in E1. rewrite Hp in E1.
      assert (E: (pos l <? len l1) = true).
      { apply Nat.ltb_lt. rewrite (extends_len _ _ H1). exact Hlt. }
      rewrite E in E1. discriminate. }
    destruct ((pos l1 <? len l1) && ((cur l1 =? "e")%char || (cur l1 =? "E")%char)) eqn:E2.
    + apply andb_prop in E2. destruct E2 as [E2 _]. apply ltb_lt' in E2.
      assert (Hb : extends l1 (adv l1)) by now apply extends_adv.
      set (l3 := if (pos (adv l1) <? len (adv l1)) &&
                    ((cur (adv l1) =? "+")%char || (cur (adv l1) =? "-")%char)
                 then adv (adv l1) else adv l1).
      assert (H3 : extends (adv l1) l3).
      { unfold l3.
        match goal with
        | |- extends _ (if ?c then _ else _) => destruct c eqn:E3
        end.
        - apply andb_prop in E3. destruct E3 as [E3 _]. apply ltb_lt' in E3.
          now apply extends_adv.
        - apply extends_refl. apply (extends_le _ _ Hb). }
      assert (H4 : extends l3 (scanWhile isDigit l3))
        by (apply scanWhile_extends; apply (extends_le _ _ H3)).
      assert (Hall : extends l (scanWhile isDigit l3)).
      { eapply extends_trans; [exact H1|].
        eapply extends_trans; [exact Hb|].
        eapply extends_trans; [exact H3|exact H4]. }
      unfold produced. cbn [fst snd tokenAt Pos Type_].
      repeat split; try apply Hall; try discriminate.
      destruct Hb as [_ [Hb _]], H3 as [_ [H3 _]], H4 as [_ [H4 _]]. lia.
    + unfold produced. cbn [fst snd tokenAt Pos Type_].
      repeat split; try apply H1; try discriminate. exact Hgt.
Qed.

Lemma peek_lt l c :
  (peek l =? c)%char = true -> c <> NUL -> pos l < len l.
Proof.
  unfold peek. intros H Hc. destruct (pos l <? len l) eqn:E.
  - now apply Nat.ltb_lt.
  - apply Ascii.eqb_eq in H. congruence.
Qed.

Ltac peek_guard :=
  match goal with
  | H : (peek ?x =? ?c)%char = true |- pos ?x < len ?x =>
      apply (peek_lt x c H); discriminate
  end.

Lemma produced_let l start ln cl (e : TokenType * Lexer) :
  pos l < len l -> extends (adv l) (snd e) -> fst e <> EOF ->
  produced l start (let '(typ, l2) := e in (tokenAt l2 start ln cl typ, l2)).
Proof.
  destruct e as [typ l2]. cbn [fst snd]. intros Hlt He Htyp.
  destruct (extends_adv_lt _ _ Hlt He) as [H1 H2].
  unfold produced. cbn [fst snd tokenAt Pos Type_].
  repeat split; try apply H1; assumption.
Qed.

Lemma lexPunct_produced l start ln cl :
  pos l < len l -> produced l start (lexPunct l start ln cl).
Proof.
  intros Hlt. unfold lexPunct.
  pose proof (extends_adv l Hlt) as Ha.
  pose proof (extends_le _ _ Ha) as Hla.
  apply produced_let; [assumption | |];
    set (l1 := adv l) in *;
    repeat match goal with
           | |- context [if ?c then _ else _] => destruct c eqn:?
           end;
    cbn [fst snd]; try discriminate;
    first
      [ now apply extends_refl
      | apply extends_adv; peek_guard
      | now apply scanWhile_extends
      | apply extends_trans with (adv l1);
        [ apply extends_adv; peek_guard
        | apply extends_adv; peek_guard ] ].
Qed.

(** *** One turn of the loop *)

Lemma andb_ltb a b c : (a <? b) && c = true -> a < b.
Proof. intros H. apply andb_prop in H. now apply Nat.ltb_lt. Qed.

Lemma Next_body_Continue l l' :
  pos l < len l -> Next_body l = Continue l' ->
  extends l l' /\ pos l < pos l'.
Proof.
  intros Hlt. unfold Next_body.
  pose proof (extends_adv l Hlt) as Ha.
  pose proof (extends_le _ _ Ha) as Hla.
  repeat match goal with
         | |- context [if ?c then _ else _] => destruct c eqn:?
         end; intros H; try discriminate; injection H as H; subst l'.
  - split; [now apply extends_newline | simpl; lia].
  - match goal with
    | H : _ && _ = true |- _ => apply andb_ltb in H; cbn [pos len src] in H
    end.
    unfold extends, len in *. cbn [src pos] in *.
    split; [split; [reflexivity|lia]|lia].
  - unfold extends, len in *. cbn [src pos] in *.
    split; [split; [reflexivity|lia]|lia].
  - apply extends_adv_lt; [assumption|]. now apply skipSpaces_extends.
  - match goal with
    | H : _ && _ && _ = true |- _ =>
        apply andb_prop in H; destruct H as [H _];
        apply andb_prop in H; destruct H as [_ H]; apply Nat.ltb_lt in H
    end.
    pose proof (extends_adv2 l ltac:(assumption)) as H2.
    assert (H3 : extends (adv2 l) (scanWhile notLF (adv2 l)))
      by (apply scanWhile_extends; apply (extends_le _ _ H2)).
    split; [now apply (extends_trans _ _ _ H2 H3)|].
    destruct H3 as [_ [H3 _]]. simpl in H3. lia.
  - apply extends_adv_lt; [assumption|]. now apply scanWhile_extends.
  - match goal with
    | H : _ && _ && _ = true |- _ =>
        apply andb_prop in H; destruct H as [H _];
        apply andb_prop in H; destruct H as [_ H]; apply Nat.ltb_lt in H
    end.
    pose proof (extends_adv2 l ltac:(assumption)) as H2.
    assert (H3 : extends (adv2 l)
                   (skipBlock (len (adv2 l) - pos (adv2 l)) (adv2 l)))
      by (apply skipBlock_extends; apply (extends_le _ _ H2)).
    split; [now apply (extends_trans _ _ _ H2 H3)|].
    destruct H3 as [_ [H3 _]]. simpl in H3. lia.
Qed.

Lemma Next_body_Return l r :
  pos l < len l -> Next_body l = Return r -> produced l (pos l) r.
Proof.
  intros Hlt. unfold Next_body.
  repeat match goal with
         | |- context [if ?c then _ else _] => destruct c eqn:?
         end; intros H; try discriminate; injection H as H; subst r;
    repeat match goal with
           | H : (_ <? _) && _ = true |- _ => apply andb_ltb in H
           | H : _ && (_ <? _) && _ = true |- _ =>
               apply andb_prop in H; destruct H as [H _];
               apply andb_prop in H; destruct H as [_ H];
               apply Nat.ltb_lt in H
           end;
    first
      [ now apply lexPunct_produced
      | now apply lexIdent_produced
      | now apply lexHexLit_produced
      | now apply lexBitLit_produced
      | now apply lexHex0x_produced
      | apply lexQuoted_produced; [assumption | discriminate]
      | idtac ].
  - apply lexNumber_produced; [assumption|].
    match goal with
    | H : isDigit (cur l) || _ = true |- _ =>
        apply orb_prop in H; destruct H as [H|H]; [now left|right];
        apply andb_prop in H; destruct H as [H _];
        apply andb_prop in H; destruct H as [H _];
        now apply Ascii.eqb_eq in H
    end.
Qed.

(** *** [Next] always returns *)

Lemma Next_loop_total fuel l :
  pos l <= len l -> len l - pos l < fuel ->
  exists r, Next_loop fuel l = Some r.
Proof.
  revert l. induction fuel as [|f IH]; intros l Hl Hf; [lia|].
  cbn [Next_loop]. destruct (pos l <? len l) eqn:E; [|eauto].
  apply Nat.ltb_lt in E. destruct (Next_body l) as [l1|r] eqn:Hb; [|eauto].
  destruct (Next_body_Continue l l1 E Hb) as [He Hlt].
  apply IH; [now apply (extends_le l)|].
  rewrite (extends_len _ _ He). lia.
Qed.

Lemma Next_total l : exists r, Next l = Some r.
Proof.
  unfold Next. destruct (le_gt_dec (pos l) (len l)) as [H|H].
  - apply Next_loop_total; [assumption | lia].
  - cbn [Next_loop]. assert (E : (pos l <? len l) = false)
      by (apply Nat.ltb_ge; lia).
    rewrite E. eauto.
Qed.

(** What a call returns: the end-of-input token at an exhausted input, or
    a token that starts at or after the cursor and ends before the new
    cursor. *)
Definition returned (l : Lexer) (t : Token) (l' : Lexer) : Prop :=
  (t = eofToken l' /\ len l' <= pos l') \/
  (Type_ t <> EOF /\
   exists start, pos l <= start < pos l' /\ Pos t = int32 (Z.of_nat start)).

Lemma Next_loop_spec fuel l t l' :
  pos l <= len l -> Next_loop fuel l = Some (t, l') ->
  extends l l' /\ returned l t l'.
Proof.
  revert l. induction fuel as [|f IH]; intros l Hl; [discriminate|].
  cbn [Next_loop]. destruct (pos l <? len l) eqn:E.
  - apply Nat.ltb_lt in E. destruct (Next_body l) as [l1|r] eqn:Hb.
    + destruct (Next_body_Continue l l1 E Hb) as [He Hlt]. intros H.
      destruct (IH l1 (extends_le _ _ He) H) as [He' Hr].
      split; [now apply (extends_trans _ _ _ He He')|].
      destruct Hr as [Hr|[Ht [start [Hs Hp]]]]; [now left|right].
      split; [assumption|]. exists start. split; [lia|assumption].
    + intros H. injection H as H. subst r.
      destruct (Next_body_Return l _ E Hb) as [He [Hlt [Hp Ht]]].
      cbn [fst snd] in *. split; [assumption|]. right.
      split; [assumption|]. exists (pos l). split; [lia|assumption].
  - apply Nat.ltb_ge in E. intros H. injection H as H1 H2. subst t l'.
    split; [now apply extends_refl|]. left. now split.
Qed.

Lemma Next_spec l t l' :
  pos l <= len l -> Next l = Some (t, l') ->
  extends l l' /\ returned l t l'.
Proof. apply Next_loop_spec. Qed.

Lemma Next_at_end l : len l <= pos l -> Next l = Some (eofToken l, l).
Proof.
  intros H. unfold Next.
  replace (len l - pos l) with 0 by lia. cbn [Next_loop].
  assert (E : (pos l <? len l) = false) by (apply Nat.ltb_ge; lia).
  now rewrite E.
Qed.

(** An [EOF] token only comes from the exhausted input. *)
Lemma Next_EOF_at_end l t l' :
  Next l = Some (t, l') -> Type_ t = EOF ->
  t = eofToken l' /\ len l' <= pos l'.
Proof.
  intros H Ht. destruct (le_gt_dec (pos l) (len l)) as [Hl|Hl].
  - destruct (Next_spec l t l' Hl H) as [_ [Hr|[Hne _]]];
      [assumption | contradiction].
  - rewrite Next_at_end in H by lia. injection H as H1 H2. subst t l'.
    split; [reflexivity | lia].
Qed.

(** The result of the call that follows [n] other calls. *)
Fixpoint calls (n : nat) (l : Lexer) : option (Token * Lexer) :=
  match n with
  | O => Next l
  | S n' =>
      match Next l with
      | Some (_, l') => calls n' l'
      | None => None
      end
  end.

(** *** Positions along [Tokenize] *)

(** [ts] starts at or after [lb] and every token starts after the one
    before it. *)
Fixpoint ascending (lb : Z) (ts : list Token) : Prop :=
  match ts with
  | [] => True
  | t :: ts' => (lb <= Pos t)%Z /\ ascending (Pos t + 1) ts'
  end.

Lemma ascending_weaken lb lb' ts :
  (lb' <= lb)%Z -> ascending lb ts -> ascending lb' ts.
Proof. destruct ts as [|t ts]; simpl; [trivial|]. intros ? [? ?]. split; [lia|assumption]. Qed.

Lemma ascending_successive ts :
  forall lb, ascending lb ts ->
  forall pre t1 t2 post, ts = (pre ++ t1 :: t2 :: post)%list ->
  (Pos t1 < Pos t2)%Z.
Proof.
  induction ts as [|t ts IH]; intros lb Ha pre t1 t2 post Heq.
  - destruct pre; discriminate.
  - destruct Ha as [_ Ha]. destruct pre as [|p pre]; simpl in Heq.
    + injection Heq as -> ->. destruct Ha as [Ha _]. lia.
    + injection Heq as _ Heq. exact (IH _ Ha pre t1 t2 post Heq).
Qed.

Lemma int32_small n : (Z.of_nat n < 2 ^ 31)%Z -> int32 (Z.of_nat n) = Z.of_nat n.
Proof.
  intros H. unfold int32.
  rewrite Z.mod_small; lia.
Qed.

Lemma Tokenize_loop_spec fuel l buf :
  pos l <= len l -> (Z.of_nat (len l) < 2 ^ 31)%Z -> len l - pos l < fuel ->
  exists ts, Tokenize_loop fuel l buf = Some (buf ++ ts)%list
             /\ ascending (Z.of_nat (pos l)) ts.
Proof.
  revert l buf. induction fuel as [|f IH]; intros l buf Hl Hlen Hf; [lia|].
  cbn [Tokenize_loop].
  destruct (Next_total l) as [[t l'] Hn]. rewrite Hn.
  destruct (Next_spec l t l' Hl Hn) as [He Hr].
  pose proof (extends_le _ _ He) as Hl'.
  pose proof (extends_len _ _ He) as Hlen'.
  destruct Hr as [[Ht Hend]|[Ht [start [Hs Hp]]]].
  - subst t. cbn [Type_ eofToken]. rewrite eqb_refl.
    exists [eofToken l']. split; [reflexivity|].
    simpl. split; [|trivial]. rewrite int32_small by lia.
    destruct He as [_ ?]. lia.
  - apply eqb_neq in Ht. rewrite Ht.
    destruct (IH l' (buf ++ [t])%list Hl') as [ts [Hts Ha]]; [lia|lia|].
    exists (t :: ts). split.
    + rewrite Hts. now rewrite <- app_assoc.
    + simpl. rewrite Hp, int32_small by lia. split; [lia|].
      apply ascending_weaken with (Z.of_nat (pos l')); [lia|assumption].
Qed.

(** *** Properties of the token stream *)

Definition tk (raw : string) (typ : TokenType) (p ln cl : Z) : Token :=
  {| Raw := B raw; Type_ := typ; Pos := p; Line := ln; Col := cl |}.

(** When the current byte is [0], the number case of the [switch] is
    taken: the later case for [0x] is never reached. *)
Lemma zero_takes_number_case (l : Lexer) :
  cur l = "0"%char ->
  Next_body l = Return (lexNumber l (pos l) (line l) (col l)).
Proof. intros H. unfold Next_body. rewrite H. reflexivity. Qed.

(** C1 (code defect).  The source [0xFF] is not lexed as one [HEXLIT]
    token: the lexer returns the integer token [0] followed by the
    identifier [xFF], then the end-of-input token. *)
Theorem hex0x_lexed_as_int_then_ident :
  Tokenize (B "0xFF") [] =
  Some [tk "0" INT 0 1 1; tk "xFF" IDENT 1 1 2; tk "" EOF 4 1 5].
Proof. vm_compute. reflexivity. Qed.

(** C2 (code defect).  After the unterminated block comment of the source
    [/* abc], the first token returned is not the end-of-input token: the
    last byte of the source is lexed as the identifier [c]. *)
Theorem unterminated_comment_relexes_last_byte :
  Tokenize (B "/* abc") [] = Some [tk "c" IDENT 5 1 6; tk "" EOF 6 1 7].
Proof. vm_compute. reflexivity. Qed.

(** C8, amended.  For every source shorter than 2^31 bytes (so that a
    byte offset fits the [int32] field [Pos]), [Tokenize] returns a token
    slice, and of any two successive tokens of that slice the later one
    has the strictly greater byte offset. *)
Theorem Tokenize_positions_increase (s : bytes) (buf : list Token) :
  (Z.of_nat (List.length s) < 2 ^ 31)%Z ->
  exists ts,
    Tokenize s buf = Some ts /\
    forall pre t1 t2 post,
      ts = (pre ++ t1 :: t2 :: post)%list -> (Pos t1 < Pos t2)%Z.
Proof.
  intros Hlen. unfold Tokenize.
  destruct (Tokenize_loop_spec (S (List.length s)) (New s) [])
    as [ts [Hts Ha]]; try (cbn [New pos len src]; unfold len; simpl; lia).
  exists ts. split; [exact Hts|].
  exact (ascending_successive ts _ Ha).
Qed.

Lemma Tokenize_positions_increase_witness :
  (Z.of_nat (List.length (B "SELECT a, 1 FROM t;")) < 2 ^ 31)%Z /\
  exists ts,
    Tokenize (B "SELECT a, 1 FROM t;") [] = Some ts /\
    forall pre t1 t2 post,
      ts = (pre ++ t1 :: t2 :: post)%list -> (Pos t1 < Pos t2)%Z.
Proof.
  split; [reflexivity|].
  apply (Tokenize_positions_increase (B "SELECT a, 1 FROM t;") []).
  reflexivity.
Defined.

(** C9.  Once [Next] has returned an end-of-input token, every later call
    returns that same end-of-input token and leaves the lexer as it is. *)
Theorem Next_EOF_again (l : Lexer) (t : Token) (l' : Lexer) :
  Next l = Some (t, l') -> Type_ t = EOF ->
  forall n, calls n l' = Some (t, l').
Proof.
  intros H Ht. destruct (Next_EOF_at_end l t l' H Ht) as [Heq Hend].
  assert (Hn : Next l' = Some (t, l')) by (rewrite Heq; now apply Next_at_end).
  induction n as [|n IH]; cbn [calls]; [exact Hn|].
  rewrite Hn. exact IH.
Qed.

Lemma Next_EOF_again_witness :
  Next (New (B "  ")) =
    Some (tk "" EOF 2 1 3, {| src := B "  "; pos := 2; line := 1; col := 3 |})
  /\ Type_ (tk "" EOF 2 1 3) = EOF
  /\ forall n,
       calls n {| src := B "  "; pos := 2; line := 1; col := 3 |} =
       Some (tk "" EOF 2 1 3,
             {| src := B "  "; pos := 2; line := 1; col := 3 |}).
Proof.
  split; [reflexivity|]. split; [reflexivity|].
  apply (Next_EOF_again (New (B "  "))); reflexivity.
Defined.

Local Open Scope char_scope.

(** *** The bytes of a token *)

(** The token has the bytes of the source from [start] to the cursor. *)
Definition sliced (start : nat) (r : Token * Lexer) : Prop :=
  Raw (fst r) = slice (src (snd r)) start (pos (snd r)).

Ltac sliced_cases :=
  repeat match goal with
    | |- context [if ?c then _ else _] => destruct c
    end;
  reflexivity.

Lemma lexIdent_sliced l start ln cl : sliced start (lexIdent l start ln cl).
Proof. unfold sliced, lexIdent. sliced_cases. Qed.

Lemma lexNumber_sliced l start ln cl :
  sliced start (lexNumber l start ln cl).
Proof. unfold sliced, lexNumber. sliced_cases. Qed.

Lemma lexQuoted_sliced l start ln cl delim typ :
  sliced start (lexQuoted l start ln cl delim typ).
Proof. reflexivity. Qed.

Lemma lexHexLit_sliced l start ln cl :
  sliced start (lexHexLit l start ln cl).
Proof. unfold sliced, lexHexLit. sliced_cases. Qed.

Lemma lexHex0x_sliced l start ln cl : sliced start (lexHex0x l start ln cl).
Proof. reflexivity. Qed.

Lemma lexPunct_sliced l start ln cl : sliced start (lexPunct l start ln cl).
Proof. unfold sliced, lexPunct. sliced_cases. Qed.

Lemma Next_body_Return_sliced l r :
  Next_body l = Return r -> sliced (pos l) r.
Proof.
  unfold Next_body.
  repeat match goal with
         | |- context [if ?c then _ else _] => destruct c
         end; intros H; try discriminate; injection H as <-;
    first [ apply lexIdent_sliced | apply lexNumber_sliced
          | apply lexQuoted_sliced | apply lexHexLit_sliced
          | apply lexHex0x_sliced | apply lexPunct_sliced
          | idtac ].
  all: unfold lexBitLit; cbn [adv pos];
    replace (S (pos l) - 1) with (pos l) by lia;
    apply lexQuoted_sliced.
Qed.

Lemma Next_loop_sliced fuel l t l' :
  pos l <= len l -> Next_loop fuel l = Some (t, l') -> Type_ t <> EOF ->
  exists start,
    pos l <= start < pos l' /\ Pos t = int32 (Z.of_nat start)
    /\ Raw t = slice (src l) start (pos l').
Proof.
  revert l. induction fuel as [|f IH]; intros l Hl; [discriminate|].
  cbn [Next_loop]. destruct (pos l <? len l)%nat eqn:E.
  - apply Nat.ltb_lt in E. destruct (Next_body l) as [l1|r] eqn:Hb.
    + destruct (Next_body_Continue l l1 E Hb) as [He Hlt]. intros H Ht.
      destruct (IH l1 (extends_le _ _ He) H Ht) as [start [Hs [Hp Hr]]].
      exists start. destruct He as [Hsrc _]. rewrite <- Hsrc.
      repeat split; try assumption; lia.
    + intros H Ht. injection H as H. subst r.
      destruct (Next_body_Return l _ E Hb) as [He [Hlt [Hp _]]].
      pose proof (Next_body_Return_sliced l _ Hb) as Hr.
      unfold sliced in Hr. cbn [fst snd] in *.
      exists (pos l). destruct He as [Hsrc _]. rewrite <- Hsrc.
      repeat split; try assumption; lia.
  - intros H Ht. injection H as H1 H2. subst t. now contradiction Ht.
Qed.

(** X1. What [Next] returns, on a lexer whose cursor is inside its source:
    the source is kept and the cursor moves forward without leaving it; a
    token other than [EOF] holds the bytes of the source from its
    position, at or after the old cursor, to the new cursor, at least one
    byte; [EOF] comes only with the cursor at the end, and has no bytes. *)
Theorem Next_token_is_source_slice (l l' : Lexer) (t : Token) :
  (pos l <= len l)%nat -> Next l = Some (t, l') ->
  src l' = src l /\ (pos l <= pos l' <= len l)%nat
  /\ (Type_ t = EOF -> Raw t = [] /\ pos l' = len l)
  /\ (Type_ t <> EOF ->
      exists start,
        (pos l <= start < pos l')%nat /\ Pos t = int32 (Z.of_nat start)
        /\ Raw t = slice (src l) start (pos l')).
Proof.
  intros Hl Hn. destruct (Next_spec l t l' Hl Hn) as [He Hr].
  pose proof (extends_len _ _ He) as Hlen.
  destruct He as [Hsrc Hpos]. repeat split; try assumption; try lia.
  - destruct Hr as [[-> _]|[Hne _]]; [reflexivity | contradiction].
  - destruct Hr as [[_ Hend]|[Hne _]]; [lia | contradiction].
  - intros Ht. exact (Next_loop_sliced _ l t l' Hl Hn Ht).
Qed.

Lemma Next_token_is_source_slice_witness :
  (pos (New (B "  ab cd")) <= len (New (B "  ab cd")))%nat
  /\ Next (New (B "  ab cd"))
     = Some (tk "ab" IDENT 2 1 3,
             {| src := B "  ab cd"; pos := 4; line := 1; col := 5 |})
  /\ exists start,
       (0 <= start < 4)%nat /\ Pos (tk "ab" IDENT 2 1 3)
                              = int32 (Z.of_nat start)
       /\ Raw (tk "ab" IDENT 2 1 3) = slice (B "  ab cd") start 4.
Proof.
  assert (Hl : (pos (New (B "  ab cd")) <= len (New (B "  ab cd")))%nat).
  { vm_compute. repeat constructor. }
  assert (Hn : Next (New (B "  ab cd"))
               = Some (tk "ab" IDENT 2 1 3,
                       {| src := B "  ab cd"; pos := 4; line := 1;
                          col := 5 |})) by reflexivity.
  split; [exact Hl|]. split; [exact Hn|].
  apply (Next_token_is_source_slice _ _ _ Hl Hn). discriminate.
Defined.

(** *** The slice that [Tokenize] returns *)

Lemma Tokenize_loop_shape fuel l buf :
  pos l <= len l -> len l - pos l < fuel ->
  exists ts e,
    Tokenize_loop fuel l buf = Some (buf ++ ts ++ [e])%list
    /\ Type_ e = EOF /\ Raw e = []
    /\ Forall (fun t => Type_ t <> EOF /\ Raw t <> []) ts
    /\ List.length ts <= len l - pos l.
Proof.
  revert l buf. induction fuel as [|f IH]; intros l buf Hl Hf; [lia|].
  cbn [Tokenize_loop].
  destruct (Next_total l) as [[t l'] Hn]. rewrite Hn.
  destruct (Next_token_is_source_slice l l' t Hl Hn)
    as [Hsrc [Hpos [Heof Hne]]].
  assert (Hlen : len l' = len l) by (unfold len; now rewrite Hsrc).
  destruct (eqb (Type_ t) EOF) eqn:E.
  - apply eqb_eq in E. exists [], t. destruct (Heof E) as [Hr _].
    repeat split; try assumption; [constructor | cbn; lia].
  - apply eqb_neq in E. destruct (Hne E) as [start [Hs [_ Hr]]].
    destruct (IH l' (buf ++ [t])%list) as [ts [e [Hts [He [Hre [Hall Hn']]]]]];
      [lia | lia |].
    exists (t :: ts), e. rewrite Hts, <- app_assoc. cbn [app].
    repeat split; try assumption.
    + constructor; [|assumption]. split; [assumption|].
      rewrite Hr. unfold slice. intros Hnil.
      apply (f_equal (@List.length _)) in Hnil.
      rewrite length_firstn, length_skipn in Hnil. cbn in Hnil.
      unfold len in *. lia.
    + cbn [List.length]. lia.
Qed.

(** X2. [Tokenize] always returns, whatever is in [buf]: the tokens of the
    source, none of them [EOF] or empty and no more of them than the
    source has bytes, and then one [EOF] token. *)
Theorem Tokenize_ends_with_one_EOF (s : bytes) (buf : list Token) :
  exists ts e,
    Tokenize s buf = Some (ts ++ [e])%list
    /\ Type_ e = EOF /\ Raw e = []
    /\ Forall (fun t => Type_ t <> EOF /\ Raw t <> []) ts
    /\ (List.length ts <= List.length s)%nat.
Proof.
  unfold Tokenize.
  assert (Hl : pos (New s) <= len (New s)) by (cbn; lia).
  assert (Hf : len (New s) - pos (New s) < S (List.length s)).
  { unfold len. cbn. lia. }
  destruct (Tokenize_loop_shape (S (List.length s)) (New s) [] Hl Hf)
    as [ts [e [H1 [H2 [H3 [H4 H5]]]]]].
  exists ts, e. cbn [app] in H1. unfold len in H5. cbn in H5.
  repeat split; try assumption. lia.
Qed.

(** *** The keyword table *)

Lemma bytesEqualString_loop_eq (b s : bytes) :
  bytesEqualString_loop b s = true <-> b = s.
Proof.
  revert s. induction b as [|x b IH]; intros [|y s];
    cbn [bytesEqualString_loop]; try (split; discriminate).
  - split; reflexivity.
  - destruct (Ascii.eqb x y) eqn:E.
    + apply Ascii.eqb_eq in E. subst y. rewrite IH.
      split; [now intros -> | now intros [= ->]].
    + apply Ascii.eqb_neq in E. split; [discriminate|].
      intros [= H _]. contradiction.
Qed.

Lemma bytesEqualString_eq (b s : bytes) :
  bytesEqualString b s = true <-> b = s.
Proof.
  unfold bytesEqualString.
  destruct (List.length b =? List.length s)%nat eqn:E; cbn [negb].
  - apply bytesEqualString_loop_eq.
  - apply Nat.eqb_neq in E. split; [discriminate|]. now intros ->.
Qed.

(** A bucket is searched from its start. *)
Lemma lookup_bucket_found val bucket :
  (exists e, In e bucket /\ word e = val
             /\ lookup_bucket val bucket = tok e)
  \/ (lookup_bucket val bucket = IDENT
      /\ forall e, In e bucket -> word e <> val).
Proof.
  induction bucket as [|e rest IH]; cbn [lookup_bucket].
  - right. split; [reflexivity | intros e []].
  - destruct (bytesEqualString val (word e)) eqn:E.
    + apply bytesEqualString_eq in E. left. exists e.
      repeat split; [now left | now symmetry].
    + destruct IH as [[e' [Hin [Hw Ht]]]|[Ht Hno]].
      * left. exists e'. repeat split; [now right | assumption..].
      * right. split; [assumption|]. intros e' [<-|Hin]; [|now apply Hno].
        intros Hw. rewrite <- Hw in E.
        assert (T : bytesEqualString (word e) (word e) = true)
          by now apply bytesEqualString_eq.
        congruence.
Qed.

Definition entry_eqb (e e' : kwEntry) : bool :=
  bytesEqualString (word e) (word e') && eqb (tok e) (tok e').

Lemma entry_eqb_eq e e' : entry_eqb e e' = true <-> e = e'.
Proof.
  unfold entry_eqb. rewrite andb_true_iff, bytesEqualString_eq, eqb_eq.
  destruct e, e'; cbn. split; [intros [-> ->]; reflexivity|].
  now intros [= -> ->].
Qed.

Lemma existsb_entry e l : existsb (entry_eqb e) l = true <-> In e l.
Proof.
  rewrite existsb_exists. split.
  - intros [x [Hin Hx]]. apply entry_eqb_eq in Hx. now subst x.
  - intros Hin. exists e. split; [assumption | now apply entry_eqb_eq].
Qed.

(** What [init] has made of [words]: every word is in the bucket of its
    length, which lies between 1 and 31; the buckets hold nothing else;
    and no word comes twice. *)
Definition filed (e : kwEntry) : bool :=
  let n := List.length (word e) in
  (0 <? n)%nat && (n <? 32)%nat
  && existsb (entry_eqb e) (nth n keywordsByLen []).

Definition known (e : kwEntry) : bool := existsb (entry_eqb e) words.

Fixpoint distinct (l : list kwEntry) : bool :=
  match l with
  | [] => true
  | e :: l' =>
      negb (existsb (fun e' => bytesEqualString (word e) (word e')) l')
      && distinct l'
  end.

Lemma words_filed : forallb filed words = true.
Proof. vm_compute. reflexivity. Qed.

Lemma buckets_known : forallb (forallb known) keywordsByLen = true.
Proof. vm_compute. reflexivity. Qed.

Lemma words_distinct : distinct words = true.
Proof. vm_compute. reflexivity. Qed.

Lemma buckets_length : List.length keywordsByLen = 32%nat.
Proof. vm_compute. reflexivity. Qed.

Lemma distinct_unique l e e' :
  distinct l = true -> In e l -> In e' l -> word e = word e' -> e = e'.
Proof.
  induction l as [|x l IH]; [intros _ []|].
  cbn [distinct]. rewrite andb_true_iff, negb_true_iff.
  intros [Hx Hd] [<-|He] [<-|He'] Hw; try reflexivity.
  - exfalso. apply not_true_iff_false in Hx. apply Hx.
    apply existsb_exists. exists e'. split; [assumption|].
    now apply bytesEqualString_eq.
  - exfalso. apply not_true_iff_false in Hx. apply Hx.
    apply existsb_exists. exists e. split; [assumption|].
    now apply bytesEqualString_eq.
  - now apply IH.
Qed.

Lemma bucket_in_words n e :
  In e (nth n keywordsByLen []) -> In e words.
Proof.
  intros Hin. pose proof buckets_known as H.
  rewrite forallb_forall in H.
  destruct (nth_in_or_default n keywordsByLen []) as [Hb|Hb].
  - specialize (H _ Hb). rewrite forallb_forall in H.
    apply existsb_entry. exact (H e Hin).
  - rewrite Hb in Hin. destruct Hin.
Qed.

Lemma word_filed e :
  In e words ->
  (0 < List.length (word e) < 32)%nat
  /\ In e (nth (List.length (word e)) keywordsByLen []).
Proof.
  intros Hin. pose proof words_filed as H. rewrite forallb_forall in H.
  specialize (H e Hin). unfold filed in H.
  rewrite !andb_true_iff, !Nat.ltb_lt, existsb_entry in H. tauto.
Qed.

(** X3. [lookupKeyword] is the table [words]: it returns the token of the
    entry whose word is [val], and [IDENT] when there is none. *)
Theorem lookupKeyword_is_the_table (val : bytes) (t : TokenType) :
  lookupKeyword val = t <->
  In {| word := val; tok := t |} words
  \/ (t = IDENT /\ forall e, In e words -> word e <> val).
Proof.
  unfold lookupKeyword. rewrite buckets_length.
  destruct ((List.length val =? 0)%nat || (32 <=? List.length val)%nat)
    eqn:E.
  - assert (Hno : forall e, In e words -> word e <> val).
    { intros e He Hw. destruct (word_filed e He) as [Hl _].
      rewrite Hw in Hl. apply orb_prop in E.
      destruct E as [E|E]; [apply Nat.eqb_eq in E | apply Nat.leb_le in E];
        lia. }
    split.
    + intros <-. right. split; [reflexivity | assumption].
    + intros [Hin|[-> _]]; [|reflexivity].
      exfalso. exact (Hno _ Hin eq_refl).
  - destruct (lookup_bucket_found val
                (nth (List.length val) keywordsByLen []))
      as [[e [Hin [Hw Ht]]]|[Ht Hno]]; rewrite Ht.
    + pose proof (bucket_in_words _ _ Hin) as He. split.
      * intros <-. left. destruct e as [w k]. cbn [word tok] in Hw |- *. subst w. exact He.
      * intros [Hin'|[-> Hno]].
        -- assert (Heq : e = {| word := val; tok := t |})
             by (apply (distinct_unique words);
                 [apply words_distinct | assumption..]).
           rewrite Heq. reflexivity.
        -- exfalso. exact (Hno e He Hw).
    + assert (Hno' : forall e, In e words -> word e <> val).
      { intros e He Hw. destruct (word_filed e He) as [_ Hb].
        rewrite Hw in Hb. exact (Hno e Hb Hw). }
      split.
      * intros <-. right. split; [reflexivity | assumption].
      * intros [Hin|[-> _]]; [|reflexivity].
        exfalso. exact (Hno' _ Hin eq_refl).
Qed.

(** *** Words *)

(** A byte that starts a word takes none of the earlier arms of the
    [switch] of [Next]. *)
Lemma alpha_dispatch (b : byte) :
  isAlpha b = true ->
  (b =? LF) = false /\ (b =? CR) = false /\ isSpace b = false
  /\ (b =? "-") = false /\ (b =? "#") = false /\ (b =? "/") = false
  /\ isDigit b = false /\ (b =? ".") = false /\ (b =? "'") = false
  /\ (b =? DQ) = false /\ (b =? "`") = false /\ (b =? "0") = false.
Proof.
  destruct b as [[] [] [] [] [] [] [] []]; vm_compute;
    intros H; try discriminate H; repeat split.
Qed.

Lemma Next_body_word (l : Lexer) :
  isAlpha (cur l) = true ->
  ((cur l =? "x") || (cur l =? "X") || (cur l =? "b") || (cur l =? "B")
   = true -> (pos l + 1 <? len l)%nat && (nxt l =? "'") = false) ->
  Next_body l = Return (lexIdent l (pos l) (line l) (col l)).
Proof.
  intros Ha Hq. unfold Next_body.
  destruct (alpha_dispatch _ Ha)
    as (E1 & E2 & E3 & E4 & E5 & E6 & E7 & E8 & E9 & E10 & E11 & E12).
  cbv zeta.
  rewrite E1, E2, E3, E4, E5, E6, E7, E8, E9, E10, E11, E12, Ha.
  cbn [andb orb].
  destruct ((cur l =? "x") || (cur l =? "X")) eqn:Ex.
  - rewrite Hq; reflexivity.
  - cbn [orb] in Hq.
    destruct ((cur l =? "b") || (cur l =? "B")) eqn:Eb; [|reflexivity].
    rewrite Hq; reflexivity.
Qed.

Lemma uint32_add (a b : Z) : uint32 (uint32 a + b) = uint32 (a + b).
Proof. unfold uint32. apply Zplus_mod_idemp_l. Qed.

(** [scanWhile] runs over a stretch of bytes that all satisfy [p], and
    stops at the byte after if that one does not. *)
Lemma scan_run (p : byte -> bool) (w : bytes) :
  forall fuel l pre rest,
    src l = (pre ++ w ++ rest)%list -> pos l = List.length pre ->
    forallb p w = true ->
    (rest <> [] -> p (hd zero rest) = false) ->
    (List.length w + List.length rest <= fuel)%nat ->
    scan fuel p l
    = {| src := src l; pos := (List.length pre + List.length w)%nat;
         line := line l;
         col := match w with
                | [] => col l
                | _ => uint32 (col l + Z.of_nat (List.length w))
                end |}.
Proof.
  induction w as [|c w IH]; intros fuel l pre rest Hs Hp Hw Hr Hf.
  - cbn [List.length app] in *. rewrite Nat.add_0_r, <- Hp.
    destruct fuel as [|f]; cbn [scan].
    + destruct l; reflexivity.
    + destruct rest as [|c r].
      * assert (E : (pos l <? len l)%nat = false).
        { apply Nat.ltb_ge. unfold len. rewrite Hs, Hp. cbn.
          rewrite app_nil_r. lia. }
        rewrite E. destruct l; reflexivity.
      * assert (E : p (cur l) = false).
        { unfold cur, index. rewrite Hs, Hp, nth_middle.
          apply Hr. discriminate. }
        rewrite E, andb_false_r. destruct l; reflexivity.
  - cbn [forallb] in Hw. apply andb_prop in Hw. destruct Hw as [Hc Hw].
    destruct fuel as [|f]; [cbn in Hf; lia|]. cbn [scan].
    assert (E1 : (pos l <? len l)%nat = true).
    { apply Nat.ltb_lt. unfold len. rewrite Hs, Hp, !length_app. cbn. lia. }
    assert (E2 : p (cur l) = true).
    { unfold cur, index. rewrite Hs, Hp. cbn [app]. now rewrite nth_middle. }
    rewrite E1, E2. cbn [andb].
    rewrite (IH f (adv l) (pre ++ [c])%list rest).
    + cbn [adv src pos line col List.length]. f_equal.
      * rewrite length_app. cbn. lia.
      * destruct w; [f_equal; cbn; lia|].
        rewrite uint32_add. f_equal. cbn [List.length]. lia.
    + cbn [adv src]. rewrite Hs, <- app_assoc. reflexivity.
    + cbn [adv pos]. rewrite Hp, length_app. cbn. lia.
    + exact Hw.
    + exact Hr.
    + cbn [List.length] in Hf. lia.
Qed.

Lemma slice_middle (pre w rest : bytes) :
  slice (pre ++ w ++ rest) (List.length pre)
        (List.length pre + List.length w) = w.
Proof.
  unfold slice. rewrite skipn_app, skipn_all, Nat.sub_diag. cbn [app skipn].
  replace (List.length pre + List.length w - List.length pre)%nat
    with (List.length w + 0)%nat by lia.
  rewrite firstn_app_2. cbn. apply app_nil_r.
Qed.

(** X4. A word is one token.  Where the source holds the bytes [w] at the
    lexer's position, [w] starts with a letter or an underscore and goes
    on with letters, digits, underscores and dollar signs, and the byte
    after [w] is none of those, [Next] returns [w] as one token and stops
    behind it.  The token is what the keyword table gives for [w] in
    lower case, and [IDENT] for a word of more than 64 bytes.  The one
    exception is a single [x], [X], [b] or [B] before a quote, which
    starts a hexadecimal or bit literal. *)
Theorem Next_word (l : Lexer) (pre w rest : bytes) :
  src l = (pre ++ w ++ rest)%list ->
  pos l = List.length pre ->
  isAlpha (hd zero w) = true ->
  forallb isIdentCont w = true ->
  isIdentCont (hd zero rest) = false ->
  (In w [B "x"; B "X"; B "b"; B "B"] -> hd zero rest <> "'") ->
  Next l
  = Some ({| Raw := w;
             Type_ := if (64 <? List.length w)%nat then IDENT
                      else lookupKeyword (map lower w);
             Pos := int32 (Z.of_nat (List.length pre));
             Line := line l; Col := col l |},
          {| src := src l;
             pos := (List.length pre + List.length w)%nat;
             line := line l;
             col := uint32 (col l + Z.of_nat (List.length w)) |}).
Proof.
  intros Hs Hp Ha Hw Hr Hq.
  destruct w as [|c w]; [discriminate Ha|]. cbn [hd] in Ha.
  cbn [forallb] in Hw. apply andb_prop in Hw. destruct Hw as [_ Hw].
  assert (Hc : cur l = c).
  { unfold cur, index. rewrite Hs, Hp. cbn [app]. apply nth_middle. }
  assert (Hlen : len l
                 = (List.length pre + S (List.length w + List.length rest))%nat).
  { unfold len. rewrite Hs, !length_app. cbn [List.length]. lia. }
  unfold Next. cbn [Next_loop].
  assert (E : (pos l <? len l)%nat = true)
    by (apply Nat.ltb_lt; lia).
  rewrite E, Next_body_word.
  - unfold lexIdent, scanWhile. cbv zeta.
    rewrite (scan_run isIdentCont w _ (adv l) (pre ++ [c])%list rest).
    + cbn [adv src pos line col].
      assert (Hn : (List.length (pre ++ [c]) + List.length w
                    = List.length pre + List.length (c :: w))%nat)
        by (rewrite length_app; cbn; lia).
      rewrite Hn, Hp.
      assert (Hcol : match w with
                     | [] => uint32 (col l + 1)
                     | _ :: _ =>
                         uint32 (uint32 (col l + 1) + Z.of_nat (List.length w))
                     end
                     = uint32 (col l + Z.of_nat (List.length (c :: w)))).
      { destruct w; [f_equal; cbn; lia|].
        rewrite uint32_add. f_equal. cbn [List.length]. lia. }
      rewrite Hcol. unfold tokenAt. cbn [src pos].
      assert (Hsl : slice (src l) (List.length pre)
                      (List.length pre + List.length (c :: w)) = c :: w)
        by (rewrite Hs; apply slice_middle).
      rewrite !Hsl.
      destruct (64 <? List.length (c :: w))%nat; reflexivity.
    + cbn [adv src]. rewrite Hs, <- app_assoc. reflexivity.
    + cbn [adv pos]. rewrite Hp, length_app. cbn. lia.
    + exact Hw.
    + intros _. exact Hr.
    + unfold len in *. cbn [adv src pos]. rewrite Hlen, Hp. lia.
  - rewrite Hc. exact Ha.
  - rewrite Hc. intros Hx.
    destruct w as [|d w].
    + destruct rest as [|r rest].
      * apply andb_false_intro1. apply Nat.ltb_ge. rewrite Hlen, Hp.
        cbn [List.length]. lia.
      * apply andb_false_intro2. unfold nxt, index.
        rewrite Hs, Hp. cbn [app].
        replace (S (List.length pre)) with (List.length (pre ++ [c]))
          by (rewrite length_app; cbn; lia).
        change (pre ++ c :: r :: rest)%list
          with (pre ++ [c] ++ r :: rest)%list.
        rewrite app_assoc, nth_middle.
        apply Ascii.eqb_neq. apply Hq.
        apply orb_prop in Hx. destruct Hx as [Hx|Hx];
          [apply orb_prop in Hx; destruct Hx as [Hx|Hx];
           [apply orb_prop in Hx; destruct Hx as [Hx|Hx]|]|];
          apply Ascii.eqb_eq in Hx; rewrite Hx; cbn; auto 6.
    + apply andb_false_intro2. unfold nxt, index.
      rewrite Hs, Hp. cbn [app].
      replace (S (List.length pre)) with (List.length (pre ++ [c]))
        by (rewrite length_app; cbn; lia).
      change (pre ++ c :: d :: (w ++ rest))%list
        with (pre ++ [c] ++ d :: (w ++ rest))%list.
      rewrite app_assoc, nth_middle.
      cbn [forallb] in Hw. apply andb_prop in Hw. destruct Hw as [Hd _].
      destruct (Ascii.eqb_spec d "'") as [->|]; [discriminate Hd|reflexivity].
Qed.

Lemma Next_word_witness :
  Next {| src := B "SeLeCt x"; pos := 0; line := 1; col := 1 |}
  = Some (tk "SeLeCt" SELECT 0 1 1,
          {| src := B "SeLeCt x"; pos := 6; line := 1; col := 7 |}).
Proof.
  exact (Next_word {| src := B "SeLeCt x"; pos := 0; line := 1; col := 1 |}
           [] (B "SeLeCt") (B " x")
           eq_refl eq_refl eq_refl eq_refl eq_refl
           (fun H => match H with
                     | or_introl e => ltac:(discriminate e)
                     | or_intror (or_introl e) => ltac:(discriminate e)
                     | or_intror (or_intror (or_introl e)) =>
                         ltac:(discriminate e)
                     | or_intror (or_intror (or_intror (or_introl e))) =>
                         ltac:(discriminate e)
                     | or_intror (or_intror (or_intror (or_intror f))) =>
                         match f with end
                     end)).
Defined.

(** *** Quoted strings *)

(** The bytes that the loop of [lexQuoted] steps over one at a time
    without a turn of line: all but the delimiter, the backslash (outside
    back quotes), the line feed and the bytes of a multi-byte rune. *)
Definition plain (q c : byte) : bool :=
  negb (c =? q) && negb ((c =? "\") && negb (q =? "`"))
  && negb (c =? LF) && negb (128 <=? N_of_ascii c)%N.

(** The token type that [Next] gives to a string in the quotes [q]. *)
Definition quoted (q : byte) : TokenType :=
  if q =? "'" then STRING else if q =? DQ then DQUOTE else BACKTICK.

Lemma uint32_idem (z : Z) : uint32 (uint32 z) = uint32 z.
Proof. unfold uint32. apply Z.mod_mod. discriminate. Qed.

Lemma lexQuoted_loop_run (q : byte) (body : bytes) :
  forall fuel l pre rest,
    src l = (pre ++ body ++ rest)%list -> pos l = List.length pre ->
    forallb (plain q) body = true ->
    uint32 (col l) = col l ->
    lexQuoted_loop (List.length body + fuel) q l
    = lexQuoted_loop fuel q
        {| src := src l; pos := (List.length pre + List.length body)%nat;
           line := line l;
           col := uint32 (col l + Z.of_nat (List.length body)) |}.
Proof.
  induction body as [|c body IH]; intros fuel l pre rest Hs Hp Hb Hcol.
  - cbn [List.length Nat.add Z.of_nat]. rewrite Z.add_0_r, Hcol, Nat.add_0_r.
    rewrite <- Hp. destruct l; reflexivity.
  - cbn [forallb] in Hb. apply andb_prop in Hb. destruct Hb as [Hc Hb].
    unfold plain in Hc. rewrite !andb_true_iff, !negb_true_iff in Hc.
    destruct Hc as [[[Hc1 Hc2] Hc3] Hc4].
    cbn [List.length Nat.add lexQuoted_loop].
    assert (E1 : (pos l <? len l)%nat = true).
    { apply Nat.ltb_lt. unfold len. rewrite Hs, Hp, !length_app.
      cbn [List.length]. lia. }
    assert (E2 : cur l = c).
    { unfold cur, index. rewrite Hs, Hp. cbn [app]. apply nth_middle. }
    rewrite E1. cbv zeta. rewrite E2, Hc1, Hc2, Hc3, Hc4.
    rewrite (IH fuel (adv l) (pre ++ [c])%list rest).
    + cbn [adv src pos line col]. rewrite uint32_add. f_equal. f_equal.
      * rewrite length_app. cbn [List.length]. lia.
      * f_equal. lia.
    + cbn [adv src]. rewrite Hs, <- app_assoc. reflexivity.
    + cbn [adv pos]. rewrite Hp, length_app. cbn [List.length]. lia.
    + exact Hb.
    + cbn [adv col]. apply uint32_idem.
Qed.

Lemma quote_dispatch (q : byte) :
  In q ["'"; DQ; "`"] ->
  (q =? LF) = false /\ (q =? CR) = false /\ isSpace q = false
  /\ (q =? "-") = false /\ (q =? "#") = false /\ (q =? "/") = false
  /\ isDigit q = false /\ (q =? ".") = false.
Proof.
  intros [<-|[<-|[<-|[]]]]; vm_compute; repeat split.
Qed.

Lemma Next_body_quoted (l : Lexer) :
  In (cur l) ["'"; DQ; "`"] ->
  Next_body l
  = Return (lexQuoted l (pos l) (line l) (col l) (cur l) (quoted (cur l))).
Proof.
  intros Hq. unfold Next_body. cbv zeta.
  destruct (quote_dispatch _ Hq)
    as (E1 & E2 & E3 & E4 & E5 & E6 & E7 & E8).
  rewrite E1, E2, E3, E4, E5, E6, E7, E8. cbn [andb orb].
  unfold quoted.
  destruct Hq as [<-|[<-|[<-|[]]]]; reflexivity.
Qed.

(** X5. A quoted string is one token, closed or not.  Where the source
    holds at the lexer's position a quote [q] (single, double or back
    quote) and then bytes with no quote [q], no backslash (this one only
    outside back quotes), no line feed and no byte of a multi-byte rune,
    [Next] returns one token of the type of the quote.  When the closing
    quote follows, not doubled, the token ends with it; when the source
    ends before a closing quote, the token is the rest of the source, and
    it is not marked as an error. *)
Theorem Next_quoted (l : Lexer) (q : byte) (pre body rest : bytes) :
  In q ["'"; DQ; "`"] ->
  src l = (pre ++ q :: body ++ rest)%list ->
  pos l = List.length pre ->
  forallb (plain q) body = true ->
  rest = [] \/ (hd zero rest = q /\ hd zero (tl rest) <> q) ->
  let n := (1 + List.length body + List.length (firstn 1 rest))%nat in
  Next l
  = Some ({| Raw := q :: body ++ firstn 1 rest;
             Type_ := quoted q;
             Pos := int32 (Z.of_nat (List.length pre));
             Line := line l; Col := col l |},
          {| src := src l;
             pos := (List.length pre + n)%nat;
             line := line l;
             col := uint32 (col l + Z.of_nat n) |}).
Proof.
  intros Hq Hs Hp Hb Hr n.
  assert (Hc : cur l = q).
  { unfold cur, index. rewrite Hs, Hp. apply nth_middle. }
  assert (Hlen : len l
                 = (List.length pre
                    + S (List.length body + List.length rest))%nat).
  { unfold len. rewrite Hs, !length_app. cbn [List.length].
    rewrite length_app. lia. }
  unfold Next. cbn [Next_loop].
  assert (E : (pos l <? len l)%nat = true)
    by (apply Nat.ltb_lt; lia).
  rewrite E, Next_body_quoted by (rewrite Hc; exact Hq).
  rewrite Hc. unfold lexQuoted. cbv zeta.
  assert (Hfuel : (len (adv l) - pos (adv l)
                   = List.length body + List.length rest)%nat).
  { unfold len in *. cbn [adv src pos]. rewrite Hlen, Hp. lia. }
  rewrite Hfuel.
  rewrite (lexQuoted_loop_run q body _ (adv l) (pre ++ [q])%list rest).
  2: { cbn [adv src]. rewrite Hs, <- app_assoc. reflexivity. }
  2: { cbn [adv pos]. rewrite Hp, length_app. cbn [List.length]. lia. }
  2: exact Hb.
  2: { cbn [adv col]. apply uint32_idem. }
  cbn [adv src pos line col]. rewrite uint32_add.
  assert (Hn : (List.length (pre ++ [q]) + List.length body
                = List.length pre + S (List.length body))%nat)
    by (rewrite length_app; cbn [List.length]; lia).
  rewrite Hn.
  assert (Hz : (col l + 1 + Z.of_nat (List.length body)
                = col l + Z.of_nat (S (List.length body)))%Z) by lia.
  rewrite Hz.
  destruct Hr as [->|[Hr1 Hr2]].
  - (* the source ends inside the string *)
    subst n. cbn [List.length firstn lexQuoted_loop]. rewrite app_nil_r.
    unfold tokenAt. cbn [src pos]. rewrite Hp.
    rewrite Nat.add_0_r.
    replace (1 + List.length body)%nat with (S (List.length body)) by lia.
    f_equal. f_equal. f_equal.
    rewrite Hs.
    change (pre ++ q :: body ++ [])%list
      with (pre ++ (q :: body) ++ [])%list.
    apply (slice_middle pre (q :: body) []).
  - (* the closing quote *)
    destruct rest as [|r rest]; [cbn in Hr1; subst q;
      exfalso; destruct Hq as [H|[H|[H|[]]]]; discriminate H|].
    cbn [hd tl] in Hr1, Hr2. subst r.
    subst n. cbn [List.length firstn lexQuoted_loop].
    set (l1 := {| src := src l;
                  pos := (List.length pre + S (List.length body))%nat;
                  line := line l;
                  col := uint32 (col l + Z.of_nat (S (List.length body))) |}).
    assert (Hl1 : len l1 = len l) by reflexivity.
    assert (E1 : (pos l1 <? len l1)%nat = true).
    { apply Nat.ltb_lt. rewrite Hl1, Hlen. cbn [l1 pos List.length]. lia. }
    assert (E2 : cur l1 = q).
    { unfold cur, index. cbn [l1 src pos]. rewrite Hs.
      replace (List.length pre + S (List.length body))%nat
        with (List.length (pre ++ q :: body))
        by (rewrite length_app; cbn [List.length]; lia).
      change (pre ++ q :: body ++ q :: rest)%list
        with (pre ++ (q :: body) ++ q :: rest)%list.
      rewrite app_assoc. apply nth_middle. }
    rewrite E1. cbv zeta. rewrite E2, Ascii.eqb_refl.
    assert (E3 : (pos (adv l1) <? len (adv l1))%nat && (cur (adv l1) =? q)
                 = false).
    { destruct rest as [|r rest].
      - apply andb_false_intro1. apply Nat.ltb_ge.
        unfold len in *. cbn [adv l1 src pos]. rewrite Hlen.
        cbn [List.length]. lia.
      - apply andb_false_intro2. cbn [hd] in Hr2.
        unfold cur, index. cbn [adv l1 src pos]. rewrite Hs.
        replace (S (List.length pre + S (List.length body)))
          with (List.length (pre ++ q :: body ++ [q]))
          by (rewrite length_app; cbn [List.length]; rewrite length_app;
              cbn [List.length]; lia).
        assert (Hsp : (pre ++ q :: body ++ q :: r :: rest
                       = (pre ++ q :: body ++ [q]) ++ r :: rest)%list).
        { rewrite <- app_assoc. cbn [app]. rewrite <- app_assoc.
          reflexivity. }
        unfold byte, bytes in *.
        rewrite Hsp, nth_middle. now apply Ascii.eqb_neq. }
    rewrite E3.
    unfold tokenAt. subst l1. unfold adv. cbn [src pos line col].
    rewrite Hp, uint32_add.
    replace (List.length pre + (1 + List.length body + 1))%nat
      with (S (List.length pre + S (List.length body))) by lia.
    replace (col l + Z.of_nat (S (List.length body)) + 1)%Z
      with (col l + Z.of_nat (1 + List.length body + 1))%Z by lia.
    f_equal. f_equal. f_equal.
    assert (Hsp : (pre ++ q :: body ++ q :: rest
                   = pre ++ (q :: body ++ [q]) ++ rest)%list)
      by (cbn [app]; rewrite <- app_assoc; reflexivity).
    unfold byte, bytes in *. rewrite Hs, Hsp.
    replace (S (List.length pre + S (List.length body)))
      with (List.length pre + List.length (q :: body ++ [q]))%nat
      by (cbn [List.length]; rewrite length_app; cbn [List.length]; lia).
    apply slice_middle.
Qed.

Lemma Next_quoted_witness :
  Next {| src := B "'ab"; pos := 0; line := 1; col := 1 |}
  = Some (tk "'ab" STRING 0 1 1,
          {| src := B "'ab"; pos := 3; line := 1; col := 4 |}).
Proof.
  exact (Next_quoted {| src := B "'ab"; pos := 0; line := 1; col := 1 |}
           "'" [] (B "ab") [] (or_introl eq_refl) eq_refl eq_refl eq_refl
           (or_introl eq_refl)).
Defined.

(** *** Integers *)

Lemma digit_dispatch (b : byte) :
  isDigit b = true ->
  (b =? LF) = false /\ (b =? CR) = false /\ isSpace b = false
  /\ (b =? "-") = false /\ (b =? "#") = false /\ (b =? "/") = false.
Proof.
  destruct b as [[] [] [] [] [] [] [] []]; vm_compute;
    intros H; try discriminate H; repeat split.
Qed.

Lemma Next_body_digit (l : Lexer) :
  isDigit (cur l) = true ->
  Next_body l = Return (lexNumber l (pos l) (line l) (col l)).
Proof.
  intros Hd. unfold Next_body. cbv zeta.
  destruct (digit_dispatch _ Hd) as (E1 & E2 & E3 & E4 & E5 & E6).
  rewrite E1, E2, E3, E4, E5, E6, Hd. reflexivity.
Qed.

(** X6. A run of digits is one [INT] token.  Where the source holds the
    digits [w] at the lexer's position and the byte after is no digit, no
    point and no [e] or [E], [Next] returns [w] as an [INT] and stops
    behind it. *)
Theorem Next_integer (l : Lexer) (pre w rest : bytes) :
  src l = (pre ++ w ++ rest)%list ->
  pos l = List.length pre ->
  w <> [] ->
  forallb isDigit w = true ->
  isDigit (hd zero rest) = false ->
  ~ In (hd zero rest) ["."; "e"; "E"] ->
  Next l
  = Some ({| Raw := w; Type_ := INT;
             Pos := int32 (Z.of_nat (List.length pre));
             Line := line l; Col := col l |},
          {| src := src l;
             pos := (List.length pre + List.length w)%nat;
             line := line l;
             col := uint32 (col l + Z.of_nat (List.length w)) |}).
Proof.
  intros Hs Hp Hne Hw Hr Hq.
  destruct w as [|c w]; [contradiction|].
  assert (Hcd : isDigit c = true)
    by (cbn [forallb] in Hw; apply andb_prop in Hw; tauto).
  assert (Hc : cur l = c).
  { unfold cur, index. rewrite Hs, Hp. cbn [app]. apply nth_middle. }
  assert (Hlen : len l
                 = (List.length pre + S (List.length w + List.length rest))%nat).
  { unfold len. rewrite Hs, !length_app. cbn [List.length]. lia. }
  unfold Next. cbn [Next_loop].
  assert (E : (pos l <? len l)%nat = true)
    by (apply Nat.ltb_lt; lia).
  rewrite E, Next_body_digit by (rewrite Hc; exact Hcd).
  unfold lexNumber, scanWhile. cbv zeta.
  rewrite (scan_run isDigit (c :: w) _ l pre rest Hs Hp Hw (fun _ => Hr)).
  2: { rewrite Hlen, Hp. cbn [List.length]. lia. }
  set (l1 := {| src := src l;
                pos := (List.length pre + List.length (c :: w))%nat;
                line := line l;
                col := uint32 (col l + Z.of_nat (List.length (c :: w))) |}).
  assert (Hnext : (pos l1 <? len l1)%nat = true -> cur l1 = hd zero rest).
  { intros H. apply Nat.ltb_lt in H. unfold cur, index, len, l1 in H |- *.
    cbn [src pos] in H |- *.
    unfold byte, bytes in *. rewrite Hs in H |- *.
    rewrite app_assoc, <- length_app.
    destruct rest as [|r rest].
    - rewrite !length_app in H. cbn [List.length] in H. lia.
    - apply nth_middle. }
  assert (E1 : (pos l1 <? len l1)%nat && (cur l1 =? ".") = false).
  { destruct (pos l1 <? len l1)%nat eqn:E1; [|reflexivity].
    rewrite (Hnext eq_refl). cbn [andb]. apply Ascii.eqb_neq.
    intros H. apply Hq. rewrite H. now left. }
  assert (E2 : (pos l1 <? len l1)%nat
               && ((cur l1 =? "e") || (cur l1 =? "E")) = false).
  { destruct (pos l1 <? len l1)%nat eqn:E2; [|reflexivity].
    rewrite (Hnext eq_refl). cbn [andb]. apply orb_false_intro;
      apply Ascii.eqb_neq; intros H; apply Hq; rewrite H; cbn; tauto. }
  rewrite E1, E2. unfold tokenAt. subst l1. cbn [src pos]. rewrite Hp.
  f_equal. f_equal. f_equal. rewrite Hs. apply slice_middle.
Qed.

Lemma Next_integer_witness :
  Next {| src := B "a 42)"; pos := 2; line := 1; col := 3 |}
  = Some (tk "42" INT 2 1 3,
          {| src := B "a 42)"; pos := 4; line := 1; col := 5 |}).
Proof.
  exact (Next_integer {| src := B "a 42)"; pos := 2; line := 1; col := 3 |}
           (B "a ") (B "42") (B ")") eq_refl eq_refl
           ltac:(discriminate) eq_refl eq_refl
           (fun H => match H with
                     | or_introl e => ltac:(discriminate e)
                     | or_intror (or_introl e) => ltac:(discriminate e)
                     | or_intror (or_intror (or_introl e)) =>
                         ltac:(discriminate e)
                     | or_intror (or_intror (or_intror f)) =>
                         match f with end
                     end)).
Defined.

(** *** Comments *)

(** More turns than needed change nothing. *)
Lemma Next_loop_more (f f' : nat) (l : Lexer) (r : Token * Lexer) :
  Next_loop f l = Some r -> (f <= f')%nat -> Next_loop f' l = Some r.
Proof.
  revert f' l. induction f as [|f IH]; intros f' l H Hf; [discriminate H|].
  destruct f' as [|f']; [lia|]. cbn [Next_loop] in H |- *.
  destruct (pos l <? len l)%nat; [|exact H].
  destruct (Next_body l) as [l1|r1]; [|exact H].
  apply IH; [exact H | lia].
Qed.

(** X7. A comment from [--] to the end of the line gives no token: where
    the source holds at the lexer's position [--] and then bytes other
    than the line feed, up to a line feed or to the end of the source,
    [Next] returns what it returns from behind those bytes. *)
Theorem Next_skips_line_comment (l : Lexer) (pre c rest : bytes) :
  src l = (pre ++ "-" :: "-" :: c ++ rest)%list ->
  pos l = List.length pre ->
  forallb notLF c = true ->
  rest = [] \/ hd zero rest = LF ->
  Next l
  = Next {| src := src l;
            pos := (List.length pre + (2 + List.length c))%nat;
            line := line l;
            col := uint32 (col l + Z.of_nat (2 + List.length c)) |}.
Proof.
  intros Hs Hp Hc Hr.
  assert (Hlen : len l
                 = (List.length pre
                    + (2 + (List.length c + List.length rest)))%nat).
  { unfold len. rewrite Hs, !length_app. cbn [List.length].
    rewrite length_app. lia. }
  assert (E : (pos l <? len l)%nat = true) by (apply Nat.ltb_lt; lia).
  assert (E1 : cur l = "-").
  { unfold cur, index. rewrite Hs, Hp. apply nth_middle. }
  assert (E2 : (pos l + 1 <? len l)%nat = true) by (apply Nat.ltb_lt; lia).
  assert (E3 : nxt l = "-").
  { unfold nxt, index. rewrite Hs, Hp.
    assert (Hsp : (pre ++ "-" :: "-" :: c ++ rest
                   = (pre ++ ["-"]) ++ "-" :: c ++ rest)%list)
      by (rewrite <- app_assoc; reflexivity).
    unfold byte, bytes in *. rewrite Hsp.
    replace (S (List.length pre)) with (List.length (pre ++ ["-"]))
      by (rewrite length_app; cbn [List.length]; lia).
    apply nth_middle. }
  assert (Hb : Next_body l = Continue (scanWhile notLF (adv2 l))).
  { unfold Next_body. cbv zeta. rewrite E1, E2, E3. reflexivity. }
  assert (Hrun : scanWhile notLF (adv2 l)
                 = {| src := src l;
                      pos := (List.length pre + (2 + List.length c))%nat;
                      line := line l;
                      col := uint32 (col l + Z.of_nat (2 + List.length c)) |}).
  { unfold scanWhile.
    rewrite (scan_run notLF c _ (adv2 l) (pre ++ ["-"; "-"])%list rest).
    - cbn [adv2 src pos line col]. f_equal.
      + rewrite length_app. cbn [List.length]. lia.
      + destruct c as [|x c]; [reflexivity|].
        rewrite uint32_add. f_equal. lia.
    - cbn [adv2 src]. rewrite Hs, <- app_assoc. reflexivity.
    - cbn [adv2 pos]. rewrite Hp, length_app. cbn [List.length]. lia.
    - exact Hc.
    - intros Hne. destruct Hr as [Hr|Hr]; [contradiction|].
      rewrite Hr. reflexivity.
    - unfold len in *. cbn [adv2 src pos]. rewrite Hlen, Hp. lia. }
  set (l1 := {| src := src l;
                pos := (List.length pre + (2 + List.length c))%nat;
                line := line l;
                col := uint32 (col l + Z.of_nat (2 + List.length c)) |})
    in *.
  destruct (Next_total l1) as [r Hn]. rewrite Hn.
  unfold Next. cbn [Next_loop]. rewrite E, Hb, Hrun.
  apply (Next_loop_more _ _ _ _ Hn).
  assert (Hl1 : len l1 = len l) by reflexivity.
  rewrite Hl1, Hlen, Hp. cbn [l1 pos]. lia.
Qed.

Lemma Next_skips_line_comment_witness :
  Next {| src := (B "1 -- one" ++ LF :: B "2")%list;
          pos := 2; line := 1; col := 3 |}
  = Next {| src := (B "1 -- one" ++ LF :: B "2")%list;
            pos := 8; line := 1; col := 9 |}.
Proof.
  exact (Next_skips_line_comment
           {| src := (B "1 -- one" ++ LF :: B "2")%list;
              pos := 2; line := 1; col := 3 |}
           (B "1 ") (B " one") (LF :: B "2")
           eq_refl eq_refl eq_refl (or_intror eq_refl)).
Defined.

(** *** Sources of [2^31] bytes and more *)

Lemma forallb_repeat (p : byte -> bool) (c : byte) (n : nat) :
  p c = true -> forallb p (repeat c n) = true.
Proof.
  intros H. induction n as [|n IH]; cbn [repeat forallb]; [reflexivity|].
  now rewrite H, IH.
Qed.

(** The tokens of a word of [n] letters [a] followed by an opening
    parenthesis, for [n] above the 64 bytes of the scratch buffer. *)
Lemma Tokenize_long_word (n : nat) :
  (64 < n)%nat ->
  Tokenize (repeat "a" n ++ ["("])%list [] =
  Some [ {| Raw := repeat "a" n; Type_ := IDENT; Pos := 0;
            Line := 1; Col := 1 |};
         {| Raw := ["("]; Type_ := LPAREN; Pos := int32 (Z.of_nat n);
            Line := 1; Col := uint32 (1 + Z.of_nat n) |};
         {| Raw := []; Type_ := EOF; Pos := int32 (Z.of_nat (n + 1));
            Line := 1; Col := uint32 (uint32 (1 + Z.of_nat n) + 1) |} ].
Proof.
  intros Hn.
  set (s := (repeat "a" n ++ ["("])%list).
  assert (Hlen : List.length s = S (S (S (n - 2)))).
  { unfold s. rewrite length_app, repeat_length. cbn [List.length]. lia. }
  set (l1 := {| src := s; pos := n; line := 1;
                col := uint32 (1 + Z.of_nat n) |}).
  set (l2 := {| src := s; pos := S n; line := 1;
                col := uint32 (uint32 (1 + Z.of_nat n) + 1) |}).
  (* the word *)
  assert (H1 : Next (New s)
               = Some ({| Raw := repeat "a" n; Type_ := IDENT; Pos := 0;
                          Line := 1; Col := 1 |}, l1)).
  { destruct n as [|m]; [lia|].
    assert (Hs : s = ([] ++ ("a" :: repeat "a" m) ++ ["("])%list)
      by reflexivity.
    unfold Next. unfold len at 1. cbn [New src pos]. rewrite Hlen.
    cbn [Nat.sub Next_loop].
    assert (E : (pos (New s) <? len (New s))%nat = true).
    { apply Nat.ltb_lt. unfold len. cbn [New src pos]. rewrite Hlen. lia. }
    rewrite E, Next_body_word.
    - unfold lexIdent, scanWhile. cbv zeta.
      rewrite (scan_run isIdentCont (repeat "a" m) _ (adv (New s)) ["a"]
                 ["("]).
      + cbn [adv New src pos line col List.length]. rewrite repeat_length.
        assert (Hcol : match repeat "a" m with
                       | [] => uint32 (1 + 1)
                       | _ :: _ => uint32 (uint32 (1 + 1) + Z.of_nat m)
                       end = uint32 (1 + Z.of_nat (S m))).
        { destruct m as [|m']; [reflexivity|]. cbn [repeat].
          rewrite uint32_add. f_equal. lia. }
        rewrite Hcol. unfold tokenAt. cbn [src pos].
        assert (Hsl : slice s 0 (1 + m) = repeat "a" (S m)).
        { rewrite Hs.
          replace (1 + m)%nat
            with (List.length (@nil byte)
                  + List.length ("a" :: repeat "a" m))%nat
            by (cbn [List.length]; rewrite repeat_length; lia).
          apply (slice_middle [] ("a" :: repeat "a" m) ["("]). }
        rewrite Hsl.
        assert (E64 : (64 <? List.length (repeat "a" (S m)))%nat = true)
          by (apply Nat.ltb_lt; rewrite repeat_length; lia).
        rewrite E64. reflexivity.
      + reflexivity.
      + reflexivity.
      + now apply forallb_repeat.
      + intros _. reflexivity.
      + unfold len. cbn [adv New src pos List.length].
        rewrite Hlen, repeat_length. lia.
    - reflexivity.
    - intros H. discriminate H. }
  (* the parenthesis *)
  assert (Hc1 : cur l1 = "(").
  { unfold cur, index, l1, s. cbn [src pos].
    rewrite <- (repeat_length "a" n) at 1. apply nth_middle. }
  assert (H2 : Next l1
               = Some ({| Raw := ["("]; Type_ := LPAREN;
                          Pos := int32 (Z.of_nat n); Line := 1;
                          Col := uint32 (1 + Z.of_nat n) |}, l2)).
  { unfold Next.
    assert (Hf : (len l1 - pos l1 = 1)%nat).
    { unfold len, l1. cbn [src pos]. rewrite Hlen. lia. }
    rewrite Hf. cbn [Next_loop].
    assert (E : (pos l1 <? len l1)%nat = true).
    { apply Nat.ltb_lt. lia. }
    rewrite E. unfold Next_body. cbv zeta. rewrite Hc1.
    cbn [Ascii.eqb Bool.eqb isSpace isDigit Ascii.leb andb orb].
    unfold lexPunct. cbv zeta. rewrite Hc1.
    cbn [Ascii.eqb Bool.eqb]. unfold tokenAt.
    cbn [adv l1 src pos line col].
    assert (Hsl : slice s n (S n) = ["("]).
    { unfold s.
      replace (S n) with (List.length (repeat "a" n) + List.length ["("])%nat
        by (rewrite repeat_length; cbn [List.length]; lia).
      rewrite <- (repeat_length "a" n) at 2.
      rewrite <- (app_nil_r ["("]) at 1.
      apply (slice_middle (repeat "a" n) ["("] []). }
    rewrite Hsl. reflexivity. }
  (* the end *)
  assert (H3 : Next l2 = Some (eofToken l2, l2)).
  { apply Next_at_end. unfold len, l2. cbn [src pos]. rewrite Hlen. lia. }
  unfold Tokenize. fold s. rewrite Hlen. cbn [Tokenize_loop].
  rewrite H1. cbn [Type_ eqb code N.eqb Pos.eqb app].
  rewrite H2. cbn [Type_ eqb code N.eqb Pos.eqb app].
  rewrite H3. unfold eofToken. cbn [Type_ eqb code N.eqb Pos.eqb app].
  cbn [l2 pos line col]. do 4 f_equal. f_equal. f_equal. lia.
Qed.

(** C8 as stated, for every source, fails when the source has [2^31] bytes
    or more: after a word of [2^31] letters the next token starts at byte
    [2^31], which the [int32] field [Pos] holds as [-2^31], below the [0]
    of the word. *)
Lemma Tokenize_positions_counterexample :
  exists t1 t2 post,
    Tokenize (repeat "a" (Z.to_nat (2 ^ 31)) ++ ["("])%list []
    = Some (t1 :: t2 :: post)
    /\ Pos t1 = 0%Z /\ Pos t2 = (- 2 ^ 31)%Z /\ (Pos t2 < Pos t1)%Z.
Proof.
  eexists. eexists. eexists. split.
  - apply Tokenize_long_word. lia.
  - cbn [Pos]. rewrite Z2Nat.id by lia. repeat split.
Qed.

End LexerFacts.

(** ** Facts about the arena *)

Module ArenaFacts.

Import parser.

Local Open Scope Z_scope.

(** [(n + 7) &^ 7] *)
Definition roundUp8 (n : Z) : Z := Z.ldiff (n + 7) 7.

Lemma roundUp8_div n : roundUp8 n = (n + 7) / 8 * 8.
Proof.
  unfold roundUp8. change 7 with (Z.ones 3) at 2.
  rewrite Z.ldiff_ones_r by lia.
  rewrite Z.shiftl_mul_pow2, Z.shiftr_div_pow2 by lia. reflexivity.
Qed.

Lemma roundUp8_bounds n : n <= roundUp8 n < n + 8 /\ roundUp8 n mod 8 = 0.
Proof.
  rewrite roundUp8_div. split.
  - pose proof (Z.div_mod (n + 7) 8 ltac:(lia)).
    pose proof (Z.mod_pos_bound (n + 7) 8 ltac:(lia)). lia.
  - apply Z.mod_mul. lia.
Qed.

Lemma int_small z : - 2 ^ 63 <= z < 2 ^ 63 -> int z = z.
Proof. intros H. unfold int. rewrite Z.mod_small; lia. Qed.

(** The size of the slab that [alloc] makes when the request does not
    fit, as the code computes it. *)
Definition grown_size (n curlen : Z) : Z :=
  if 2 * curlen <? n + 8 then n + initialSlabSize else 2 * curlen.

(** The size the specification gives for that slab. *)
Definition spec_slab_size (n curlen : Z) : Z :=
  Z.max (Z.max (n + 8) (2 * curlen)) initialSlabSize.

(** C3 as stated fails: a request of 16 bytes on the zero arena makes a
    slab of 16 + 8192 = 8208 bytes, where the maximum of 16 + 8, 2 * 0 and
    8192 is 8192. *)
Lemma alloc_slab_size_counterexample :
  alloc zero_arena 16 =
    Some ({| lo := 0; hi := 16 |},
          {| slabs := [8208]; cur := Some 8208; off := 16 |})
  /\ 8208 <> spec_slab_size (roundUp8 16) (len_cur zero_arena).
Proof. split; [reflexivity | discriminate]. Qed.

Lemma grown_size_bounds n' curlen :
  0 <= n' -> 0 <= curlen -> grown_size n' curlen <= maxAlloc ->
  n' + 8 <= grown_size n' curlen /\ n' < 2 ^ 48 /\ curlen < 2 ^ 48.
Proof.
  unfold grown_size, maxAlloc, initialSlabSize.
  assert (H248 : 2 ^ 48 = 281474976710656) by reflexivity.
  destruct (2 * curlen <? n' + 8) eqn:E;
    [apply Z.ltb_lt in E | apply Z.ltb_ge in E]; lia.
Qed.

(** The growing path of [alloc], as long as nothing wraps around: the new
    slab is made if its size is within [maxAlloc], and [make] panics if it
    is not. *)
Lemma alloc_grows_or_panics (a : arena) (n : Z) :
  0 <= n < 2 ^ 62 -> 0 <= off a <= len_cur a -> len_cur a < 2 ^ 61 ->
  off a + roundUp8 n > len_cur a ->
  alloc a n =
    if grown_size (roundUp8 n) (len_cur a) <=? maxAlloc
    then Some ({| lo := 0; hi := roundUp8 n |},
               {| slabs := slabs a ++ [grown_size (roundUp8 n) (len_cur a)];
                  cur := Some (grown_size (roundUp8 n) (len_cur a));
                  off := roundUp8 n |})
    else None.
Proof.
  intros Hn Hoff Hlen Hfit.
  pose proof (roundUp8_bounds n) as [Hr _].
  set (n' := roundUp8 n) in *.
  assert (H261 : 2 ^ 61 = 2305843009213693952) by reflexivity.
  assert (H262 : 2 ^ 62 = 4611686018427387904) by reflexivity.
  assert (H263 : 2 ^ 63 = 9223372036854775808) by reflexivity.
  unfold alloc. rewrite (int_small (n + 7)) by lia.
  fold (roundUp8 n). fold n'.
  rewrite (int_small (off a + n')) by lia.
  assert (E : (off a + n' >? len_cur a) = true) by (apply Z.gtb_lt; lia).
  rewrite E. unfold growFactor.
  rewrite (int_small (len_cur a * 2)), (int_small (n' + 8)),
    (int_small (n' + initialSlabSize)) by (unfold initialSlabSize; lia).
  assert (Hsize : (if len_cur a * 2 <? n' + 8 then n' + initialSlabSize
                   else len_cur a * 2) = grown_size n' (len_cur a)).
  { unfold grown_size. now rewrite (Z.mul_comm (len_cur a) 2). }
  rewrite Hsize.
  set (size := grown_size n' (len_cur a)) in *.
  assert (Hpos : n' + 8 <= size).
  { unfold size, grown_size, initialSlabSize.
    destruct (2 * len_cur a <? n' + 8) eqn:E2; [lia|].
    apply Z.ltb_ge in E2. lia. }
  unfold make.
  assert (E3 : (size <? 0) = false) by (apply Z.ltb_ge; lia).
  rewrite E3. cbn [orb].
  destruct (size <=? maxAlloc) eqn:E5.
  - apply Z.leb_le in E5.
    assert (E6 : (maxAlloc <? size) = false) by (apply Z.ltb_ge; lia).
    rewrite E6. cbn [off len_cur cur].
    rewrite (int_small (0 + n')) by lia.
    assert (E4 : (0 <=? 0) && (0 <=? 0 + n') && (0 + n' <=? size) = true).
    { rewrite !andb_true_iff, !Z.leb_le. lia. }
    rewrite E4. reflexivity.
  - apply Z.leb_gt in E5.
    assert (E6 : (maxAlloc <? size) = true) by (apply Z.ltb_lt; lia).
    rewrite E6. reflexivity.
Qed.

(** A request of [2^59] bytes on the zero arena: [make] panics. *)
Lemma alloc_oversize_panics : alloc zero_arena (2 ^ 59) = None.
Proof. vm_compute. reflexivity. Qed.

(** C3, amended.  For a request [n >= 0] that does not fit in the current
    slab of an arena whose offset lies within that slab, [alloc] rounds
    [n] up to a multiple of 8, say [n'], and takes for the new slab twice
    the size of the current slab when that is at least [n' + 8], and
    [n' + 8192] otherwise.  When that size is within the limit of the
    allocator, [2^48] bytes, beyond which [make] panics, the new slab is
    appended to the slabs, becomes the current slab, and the request is
    served from its start. *)
Theorem alloc_grows (a : arena) (n : Z) :
  0 <= n -> 0 <= off a <= len_cur a ->
  off a + roundUp8 n > len_cur a ->
  grown_size (roundUp8 n) (len_cur a) <= maxAlloc ->
  let n' := roundUp8 n in
  let size := grown_size n' (len_cur a) in
  (n <= n' < n + 8 /\ n' mod 8 = 0) /\
  alloc a n =
    Some ({| lo := 0; hi := n' |},
          {| slabs := slabs a ++ [size]; cur := Some size; off := n' |}).
Proof.
  intros Hn Hoff Hfit Hmax n' size.
  pose proof (roundUp8_bounds n) as Hr. fold n' in Hr, Hfit, Hmax.
  split; [exact Hr|].
  destruct (grown_size_bounds n' (len_cur a)) as (_ & Hn' & Hl);
    [lia | lia | exact Hmax |].
  assert (H248 : 2 ^ 48 = 281474976710656) by reflexivity.
  assert (H261 : 2 ^ 61 = 2305843009213693952) by reflexivity.
  assert (H262 : 2 ^ 62 = 4611686018427387904) by reflexivity.
  rewrite alloc_grows_or_panics by (fold n'; lia).
  fold n'. fold size.
  assert (E : (size <=? maxAlloc) = true) by (apply Z.leb_le; exact Hmax).
  rewrite E. reflexivity.
Qed.

Lemma alloc_grows_witness :
  alloc {| slabs := [8192]; cur := Some 8192; off := 8000 |} 300 =
  Some ({| lo := 0; hi := 304 |},
        {| slabs := [8192; 16384]; cur := Some 16384; off := 304 |}).
Proof.
  apply (alloc_grows {| slabs := [8192]; cur := Some 8192; off := 8000 |} 300);
    cbn [off len_cur cur]; try (vm_compute; split; congruence);
    vm_compute; congruence.
Defined.

(** *** Every allocation *)

(** X8. [alloc] serves a request [n >= 0] without a panic whenever the
    request fits in the current slab, or the slab it has to make is within
    the limit of the allocator ([2^48] bytes, the limit that the slabs
    themselves keep).  The chunk it hands out is [n] rounded up to a
    multiple of 8 long, lies inside the slab that is current afterwards,
    and ends where the next chunk will start.  It starts where the last
    one ended when the request fits in the current slab, which is then
    kept with all the slabs; it starts a new slab, appended to the slabs,
    when it does not.  All offsets stay multiples of 8. *)
Theorem alloc_serves (a : arena) (n : Z) :
  0 <= n -> 0 <= off a <= len_cur a -> len_cur a <= maxAlloc ->
  off a + roundUp8 n <= len_cur a
  \/ grown_size (roundUp8 n) (len_cur a) <= maxAlloc ->
  exists c a',
    alloc a n = Some (c, a')
    /\ hi c - lo c = roundUp8 n
    /\ 0 <= lo c /\ hi c <= len_cur a' /\ len_cur a' <= maxAlloc
    /\ off a' = hi c
    /\ (off a mod 8 = 0 -> lo c mod 8 = 0 /\ hi c mod 8 = 0)
    /\ (if off a + roundUp8 n <=? len_cur a
        then slabs a' = slabs a /\ cur a' = cur a /\ lo c = off a
        else exists size,
            slabs a' = slabs a ++ [size] /\ cur a' = Some size /\ lo c = 0).
Proof.
  intros Hn Hoff Hlen Hok.
  pose proof (roundUp8_bounds n) as [Hr Hr8].
  set (n' := roundUp8 n) in *.
  assert (H248 : maxAlloc = 281474976710656) by reflexivity.
  assert (H261 : 2 ^ 61 = 2305843009213693952) by reflexivity.
  assert (H262 : 2 ^ 62 = 4611686018427387904) by reflexivity.
  assert (H263 : 2 ^ 63 = 9223372036854775808) by reflexivity.
  destruct (off a + n' <=? len_cur a) eqn:Efit.
  - apply Z.leb_le in Efit.
    unfold alloc. rewrite (int_small (n + 7)) by lia.
    fold (roundUp8 n). fold n'.
    rewrite (int_small (off a + n')) by lia.
    assert (E : (off a + n' >? len_cur a) = false).
    { rewrite Z.gtb_ltb. apply Z.ltb_ge. lia. }
    rewrite E. cbv iota beta.
    rewrite !(int_small (off a + n')) by lia.
    assert (E4 : (0 <=? off a) && (off a <=? off a + n')
                 && (off a + n' <=? len_cur a) = true).
    { rewrite !andb_true_iff, !Z.leb_le. lia. }
    rewrite E4. eexists. eexists. split; [reflexivity|].
    cbn [lo hi off slabs cur].
    split; [lia|]. split; [lia|]. split; [exact Efit|].
    split; [exact Hlen|].
    split; [reflexivity|]. split; [|repeat split].
    intros H8. split; [exact H8|].
    rewrite Z.add_mod, H8, Hr8 by lia. reflexivity.
  - apply Z.leb_gt in Efit.
    destruct Hok as [Hok|Hok]; [lia|].
    destruct (grown_size_bounds n' (len_cur a)) as (Hpos & Hn' & Hl);
      [lia | lia | exact Hok |].
    assert (H248' : 2 ^ 48 = 281474976710656) by reflexivity.
    rewrite alloc_grows_or_panics by (fold n'; lia).
    fold n'.
    assert (E : (grown_size n' (len_cur a) <=? maxAlloc) = true)
      by (apply Z.leb_le; exact Hok).
    rewrite E. eexists. eexists. split; [reflexivity|].
    cbn [lo hi off slabs cur len_cur].
    split; [lia|]. split; [lia|]. split; [lia|]. split; [exact Hok|].
    split; [reflexivity|].
    split; [|exists (grown_size n' (len_cur a)); repeat split].
    intros _. split; [reflexivity | exact Hr8].
Qed.

Lemma alloc_serves_witness :
  exists c a',
    alloc {| slabs := [8192]; cur := Some 8192; off := 16 |} 5 = Some (c, a')
    /\ hi c - lo c = 8
    /\ 0 <= lo c /\ hi c <= len_cur a' /\ len_cur a' <= maxAlloc
    /\ off a' = hi c
    /\ (16 mod 8 = 0 -> lo c mod 8 = 0 /\ hi c mod 8 = 0)
    /\ slabs a' = [8192] /\ cur a' = Some 8192 /\ lo c = 16.
Proof.
  apply (alloc_serves {| slabs := [8192]; cur := Some 8192; off := 16 |} 5);
    cbn [off len_cur cur]; [lia | lia | discriminate |].
  left. vm_compute. discriminate.
Defined.

End ArenaFacts.

(** ** Facts about the parser *)

Module ParserFacts.

Import lexer parser.

Local Open Scope string_scope.

Lemma bind_Ok {A B} (m : M A) (k : A -> M B) p b p' :
  bind m k p = (Ok b, p') ->
  exists a p1, m p = (Ok a, p1) /\ k a p1 = (Ok b, p').
Proof.
  unfold bind. destruct (m p) as [[a| |] p1]; intros H; try discriminate.
  eauto.
Qed.

Lemma lift_Ok {A} (f : Parser -> A * Parser) p a p' :
  lift f p = (Ok a, p') -> f p = (a, p').
Proof.
  unfold lift. destruct (f p) as [a0 p0]. intros H. now injection H as -> ->.
Qed.

Lemma ret_Ok {A} (a b : A) p p' : ret a p = (Ok b, p') -> a = b /\ p = p'.
Proof. unfold ret. intros H. injection H as -> ->. now split. Qed.

Section ExprFacts.

Variable parseSelect : M ast.SelectStmt.
Variable parseDataType : M ast.DataType.

Local Abbreviation parseExpr := (parseExpr parseSelect parseDataType).
Local Abbreviation parseExpr_loop := (parseExpr_loop parseSelect parseDataType).
Local Abbreviation parseUnary := (parseUnary parseSelect parseDataType).
Local Abbreviation parsePrimary := (parsePrimary parseSelect parseDataType).
Local Abbreviation parseInRHS := (parseInRHS parseSelect parseDataType).
Local Abbreviation parseCaseExpr := (parseCaseExpr parseSelect parseDataType).
Local Abbreviation parseCast := (parseCast parseSelect parseDataType).
Local Abbreviation parseFuncCall := (parseFuncCall parseSelect parseDataType).
Local Abbreviation parseLimit := (parseLimit parseSelect parseDataType).

(** A successful run of [m] never yields the nil expression. *)
Definition nonNil (m : M ast.Expr) : Prop :=
  forall p e p', m p = (Ok e, p') -> e <> ast.ENil.

Lemma nonNil_ret e : e <> ast.ENil -> nonNil (ret e).
Proof. intros He p e' p' H. apply ret_Ok in H. destruct H as [<- _]. exact He. Qed.

Lemma nonNil_bind {A} (m : M A) (k : A -> M ast.Expr) :
  (forall a, nonNil (k a)) -> nonNil (bind m k).
Proof.
  intros Hk p e p' H. apply bind_Ok in H. destruct H as (a & p1 & _ & H).
  exact (Hk a p1 e p' H).
Qed.

Lemma nonNil_bind_expr (m : M ast.Expr) (k : ast.Expr -> M ast.Expr) :
  nonNil m -> (forall a, a <> ast.ENil -> nonNil (k a)) -> nonNil (bind m k).
Proof.
  intros Hm Hk p e p' H. apply bind_Ok in H. destruct H as (a & p1 & Ha & H).
  exact (Hk a (Hm _ _ _ Ha) p1 e p' H).
Qed.

Lemma nonNil_if (c : bool) (m1 m2 : M ast.Expr) :
  nonNil m1 -> nonNil m2 -> nonNil (if c then m1 else m2).
Proof. now destruct c. Qed.

Lemma nonNil_fail m : nonNil (fail m).
Proof. intros p e p' H. discriminate. Qed.

Lemma nonNil_outOfFuel : nonNil outOfFuel.
Proof. intros p e p' H. discriminate. Qed.

Ltac nonNil_step :=
  first
    [ apply nonNil_outOfFuel
    | apply nonNil_fail
    | apply nonNil_ret; first [discriminate | assumption]
    | apply nonNil_bind_expr; [solve [auto] | intros ? ?]
    | apply nonNil_bind; intro
    | apply nonNil_if
    | solve [auto] ].

(** What the induction on the fuel carries. *)
Definition allNonNil (f : nat) : Prop :=
  (forall m, nonNil (parseExpr f m)) /\
  (forall m left, left <> ast.ENil -> nonNil (parseExpr_loop f m left)) /\
  (forall left pos not, nonNil (parseInRHS f left pos not)) /\
  nonNil (parseUnary f) /\
  nonNil (parsePrimary f) /\
  nonNil (parseCaseExpr f) /\
  nonNil (parseCast f) /\
  (forall name, nonNil (parseFuncCall f name)).

(** The two switches on the token type in the loop of [parseExpr]. *)
Lemma nonNil_loop_cases (t : TokenType) (is_ not_ like in_ between other
    : M ast.Expr) :
  nonNil is_ -> nonNil not_ -> nonNil like -> nonNil in_ ->
  nonNil between -> nonNil other ->
  nonNil match t with
         | IS => is_
         | NOT => not_
         | LIKE => like
         | IN => in_
         | BETWEEN => between
         | _ => other
         end.
Proof. intros; destruct t; assumption. Qed.

Lemma nonNil_not_cases (t : TokenType) (like in_ between other
    : M ast.Expr) :
  nonNil like -> nonNil in_ -> nonNil between -> nonNil other ->
  nonNil match t with
         | LIKE => like
         | IN => in_
         | BETWEEN => between
         | _ => other
         end.
Proof. intros; destruct t; assumption. Qed.

Lemma allNonNil_fuel f : allNonNil f.
Proof.
  induction f as [|f (IHe & IHl & IHin & IHu & IHp & IHcase & IHcast & IHfc)].
  - repeat split; intros; apply nonNil_outOfFuel.
  - assert (Hloop : forall m left, left <> ast.ENil ->
                      nonNil (parseExpr_loop (S f) m left)).
    { intros m left Hleft. cbn [parser.parseExpr_loop].
      apply nonNil_bind; intro t.
      assert (Hbin : nonNil
        (bind curTok (fun t0 =>
           let '(prec, ok) := tokenPrec (Type_ t0) in
           if negb ok || (prec <=? m)%Z then ret left
           else bind (lift advance) (fun _ =>
                  bind (parseExpr f prec) (fun right =>
                    parseExpr_loop f m
                      (ast.BinaryExpr left right (Type_ t0) (Pos t0))))))).
      { apply nonNil_bind; intro t0. destruct (tokenPrec (Type_ t0)) as [prec ok].
        apply nonNil_if; [now apply nonNil_ret|].
        apply nonNil_bind; intro. apply nonNil_bind; intro.
        apply IHl. discriminate. }
      apply nonNil_loop_cases; try exact Hbin;
        repeat first
          [ apply IHl; discriminate
          | apply nonNil_bind_expr; [apply IHin | intros ? ?; now apply IHl]
          | apply nonNil_bind; intro
          | apply nonNil_if ].
      apply nonNil_not_cases; try exact Hbin;
        repeat first
          [ apply IHl; discriminate
          | apply nonNil_bind_expr; [apply IHin | intros ? ?; now apply IHl]
          | apply nonNil_bind; intro
          | apply nonNil_if ]. }
    repeat split.
    + intros m. cbn [parser.parseExpr].
      apply nonNil_bind_expr; [exact IHu|]. intros left Hleft. now apply IHl.
    + exact Hloop.
    + intros left pos not. cbn [parser.parseInRHS].
      repeat nonNil_step.
    + cbn [parser.parseUnary]. repeat nonNil_step.
    + cbn [parser.parsePrimary]. repeat nonNil_step.
      match goal with
        | |- nonNil (match ast.Parts ?n with _ => _ end) =>
            destruct (ast.Parts n) as [|? [|? ?]]
      end; nonNil_step.
    + cbn [parser.parseCaseExpr]. repeat nonNil_step.
    + cbn [parser.parseCast]. repeat nonNil_step.
    + intros name. cbn [parser.parseFuncCall]. repeat nonNil_step.
Qed.

Lemma parseExpr_nonNil fuel m : nonNil (parseExpr fuel m).
Proof. apply (allNonNil_fuel fuel). Qed.

(** [LIMIT count OFFSET off] *)
Lemma parseLimit_offset fuel p p1 p2 a b :
  parseExpr fuel 0%Z p = (Ok a, p1) ->
  Type_ (tok p1) = OFFSET ->
  parseExpr fuel 0%Z (snd (advance p1)) = (Ok b, p2) ->
  parseLimit fuel p = (Ok {| ast.Count := a; ast.Offset := b |}, p2).
Proof.
  intros Ha Htok Hb. unfold parser.parseLimit, bind at 1.
  rewrite Ha. unfold bind at 1, lift at 1, tryEatKeyword at 1.
  rewrite Htok. cbn [eqb code N.eqb Pos.eqb]. unfold bind at 1.
  rewrite Hb. reflexivity.
Qed.

(** [LIMIT off, count] *)
Lemma parseLimit_comma fuel p p1 p2 a b :
  parseExpr fuel 0%Z p = (Ok b, p1) ->
  Type_ (tok p1) = COMMA ->
  parseExpr fuel 0%Z (snd (advance p1)) = (Ok a, p2) ->
  parseLimit fuel p = (Ok {| ast.Count := a; ast.Offset := b |}, p2).
Proof.
  intros Hb Htok Ha. unfold parser.parseLimit, bind at 1.
  rewrite Hb. unfold bind at 1, lift at 1, tryEatKeyword at 1.
  rewrite Htok. cbn [eqb code N.eqb Pos.eqb]. unfold bind at 1, lift at 1,
    tryEat at 1.
  rewrite Htok. cbn [eqb code N.eqb Pos.eqb]. unfold bind at 1.
  rewrite Ha. reflexivity.
Qed.

(** [LIMIT count] *)
Lemma parseLimit_plain fuel p p1 c :
  parseExpr fuel 0%Z p = (Ok c, p1) ->
  Type_ (tok p1) <> OFFSET -> Type_ (tok p1) <> COMMA ->
  parseLimit fuel p = (Ok {| ast.Count := c; ast.Offset := ast.ENil |}, p1).
Proof.
  intros Hc H1 H2. apply LexerFacts.eqb_neq in H1, H2.
  unfold parser.parseLimit, bind at 1.
  rewrite Hc. unfold bind at 1, lift at 1, tryEatKeyword at 1.
  rewrite H1. unfold bind at 1, lift at 1, tryEat at 1. rewrite H2.
  reflexivity.
Qed.

Lemma parseLimit_Count_nonNil fuel p lim p' :
  parseLimit fuel p = (Ok lim, p') -> ast.Count lim <> ast.ENil.
Proof.
  unfold parser.parseLimit. intros H.
  apply bind_Ok in H. destruct H as (count & p1 & Hc & H).
  apply parseExpr_nonNil in Hc.
  apply bind_Ok in H. destruct H as (hasOffset & p2 & _ & H).
  destruct hasOffset.
  - apply bind_Ok in H. destruct H as (off & p3 & _ & H).
    apply ret_Ok in H. destruct H as [<- _]. exact Hc.
  - apply bind_Ok in H. destruct H as (hasComma & p3 & _ & H).
    destruct hasComma.
    + apply bind_Ok in H. destruct H as (off & p4 & Ho & H).
      apply parseExpr_nonNil in Ho.
      apply ret_Ok in H. destruct H as [<- _]. exact Ho.
    + apply ret_Ok in H. destruct H as [<- _]. exact Hc.
Qed.

(** C4.  Let [a] and [b] be the expressions that [parseExpr] reads.  For
    [LIMIT a OFFSET b], where [a] is read first, and for the MySQL form
    [LIMIT b, a], where [b] is read first, [parseLimit] returns the same
    clause: count is [a] and offset is [b].  In every clause that
    [parseLimit] returns the count is a non-nil expression, and the offset
    is nil when neither [OFFSET] nor a comma follows the count. *)
Theorem parseLimit_count_offset fuel p p1 p2 q q1 q2 a1 b1 a2 b2 :
  parseExpr fuel 0%Z p = (Ok a1, p1) ->
  Type_ (tok p1) = OFFSET ->
  parseExpr fuel 0%Z (snd (advance p1)) = (Ok b1, p2) ->
  parseExpr fuel 0%Z q = (Ok b2, q1) ->
  Type_ (tok q1) = COMMA ->
  parseExpr fuel 0%Z (snd (advance q1)) = (Ok a2, q2) ->
  parseLimit fuel p = (Ok {| ast.Count := a1; ast.Offset := b1 |}, p2)
  /\ parseLimit fuel q = (Ok {| ast.Count := a2; ast.Offset := b2 |}, q2)
  /\ (forall r lim r',
        parseLimit fuel r = (Ok lim, r') -> ast.Count lim <> ast.ENil)
  /\ (forall r c r',
        parseExpr fuel 0%Z r = (Ok c, r') ->
        Type_ (tok r') <> OFFSET -> Type_ (tok r') <> COMMA ->
        parseLimit fuel r =
          (Ok {| ast.Count := c; ast.Offset := ast.ENil |}, r')).
Proof.
  intros Ha1 Ht1 Hb1 Hb2 Ht2 Ha2. repeat split.
  - exact (parseLimit_offset fuel p p1 p2 a1 b1 Ha1 Ht1 Hb1).
  - exact (parseLimit_comma fuel q q1 q2 a2 b2 Hb2 Ht2 Ha2).
  - exact (parseLimit_Count_nonNil fuel).
  - intros r c r'. exact (parseLimit_plain fuel r r' c).
Qed.

End ExprFacts.

(** The expression parser on sources without subqueries or casts. *)
Definition noSelect : M ast.SelectStmt := fail (MsgOther "subquery").
Definition noDataType : M ast.DataType := fail (MsgOther "data type").

Definition lit (raw : string) (kind : TokenType) (p : Z) : ast.Expr :=
  ast.ELiteral
    {| ast.lit_Raw := B raw; ast.lit_Kind := kind; ast.lit_TokPos := p |}.

Definition limitOf (s : string) : res ast.LimitClause :=
  fst (parseLimit noSelect noDataType 10 (New (B s))).

Lemma parseLimit_count_offset_witness :
  limitOf "10 OFFSET 5" =
    Ok {| ast.Count := lit "10" INT 0; ast.Offset := lit "5" INT 10 |}
  /\ limitOf "5, 10" =
    Ok {| ast.Count := lit "10" INT 3; ast.Offset := lit "5" INT 0 |}.
Proof.
  pose (e := parseExpr noSelect noDataType 10 0%Z).
  pose (p := New (B "10 OFFSET 5")). pose (q := New (B "5, 10")).
  destruct (parseLimit_count_offset noSelect noDataType 10
              p (snd (e p)) (snd (e (snd (advance (snd (e p))))))
              q (snd (e q)) (snd (e (snd (advance (snd (e q))))))
              (lit "10" INT 0) (lit "5" INT 10)
              (lit "10" INT 3) (lit "5" INT 0))
    as (H1 & H2 & _); try (vm_compute; reflexivity).
  unfold limitOf. fold p q. rewrite H1, H2. split; reflexivity.
Defined.

(** *** Sources in which the lexer finds nothing but semicolons *)

(** The current token [t] and the tokens that the lexer [l] has still to
    return are semicolons, up to [EOF]. *)
Inductive semicolons : Token -> Lexer -> Prop :=
| semicolons_EOF t l : Type_ t = EOF -> semicolons t l
| semicolons_more t l t' l' :
    Type_ t = SEMICOLON -> Next l = Some (t', l') -> semicolons t' l' ->
    semicolons t l.

Lemma skipSemis_loop_EOF t l :
  semicolons t l ->
  forall fuel pk,
    pos l <= len l ->
    (Type_ t = SEMICOLON -> len l - pos l < fuel) ->
    Type_ (tok (skipSemis_loop fuel
                  {| lex := l; tok := t; peek := pk; hasPeek := false |}))
    = EOF.
Proof.
  induction 1 as [t l Ht | t l t' l' Ht Hn Hs IH]; intros fuel pk Hl Hf.
  - destruct fuel as [|f]; cbn [skipSemis_loop tok]; [assumption|].
    rewrite Ht. exact Ht.
  - specialize (Hf Ht). destruct fuel as [|f]; [lia|].
    cbn [skipSemis_loop tok]. rewrite Ht. cbn [eqb code N.eqb Pos.eqb].
    unfold advance. cbn [hasPeek parser.lex snd]. unfold lexNext.
    rewrite Hn. cbn [snd].
    destruct (LexerFacts.Next_spec l t' l' Hl Hn) as [He Hr].
    apply IH; [now apply (LexerFacts.extends_le l)|].
    intros Ht'. destruct Hr as [[-> _]|[_ [start [Hstart _]]]];
      [discriminate Ht'|].
    rewrite (LexerFacts.extends_len _ _ He). destruct He as [_ Hb]. lia.
Qed.

Lemma Tokenize_loop_semicolons fuel l buf toks :
  Tokenize_loop fuel l buf = Some toks ->
  exists rest,
    toks = (buf ++ rest)%list /\
    (Forall (fun t => Type_ t = SEMICOLON \/ Type_ t = EOF) rest ->
     exists t l', Next l = Some (t, l') /\ semicolons t l').
Proof.
  revert l buf. induction fuel as [|f IH]; intros l buf; [discriminate|].
  cbn [Tokenize_loop]. destruct (Next l) as [[t l']|]; [|discriminate].
  destruct (eqb (Type_ t) EOF) eqn:E.
  - intros H. injection H as <-. exists [t]. split; [reflexivity|].
    intros _. exists t, l'. split; [reflexivity|].
    apply semicolons_EOF. now apply LexerFacts.eqb_eq.
  - intros H. destruct (IH l' _ H) as [rest [-> Hrest]].
    exists (t :: rest). split; [now rewrite <- app_assoc|].
    intros HF. inversion HF as [|x xs Hx Hxs]; subst.
    destruct (Hrest Hxs) as [t' [l2 [Hn Hs]]].
    exists t, l'. split; [reflexivity|].
    destruct Hx as [Hx|Hx].
    + now apply (semicolons_more t l' t' l2).
    + now apply semicolons_EOF.
Qed.

(** When the lexer finds nothing but semicolons in a source,
    [ParseStatement] returns [(nil, nil)]. *)
Lemma ParseStatement_semicolons (sub : StatementParsers) (s : bytes)
    (buf toks : list Token) :
  Tokenize s buf = Some toks ->
  Forall (fun t => Type_ t = SEMICOLON \/ Type_ t = EOF) toks ->
  ParseStatement sub s = Ok None.
Proof.
  unfold Tokenize. intros H HF.
  destruct (Tokenize_loop_semicolons _ _ _ _ H) as [rest [-> Hrest]].
  destruct (Hrest HF) as [t [l' [Hn Hs]]].
  unfold ParseStatement, ParseOne, NewString, New, lexNext. rewrite Hn.
  assert (Hl : pos (lexer.New s) <= len (lexer.New s)) by (cbn; lia).
  destruct (LexerFacts.Next_spec _ _ _ Hl Hn) as [He _].
  unfold skipSemis. cbn [parser.lex].
  rewrite (skipSemis_loop_EOF t l' Hs); [reflexivity | | lia].
  now apply (LexerFacts.extends_le (lexer.New s)).
Qed.

(** So it does on these sources, whose comments are closed or run to the
    end of a line. *)
Lemma ParseStatement_no_statement (sub : StatementParsers) :
  ParseStatement sub (B "") = Ok None
  /\ ParseStatement sub (B " ;; ") = Ok None
  /\ ParseStatement sub (B "/* x */ ; -- y") = Ok None.
Proof. vm_compute. repeat split. Qed.

(** C10 (code defect, the one of C2).  The source [/* x] consists of one
    block comment that runs to the end of the input, yet [ParseStatement]
    returns a [ParseError]: the lexer gives the last byte back as the
    identifier [x], which starts no statement. *)
Theorem ParseStatement_unterminated_comment (sub : StatementParsers) :
  ParseStatement sub (B "/* x") =
  Err {| Msg := MsgUnexpectedAtStart (B "x");
         err_Pos := 3; err_Line := 1; err_Col := 4 |}.
Proof. vm_compute. reflexivity. Qed.

Import LexerFacts.

(** *** Identifiers *)

(** X9. [parseIdent] takes the current token as an identifier exactly when
    its type is [IDENT], [BACKTICK], [DQUOTE] or lies strictly between
    [ILLEGAL] and [INT], which adds [EOF], [COMMENT] and [WHITESPACE]: no
    keyword is taken, and the end of the input is.  The identifier has the
    bytes and the position of the token, which is consumed; otherwise the
    error is at the token and nothing is consumed. *)
Theorem parseIdent_accepts (p : Parser) :
  match parseIdent p with
  | (Ok id, p') =>
      In (Type_ (tok p)) [IDENT; BACKTICK; DQUOTE; EOF; COMMENT; WHITESPACE]
      /\ ast.Raw id = Raw (tok p) /\ ast.TokPos id = Pos (tok p)
      /\ p' = snd (advance p)
  | (Err e, p') =>
      ~ In (Type_ (tok p))
          [IDENT; BACKTICK; DQUOTE; EOF; COMMENT; WHITESPACE]
      /\ e = errorf p (MsgExpectedIdent (Raw (tok p))) /\ p' = p
  | (OutOfFuel, _) => False
  end.
Proof.
  unfold parseIdent, bind, curTok, lift, ret, fail.
  destruct (advance p) as [t' p1] eqn:Ea.
  destruct (Type_ (tok p)) eqn:Et; cbn; rewrite ?Ea; cbn;
    repeat split; try reflexivity; try tauto;
    intros H; repeat (destruct H as [H|H]; [discriminate H|]); exact H.
Qed.

(** *** The token cursor *)

(** X10. Looking ahead does not change what the parser reads next:
    [peekToken] returns the token that [advance] makes the current one,
    and after [peekToken] an [advance] leaves the same current token and
    the same lexer as an [advance] alone. *)
Theorem peekToken_transparent (p : Parser) :
  let p1 := snd (peekToken p) in
  fst (peekToken p) = tok (snd (advance p))
  /\ tok p1 = tok p
  /\ tok (snd (advance p1)) = tok (snd (advance p))
  /\ lex (snd (advance p1)) = lex (snd (advance p))
  /\ hasPeek (snd (advance p1)) = false.
Proof.
  unfold peekToken, advance.
  destruct (hasPeek p) eqn:E.
  - cbn. rewrite E. cbn. repeat split.
  - destruct (lexNext (lex p)) as [t l]. cbn. repeat split.
Qed.

(** *** The entry points *)

(** X11. Once [ParseOne] has returned [(nil, nil)], for the end of the
    input, it returns [(nil, nil)] again and leaves the parser as it is. *)
Theorem ParseOne_at_end_again (sub : StatementParsers) (p p' : Parser) :
  ParseOne sub p = (Ok None, p') -> ParseOne sub p' = (Ok None, p').
Proof.
  unfold ParseOne.
  destruct (eqb (Type_ (tok (skipSemis p))) EOF) eqn:E.
  - intros H. injection H as <-.
    assert (Hs : skipSemis (skipSemis p) = skipSemis p).
    { unfold skipSemis at 1. cbn [Nat.add skipSemis_loop].
      apply eqb_eq in E. now rewrite E. }
    now rewrite Hs, E.
  - destruct (parseStatement sub (skipSemis p)) as [[stmt|e|] p1];
      discriminate.
Qed.

(** Statement parsers that refuse everything. *)
Definition refuse : M ast.Statement := fail (MsgOther "statement").

Definition noStatements : StatementParsers :=
  {| parseSelect := refuse; parseWithStatement := refuse;
     parseInsert := refuse; parseReplace := refuse;
     parseUpdate := refuse; parseDelete := refuse;
     parseCreate := refuse; parseAlter := refuse; parseDrop := refuse;
     parseTruncate := refuse; parseUse := refuse;
     parseRollback := refuse; parseSetStmt := refuse;
     parseShow := refuse; parseExplain := refuse; parseBegin := refuse;
     parseCommit := refuse; parseStartTransaction := refuse;
     parseSavepoint := refuse; parseReleaseSavepoint := refuse;
     parseCall := refuse |}.

Lemma ParseOne_at_end_again_witness :
  ParseOne noStatements (snd (ParseOne noStatements (NewString (B " ; "))))
  = (Ok None, snd (ParseOne noStatements (NewString (B " ; ")))).
Proof.
  apply (ParseOne_at_end_again noStatements (NewString (B " ; "))).
  reflexivity.
Defined.

(** The list that [ParseAll] returns starts with the statements it was
    entered with. *)
Lemma ParseAll_loop_prefix sub fuel stmts p :
  exists more,
    fst (fst (ParseAll_loop sub fuel stmts p)) = (stmts ++ more)%list.
Proof.
  revert stmts p. induction fuel as [|f IH]; intros stmts p.
  - exists []. cbn. now rewrite app_nil_r.
  - cbn [ParseAll_loop].
    destruct (eqb (Type_ (tok (skipSemis p))) EOF).
    + exists []. cbn. now rewrite app_nil_r.
    + destruct (parseStatement sub (skipSemis p)) as [[stmt|e|] p1].
      * destruct (IH (stmts ++ [stmt])%list p1) as [more E].
        exists (stmt :: more). rewrite E. now rewrite <- app_assoc.
      * exists []. cbn. now rewrite app_nil_r.
      * exists []. cbn. now rewrite app_nil_r.
Qed.

(** X12. [ParseStatement] and [ParseStatements] agree on the first
    statement of a source: where the one returns [(nil, nil)] the other
    returns no statement and no error, where the one returns an error the
    other returns the same error and no statement, and the statement that
    the one returns is the first that the other returns. *)
Theorem ParseStatement_first_of_ParseStatements
    (sub : StatementParsers) (s : bytes) :
  match ParseStatement sub s with
  | Ok None => ParseStatements sub s = ([], Ok tt)
  | Ok (Some stmt) =>
      exists rest r, ParseStatements sub s = (stmt :: rest, r)
  | Err e => ParseStatements sub s = ([], Err e)
  | OutOfFuel => ParseStatements sub s = ([], OutOfFuel)
  end.
Proof.
  unfold ParseStatement, ParseStatements, ParseOne, ParseAll.
  set (n := len (lex (NewString s)) - pos (lex (NewString s))).
  change (3 + n) with (S (2 + n)). cbn [ParseAll_loop].
  destruct (eqb (Type_ (tok (skipSemis (NewString s)))) EOF);
    [reflexivity|].
  destruct (parseStatement sub (skipSemis (NewString s)))
    as [[stmt|e|] p1]; cbn [fst]; try reflexivity.
  destruct (ParseAll_loop_prefix sub (2 + n) ([] ++ [stmt])%list p1)
    as [more E].
  cbn [app] in *.
  destruct (ParseAll_loop sub (2 + n) [stmt] p1) as [[l r] p2].
  cbn [fst] in *. subst l. now exists more, r.
Qed.

(** The measure of [skipSemis]: the bytes left, and the token held. *)
Lemma skipSemis_loop_stops fuel p :
  pos (lex p) <= len (lex p) ->
  (Type_ (tok p) = SEMICOLON ->
   len (lex p) - pos (lex p) + (if hasPeek p then 1 else 0) < fuel) ->
  Type_ (tok (skipSemis_loop fuel p)) <> SEMICOLON
  /\ pos (lex (skipSemis_loop fuel p)) <= len (lex (skipSemis_loop fuel p)).
Proof.
  revert p. induction fuel as [|f IH]; intros p Hl Hf; cbn [skipSemis_loop].
  - split; [|assumption]. intros H. specialize (Hf H). lia.
  - destruct (eqb (Type_ (tok p)) SEMICOLON) eqn:E.
    2: { split; [|assumption]. now apply eqb_neq. }
    apply eqb_eq in E. specialize (Hf E). unfold advance.
    destruct (hasPeek p) eqn:Hp; cbn [snd].
    + apply IH; cbn [parser.lex hasPeek tok]; [assumption|]. intros _. lia.
    + unfold lexNext. destruct (Next_total (lex p)) as [[t l'] Hn].
      rewrite Hn. cbn [snd].
      destruct (Next_spec _ _ _ Hl Hn) as [He Hr].
      apply IH; cbn [parser.lex hasPeek tok].
      * now apply (extends_le (lex p)).
      * intros Ht. destruct Hr as [[-> _]|[_ [start [Hs _]]]];
          [discriminate Ht|].
        rewrite (extends_len _ _ He). destruct He as [_ Hb]. lia.
Qed.

(** X13. [skipSemis] comes to an end, at a token that is not a semicolon:
    every turn of its loop takes the token held or at least one byte of
    the source. *)
Theorem skipSemis_stops (p : Parser) :
  pos (lex p) <= len (lex p) ->
  Type_ (tok (skipSemis p)) <> SEMICOLON.
Proof.
  intros Hl. unfold skipSemis. apply skipSemis_loop_stops; [assumption|].
  intros _. destruct (hasPeek p); lia.
Qed.

Lemma skipSemis_stops_witness :
  pos (lex (NewString (B ";; ;x"))) <= len (lex (NewString (B ";; ;x")))
  /\ Type_ (tok (skipSemis (NewString (B ";; ;x")))) <> SEMICOLON.
Proof.
  assert (H : pos (lex (NewString (B ";; ;x")))
              <= len (lex (NewString (B ";; ;x")))).
  { vm_compute. repeat constructor. }
  split; [exact H | exact (skipSemis_stops _ H)].
Defined.

(** *** Expressions *)

(** X14. A successful [parseExpr] never returns the nil expression,
    whatever [parseSelect] and [parseDataType] do. *)
Theorem parseExpr_never_nil (parseSelect : M ast.SelectStmt)
    (parseDataType : M ast.DataType) (fuel : nat) (minPrec : precedence)
    (p p' : Parser) (e : ast.Expr) :
  parser.parseExpr parseSelect parseDataType fuel minPrec p = (Ok e, p') ->
  e <> ast.ENil.
Proof.
  intros H.
  exact (parseExpr_nonNil parseSelect parseDataType fuel minPrec p e p' H).
Qed.

Definition one_plus_two : Parser := New (B "1 + 2").

Lemma parseExpr_never_nil_witness :
  fst (parser.parseExpr noSelect noDataType 10 0%Z one_plus_two)
  = Ok (ast.BinaryExpr (lit "1" INT 0) (lit "2" INT 4) PLUS 2)
  /\ ast.BinaryExpr (lit "1" INT 0) (lit "2" INT 4) PLUS 2 <> ast.ENil.
Proof.
  split; [reflexivity|].
  apply (parseExpr_never_nil noSelect noDataType 10 0%Z one_plus_two
           (snd (parser.parseExpr noSelect noDataType 10 0%Z one_plus_two))).
  reflexivity.
Defined.

(** *** Folding to lower case *)

Lemma length_B (s : string) : List.length (B s) = String.length s.
Proof.
  unfold B. induction s as [|c s IH]; cbn; [reflexivity | now rewrite IH].
Qed.

Lemma equalASCIIFold_loop_iff (raw l : bytes) :
  equalASCIIFold_loop raw l = true <-> map lower raw = l.
Proof.
  revert l. induction raw as [|c raw IH]; intros [|d l];
    cbn [equalASCIIFold_loop map]; try (split; [discriminate|discriminate]).
  - split; reflexivity.
  - destruct (Ascii.eqb (lower c) d) eqn:E; cbn [negb].
    + apply Ascii.eqb_eq in E. subst d. rewrite IH.
      split; [now intros -> | now intros [= ->]].
    + apply Ascii.eqb_neq in E. split; [discriminate|].
      intros [= H _]. contradiction.
Qed.

Lemma lower_not_upper (c : byte) :
  (("A" <=? lower c) && (lower c <=? "Z"))%char = false.
Proof. destruct c as [[] [] [] [] [] [] [] []]; reflexivity. Qed.

Lemma hasUpperASCII_lower (raw : bytes) :
  hasUpperASCII (map lower raw) = false.
Proof.
  unfold hasUpperASCII. induction raw as [|c raw IH]; [reflexivity|].
  cbn [map existsb]. now rewrite lower_not_upper, IH.
Qed.

(** X15. [equalASCIIFold raw s] compares the bytes of [raw], folded to
    lower case, with [s] as it is: it holds exactly when the two are the
    same, so it never holds for an [s] that has an upper-case letter. *)
Theorem equalASCIIFold_iff (raw : bytes) (s : string) :
  (equalASCIIFold raw s = true <-> map lower raw = B s)
  /\ (hasUpperASCII (B s) = true -> equalASCIIFold raw s = false).
Proof.
  assert (H : equalASCIIFold raw s = true <-> map lower raw = B s).
  { unfold equalASCIIFold.
    destruct (List.length raw =? String.length s)%nat eqn:E; cbn [negb].
    - apply equalASCIIFold_loop_iff.
    - apply Nat.eqb_neq in E. split; [discriminate|]. intros H.
      apply (f_equal (@List.length _)) in H.
      rewrite length_map, length_B in H. contradiction. }
  split; [exact H|]. intros Hu.
  apply not_true_is_false. intros E.
  apply H in E. rewrite <- E, hasUpperASCII_lower in Hu. discriminate Hu.
Qed.

Lemma lower_id (raw : bytes) :
  hasUpperASCII raw = false -> map lower raw = raw.
Proof.
  unfold hasUpperASCII. induction raw as [|c raw IH]; [reflexivity|].
  cbn [existsb map]. intros H. apply orb_false_elim in H.
  destruct H as [Hc Hr]. rewrite (IH Hr). unfold lower. now rewrite Hc.
Qed.

(** X16. The name of an identifier is its bytes with the ASCII upper-case
    letters folded to lower case: [lowerASCIIStringArena] gives that for
    every input, on the path that returns the input as it is too, and
    [unquoteIdentArena] gives it for every identifier that does not start
    with a back quote or a double quote. *)
Theorem bare_ident_is_folded (raw : bytes) :
  lowerASCIIStringArena raw = bytesToString (map lower raw)
  /\ (~ In (index raw 0) ["`"%char; DQ] ->
      unquoteIdentArena raw = bytesToString (map lower raw)).
Proof.
  assert (H : lowerASCIIStringArena raw = bytesToString (map lower raw)).
  { unfold lowerASCIIStringArena. destruct raw as [|c raw]; [reflexivity|].
    destruct (hasUpperASCII (c :: raw)) eqn:E; cbn [negb]; [reflexivity|].
    now rewrite (lower_id _ E). }
  split; [exact H|]. intros Hq. unfold unquoteIdentArena.
  destruct (List.length raw <? 2)%nat; [exact H|]. cbv zeta.
  destruct (Ascii.eqb_spec (index raw 0) "`"%char) as [E1|E1];
    [exfalso; apply Hq; rewrite E1; now left|].
  destruct (Ascii.eqb_spec (index raw 0) DQ) as [E2|E2];
    [exfalso; apply Hq; rewrite E2; right; now left|].
  exact H.
Qed.

End ParserFacts.

(** ** Facts about the dialect renderer *)

Module RenderFacts.

Import ast sqlparser.

Local Open Scope string_scope.
Local Open Scope list_scope.

(** *** Placeholders *)

Lemma placeholders_app (a b : text) :
  placeholders (a ++ b) = placeholders a ++ placeholders b.
Proof.
  induction a as [|[s|s] a IH]; simpl; [reflexivity|assumption|].
  now rewrite IH.
Qed.

(** The placeholders that [n] parameters get when the index stands at
    [k], and the index after them. *)
Fixpoint dollars (k : Z) (n : nat) : list string :=
  match n with
  | O => []
  | S n' =>
      let k1 := parser.int (k + 1) in
      ("$" ++ Itoa k1)%string :: dollars k1 n'
  end.

Fixpoint after (k : Z) (n : nat) : Z :=
  match n with
  | O => k
  | S n' => after (parser.int (k + 1)) n'
  end.

Lemma dollars_app k n m :
  dollars k (n + m) = dollars k n ++ dollars (after k n) m.
Proof.
  revert k. induction n as [|n IH]; intros k; [reflexivity|].
  cbn [dollars Nat.add app after]. now rewrite IH.
Qed.

Lemma after_app k n m : after k (n + m) = after (after k n) m.
Proof.
  revert k. induction n as [|n IH]; intros k; [reflexivity|].
  cbn [Nat.add after]. now rewrite IH.
Qed.




Section Facts.

Variable ToUpper : string -> string.
Variable EqualFold : string -> string -> bool.
Variable target : Dialect.
Variable strict : bool.

Local Abbreviation renderIdent := (renderIdent target).
Local Abbreviation renderParam := (renderParam target).
Local Abbreviation renderExpr := (renderExpr ToUpper EqualFold target).
Local Abbreviation renderSelect := (renderSelect ToUpper EqualFold target).
Local Abbreviation renderTableRef :=
  (renderTableRef ToUpper EqualFold target).
Local Abbreviation renderSetOps := (renderSetOps ToUpper EqualFold target).
Local Abbreviation renderWith := (renderWith ToUpper EqualFold target).

(** The text [t] was rendered while the parameter index went from [k] to
    [k']: for PostgreSQL its placeholders are those of the indices after
    [k], up to [k']; for another target the index stood still and every
    placeholder is [?]. *)
Definition ph_ok (k : Z) (t : text) (k' : Z) : Prop :=
  if String.eqb target DialectPostgres
  then exists n, placeholders t = dollars k n /\ k' = after k n
  else k' = k /\ Forall (fun s => s = "?") (placeholders t).

Lemma ph_ok_plain k t : placeholders t = [] -> ph_ok k t k.
Proof.
  intros H. unfold ph_ok. rewrite H.
  destruct (String.eqb target DialectPostgres).
  - now exists O.
  - split; [reflexivity | constructor].
Qed.

Lemma ph_ok_app k1 t1 k2 t2 k3 :
  ph_ok k1 t1 k2 -> ph_ok k2 t2 k3 -> ph_ok k1 (t1 ++ t2) k3.
Proof.
  unfold ph_ok. rewrite placeholders_app.
  destruct (String.eqb target DialectPostgres).
  - intros [n [E1 ->]] [m [E2 ->]]. exists (n + m)%nat.
    now rewrite dollars_app, after_app, E1, E2.
  - intros [-> F1] [-> F2]. split; [reflexivity|].
    apply Forall_app. now split.
Qed.

Lemma ph_ok_lit k t k' s : ph_ok k t k' -> ph_ok k (t ++ T s) k'.
Proof.
  intros H. apply (ph_ok_app k t k' (T s) k' H). now apply ph_ok_plain.
Qed.

(** *** Judgements on the renderer monads *)

(** A function that returns a string. *)
Definition okT (m : R text) : Prop :=
  forall k, ph_ok k (fst (m k)) (snd (m k)).

(** A function that returns [(string, error)]; it may fail only if
    [mayFail] holds. *)
Definition okR (mayFail : bool) (m : R result) : Prop :=
  forall k,
    match m k with
    | (Rendered t, k') => ph_ok k t k'
    | (Failed _, _) => mayFail = true
    end.

(** A function body: it extends a builder that is right so far. *)
Definition wok (mayFail : bool) {A} (m : W A) : Prop :=
  forall k0 k b,
    ph_ok k0 b k ->
    match m (k, b) with
    | (Done _, (k', b')) => ph_ok k0 b' k'
    | (Fail _, _) => mayFail = true
    end.

(** A call from a body: it leaves the builder alone. *)
Definition callOK (mayFail : bool) (c : W text) : Prop :=
  forall k b,
    match c (k, b) with
    | (Done t, (k', b')) => b' = b /\ ph_ok k t k'
    | (Fail _, _) => mayFail = true
    end.

Lemma okR_weaken F m : okR false m -> okR F m.
Proof.
  intros H k. specialize (H k).
  destruct (m k) as [[t|e] k']; [assumption | discriminate].
Qed.

Lemma wok_ret F {A} (a : A) : wok F (ret a).
Proof. intros k0 k b H. exact H. Qed.

Lemma wok_bind F {A B} (m : W A) (f : A -> W B) :
  wok F m -> (forall a, wok F (f a)) -> wok F (bind m f).
Proof.
  intros Hm Hf k0 k b Hb. unfold bind. specialize (Hm k0 k b Hb).
  destruct (m (k, b)) as [[a|e] [k' b']]; [|assumption].
  exact (Hf a k0 k' b' Hm).
Qed.

Lemma wok_write F t : placeholders t = [] -> wok F (write t).
Proof.
  intros Ht k0 k b Hb. cbn [write].
  apply (ph_ok_app k0 b k t k Hb). now apply ph_ok_plain.
Qed.

Lemma wok_writeS F s : wok F (writeS s).
Proof. now apply wok_write. Qed.

Lemma wok_when F c m : wok F m -> wok F (when c m).
Proof. intros H. destruct c; [exact H | apply wok_ret]. Qed.

Lemma wok_sep F i s : wok F (sep i s).
Proof. apply wok_when, wok_writeS. Qed.

Lemma wok_forRange_from F {A} (f : nat -> A -> W unit) (l : list A) :
  (forall i x, In x l -> wok F (f i x)) ->
  forall i,
    wok F ((fix go (i : nat) (l : list A) {struct l} : W unit :=
              match l with
              | [] => ret tt
              | x :: xs => bind (f i x) (fun _ => go (S i) xs)
              end) i l).
Proof.
  induction l as [|x xs IH]; intros Hf i.
  - apply wok_ret.
  - apply wok_bind; [apply Hf; now left|]. intros _.
    apply IH. intros j y Hy. apply Hf. now right.
Qed.

Lemma wok_forRange F {A} (l : list A) (f : nat -> A -> W unit) :
  (forall i x, In x l -> wok F (f i x)) -> wok F (forRange l f).
Proof. intros H. apply (wok_forRange_from F f l H). Qed.

Lemma wok_forWrote F {A} (l : list A) (f : A -> W unit) wrote :
  (forall x, In x l -> wok F (f x)) -> wok F (forWrote l f wrote).
Proof.
  unfold forWrote. revert wrote. induction l as [|x xs IH]; intros wrote Hf.
  - apply wok_ret.
  - apply wok_bind; [apply wok_when, wok_writeS|]. intros _.
    apply wok_bind; [apply Hf; now left|]. intros _.
    apply IH. intros y Hy. apply Hf. now right.
Qed.

Lemma callOK_call F m : okT m -> callOK F (call m).
Proof.
  intros H k b. cbn [call]. specialize (H k).
  destruct (m k) as [t k']. now split.
Qed.

Lemma callOK_callE F m : okR F m -> callOK F (callE m).
Proof.
  intros H k b. cbn [callE]. specialize (H k).
  destruct (m k) as [[t|e] k']; [now split | assumption].
Qed.

Lemma callOK_callIgnore F m : okR false m -> callOK F (callIgnore m).
Proof.
  intros H k b. cbn [callIgnore]. specialize (H k).
  destruct (m k) as [[t|e] k']; [now split | discriminate].
Qed.

(** [x := call; write x] *)
Lemma wok_call_write F (c : W text) :
  callOK F c -> wok F (bind c (fun x => write x)).
Proof.
  intros Hc k0 k b Hb. unfold bind. specialize (Hc k b).
  destruct (c (k, b)) as [[x|e] [k' b']]; [|assumption].
  destruct Hc as [-> Hx]. cbn [write]. now apply (ph_ok_app k0 b k x k').
Qed.

Lemma wok_writeR F m : okT m -> wok F (writeR m).
Proof. intros H. apply wok_call_write. now apply callOK_call. Qed.

Lemma okT_runT m : wok false m -> okT (runT m).
Proof.
  intros H k. unfold runT. specialize (H k k [] (ph_ok_plain k [] eq_refl)).
  unfold text in *.
  destruct (m (k, [])) as [[a|e] [k' b']]; cbn [fst snd];
    [assumption|discriminate].
Qed.

Lemma okR_run F m : wok F m -> okR F (run m).
Proof.
  intros H k. unfold run. specialize (H k k [] (ph_ok_plain k [] eq_refl)).
  unfold text in *.
  destruct (m (k, [])) as [[a|e] [k' b']]; assumption.
Qed.

Lemma okT_pure t : placeholders t = [] -> okT (pure t).
Proof. intros H k. now apply ph_ok_plain. Qed.

Lemma okT_renderParam raw : okT (renderParam raw).
Proof.
  intros k. unfold sqlparser.renderParam, ph_ok.
  destruct (String.eqb target DialectPostgres) eqn:E; cbn [fst snd].
  - now exists 1%nat.
  - split; [reflexivity|]. repeat constructor.
Qed.

(** *** The induction hypotheses on nested lists and records *)

Lemma list_all_In {A} (P : A -> Prop) (l : list A) :
  list_all P l -> forall x, In x l -> P x.
Proof.
  induction 1 as [|a Ha l Hl IH]; intros x Hx; [contradiction|].
  destruct Hx as [<-|Hx]; [exact Ha | now apply IH].
Qed.

Lemma list_all_map {A} (P : A -> Type) (Q : A -> Prop) (l : list A) :
  (forall x, P x -> Q x) -> list_all P l -> forall x, In x l -> Q x.
Proof.
  intros PQ. induction 1 as [|a Ha l Hl IH]; intros x Hx; [contradiction|].
  destruct Hx as [<-|Hx]; [now apply PQ | now apply IH].
Qed.

Lemma option_all_Some {A} (P : A -> Prop) (x : A) :
  option_all P (Some x) -> P x.
Proof. now inversion 1. Qed.

Lemma option_all_map {A} (P : A -> Type) (Q : A -> Prop) (x : A) :
  (forall x, P x -> Q x) -> option_all P (Some x) -> Q x.
Proof. intros PQ H. apply PQ. now inversion H. Qed.

Lemma whens_all (P : Expr -> Prop) (l : list (WhenClause_ Expr)) :
  list_all (WhenClause__all P) l ->
  forall w, In w l -> P (Cond w) /\ P (Result w).
Proof.
  apply list_all_map. intros w H. destruct H. now split.
Qed.

Lemma columns_all (P : Expr -> Prop) (l : list (SelectColumn_ Expr)) :
  list_all (SelectColumn__all P) l -> forall c, In c l -> P (sc_Expr c).
Proof. apply list_all_map. intros c H. now destruct H. Qed.

Lemma orderBy_all (P : Expr -> Prop) (l : list (OrderByItem_ Expr)) :
  list_all (OrderByItem__all P) l -> forall o, In o l -> P (ob_Expr o).
Proof. apply list_all_map. intros c H. now destruct H. Qed.

Lemma ctes_all (P : SelectStmt -> Prop) (l : list (CTE_ SelectStmt)) :
  list_all (CTE__all P) l -> forall c, In c l -> P (cte_Subq c).
Proof. apply list_all_map. intros c H. now destruct H. Qed.

(** *** Structural steps *)

Lemma wok_writeIdents F ids : wok F (writeIdents target ids).
Proof.
  apply wok_forRange. intros i x _. apply wok_bind; [apply wok_sep|].
  intros _. apply wok_writeS.
Qed.

(** A rendered text [x] that is held in a variable until it is written:
    the placeholders of [x] come after those of the buffer. *)
Definition wokP (F : bool) (x : text) {A} (m : W A) : Prop :=
  forall k0 k k' b, ph_ok k0 b k -> ph_ok k x k' ->
    match m (k', b) with
    | (Done _, (k2, b2)) => ph_ok k0 b2 k2
    | (Fail _, _) => F = true
    end.

Lemma wokP_call F {A} (c : W text) (f : text -> W A) :
  callOK F c -> (forall x, wokP F x (f x)) -> wok F (bind c f).
Proof.
  intros Hc Hf k0 k b Hb. unfold bind. specialize (Hc k b).
  destruct (c (k, b)) as [[x|e] [k' b']]; [|assumption].
  destruct Hc as [-> Hx]. now apply (Hf x k0 k k' b).
Qed.

Lemma wokP_lit F x s {A} (m : W A) :
  wokP F x m -> wokP F x (bind (writeS s) (fun _ => m)).
Proof.
  intros H k0 k k' b Hb Hx. unfold bind, writeS, write.
  generalize (H k0 k k' (b ++ T s) (ph_ok_lit _ _ _ s Hb) Hx).
  unfold text. now destruct (m (k', b ++ T s)) as [[a|e] [k2 b2]].
Qed.

Lemma wokP_write F x {A} (m : W A) :
  wok F m -> wokP F x (bind (write x) (fun _ => m)).
Proof.
  intros H k0 k k' b Hb Hx. unfold bind, write.
  apply H. now apply (ph_ok_app k0 b k x k').
Qed.

Lemma wokP_write_end F x : wokP F x (write x).
Proof.
  intros k0 k k' b Hb Hx. unfold write. now apply (ph_ok_app k0 b k x k').
Qed.

Create HintDb render.

Ltac inv_all :=
  repeat match goal with
    | H : option_all _ (Some _) |- _ => apply option_all_Some in H
    | H : _ /\ _ |- _ => destruct H
    end.

Ltac ih :=
  inv_all;
  solve
    [ auto with render
    | match goal with H : _ |- _ => exact H end
    | match goal with
      | H : forall x, In x _ -> _, Hx : In _ _ |- _ =>
          first [ apply (H _ Hx) | apply (proj1 (H _ Hx))
                | apply (proj2 (H _ Hx)) ]
      end ].

Ltac callok :=
  first [ apply callOK_callIgnore | apply callOK_callE | apply callOK_call ];
  first [ ih | apply okR_weaken; ih ].

Ltac callstep :=
  first
    [ apply wok_call_write; callok
    | apply wokP_call;
      [ callok
      | intros ?; cbv zeta; repeat apply wokP_lit;
        first [ apply wokP_write_end | apply wokP_write ] ] ].

Ltac wstep :=
  lazymatch goal with
  | |- wok _ (bind (callIgnore _) _) => callstep
  | |- wok _ (bind (callE _) _) => callstep
  | |- wok _ (bind (call _) _) => callstep
  | |- wok _ (writeR _) => apply wok_writeR; ih
  | |- wok _ (if ?c then _ else _) => destruct c
  | |- wok _ (match ?o with _ => _ end) => destruct o
  | |- _ =>
      first
        [ apply wok_ret
        | apply wok_writeS
        | apply wok_sep
        | apply wok_writeIdents
        | apply wok_when
        | apply wok_forRange; intros ? ? ?
        | apply wok_forWrote; intros ? ?
        | apply wok_bind; [|intros ?]
        | ih ]
  end.

Ltac wsolve := repeat wstep.

Lemma limit_all (P : Expr -> Prop) (l : LimitClause_ Expr) :
  option_all (LimitClause__all P) (Some l) -> P (Count l) /\ P (Offset l).
Proof.
  apply (option_all_map _ (fun l => P (Count l) /\ P (Offset l))).
  intros x H. now destruct H.
Qed.

Lemma setOp_all (P : SelectStmt -> Prop) (c : SetOperation_ SelectStmt) :
  option_all (SetOperation__all P) (Some c) -> P (so_Right c).
Proof.
  apply (option_all_map _ (fun c => P (so_Right c))).
  intros x H. now destruct H.
Qed.

Lemma okT_renderWith_ (w : option WithClause) :
  option_all
    (WithClause__all
       (fun s => okR false (renderSelect s) /\ wok false (renderSetOps s)))
    w ->
  okT (renderWith_ target renderSelect w).
Proof.
  destruct w as [w|]; [|intros _; now apply okT_pure].
  intros H.
  assert (Hc : forall c, In c (CTEs w) ->
                okR false (renderSelect (cte_Subq c))).
  { refine (option_all_map _
              (fun w => forall c, In c (CTEs w) ->
                          okR false (renderSelect (cte_Subq c))) w _ H).
    intros x Hx. destruct Hx as [r ctes Hc]. cbn [CTEs].
    intros c Hc'. exact (proj1 (ctes_all _ _ Hc c Hc')). }
  unfold renderWith_. apply okT_runT. wsolve.
Qed.

#[local] Hint Resolve okT_renderWith_ : render.

Lemma okT_renderExpr_cases :
  (forall e, okT (renderExpr e)) /\
  (forall s, okR false (renderSelect s) /\ wok false (renderSetOps s)) /\
  (forall t, okT (renderTableRef t)).
Proof.
  apply tree_mutind.
  - (* ENil *) now apply okT_pure.
  - intros id. now apply okT_pure.
  - intros q. now apply okT_pure.
  - intros p. now apply okT_pure.
  - intros l. now apply okT_pure.
  - intros p. now apply okT_pure.
  - intros raw p. apply okT_renderParam.
  - (* BinaryExpr *)
    intros l IHl r IHr op p. cbn [sqlparser.renderExpr].
    apply okT_runT. wsolve.
  - intros e IHe op p. cbn [sqlparser.renderExpr].
    apply okT_runT. wsolve.
  - (* FuncCall *)
    intros name args IH distinct star p. cbn [sqlparser.renderExpr].
    pose proof (list_all_In _ _ IH) as IHa.
    apply okT_runT. wsolve.
  - (* CaseExpr *)
    intros operand IHo whens IH els IHe p. cbn [sqlparser.renderExpr].
    pose proof (whens_all _ _ IH) as IHw.
    apply okT_runT. wsolve.
  - (* BetweenExpr *)
    intros e IHe lo IHlo hi IHhi n p. cbn [sqlparser.renderExpr].
    apply okT_runT. wsolve.
  - (* InExpr *)
    intros e IHe lst IH subq IHs n p. cbn [sqlparser.renderExpr].
    pose proof (list_all_In _ _ IH) as IHa.
    apply okT_runT. wsolve.
  - (* LikeExpr *)
    intros e IHe pat IHp esc IHesc n p. cbn [sqlparser.renderExpr].
    apply okT_runT. wsolve.
  - (* IsNullExpr *)
    intros e IHe n p. cbn [sqlparser.renderExpr].
    apply okT_runT. wsolve.
  - (* ExistsExpr *)
    intros subq IHs n p. cbn [sqlparser.renderExpr].
    apply okT_runT. wsolve.
  - (* SubqueryExpr *)
    intros subq IHs p. cbn [sqlparser.renderExpr].
    apply okT_runT. wsolve.
  - (* CastExpr *)
    intros e IHe ty p. cbn [sqlparser.renderExpr].
    apply okT_runT. wsolve.
  - (* IntervalExpr *)
    intros e IHe u p. now apply okT_pure.
  - (* ESelect *)
    intros s IHs. cbn [sqlparser.renderExpr].
    apply okT_runT. wsolve.
  - (* SelectStmt *)
    intros w IHw distinct columns IHc from IHf where_ IHwh groupBy IHg
      having IHh orderBy IHo limit IHl setOp IHso p.
    pose proof (columns_all _ _ IHc) as IHc'.
    pose proof (list_all_In _ _ IHf) as IHf'.
    pose proof (list_all_In _ _ IHg) as IHg'.
    pose proof (orderBy_all _ _ IHo) as IHo'.
    assert (Hso : wok false
              (renderSetOps
                 (mkSelectStmt w distinct columns from where_ groupBy having
                    orderBy limit setOp p))).
    { cbn [sqlparser.renderSetOps sel_SetOp].
      destruct setOp as [cur|]; [|apply wok_ret].
      apply setOp_all in IHso.
      wsolve. }
    split; [|exact Hso].
    destruct limit as [lim|]; [apply limit_all in IHl|];
      (destruct setOp as [cur|]; [apply setOp_all in IHso|]);
    cbn [sqlparser.renderSelect sel_With sel_Distinct sel_Columns sel_From
           sel_Where sel_GroupBy sel_Having sel_OrderBy sel_Limit sel_SetOp];
      apply okR_run; wsolve.
  - (* TNil *) now apply okT_pure.
  - (* SimpleTable *)
    intros name alias. cbn [sqlparser.renderTableRef].
    apply okT_runT. wsolve.
  - (* SubqueryTable *)
    intros subq IHs alias p. cbn [sqlparser.renderTableRef].
    apply okT_runT. wsolve.
  - (* JoinTable *)
    intros l IHl r IHr kind on IHon using_ p. cbn [sqlparser.renderTableRef].
    apply okT_runT. wsolve.
Qed.

Lemma okT_renderExpr e : okT (renderExpr e).
Proof. apply okT_renderExpr_cases. Qed.

Lemma okR_renderSelect s : okR false (renderSelect s).
Proof. apply okT_renderExpr_cases. Qed.

Lemma okT_renderTableRef t : okT (renderTableRef t).
Proof. apply okT_renderExpr_cases. Qed.

#[local] Hint Resolve okT_renderExpr okR_renderSelect okT_renderTableRef
  : render.

Lemma okT_renderWith w : okT (renderWith w).
Proof.
  destruct w as [w|]; [|now apply okT_pure].
  unfold sqlparser.renderWith, renderWith_. apply okT_runT. wsolve.
Qed.

#[local] Hint Resolve okT_renderWith : render.

(** *** The statement renderers that cannot fail *)

Lemma okR_rendered F m : okT m -> okR F (rendered m).
Proof.
  intros H k. unfold rendered. specialize (H k).
  now destruct (m k) as [t k'].
Qed.

Lemma wok_writeAssignments F a :
  wok F (writeAssignments ToUpper EqualFold target a).
Proof. unfold writeAssignments. wsolve. Qed.

Lemma wok_writeOptions F o : wok F (writeOptions o).
Proof. unfold writeOptions. wsolve. Qed.

Lemma wok_writeTxOptions F o : wok F (writeTxOptions o).
Proof. unfold writeTxOptions. wsolve. Qed.

#[local] Hint Resolve wok_writeAssignments wok_writeOptions
  wok_writeTxOptions : render.

Ltac rsolve :=
  repeat match goal with
    | |- okT (if ?c then _ else _) => destruct c
    | |- okR _ (if ?c then _ else _) => destruct c
    | |- okT (match ?c with _ => _ end) => destruct c
    end;
  first [ now apply okT_pure
        | apply okT_runT; wsolve
        | apply okR_run; wsolve ].

Lemma okR_renderUpdate s :
  okR false (renderUpdate ToUpper EqualFold target s).
Proof. unfold renderUpdate. rsolve. Qed.

Lemma okR_renderDelete s :
  okR false (renderDelete ToUpper EqualFold target s).
Proof. unfold renderDelete. rsolve. Qed.

Lemma okT_renderColumnDef c :
  okT (renderColumnDef ToUpper EqualFold target c).
Proof. unfold renderColumnDef. rsolve. Qed.

Lemma okT_renderConstraint c : okT (renderConstraint target c).
Proof. unfold renderConstraint. rsolve. Qed.

#[local] Hint Resolve okT_renderColumnDef okT_renderConstraint : render.

Lemma okR_renderCreateTable s :
  okR false (renderCreateTable ToUpper EqualFold target s).
Proof. unfold renderCreateTable. rsolve. Qed.

Lemma okT_renderAlterCmd c :
  okT (renderAlterCmd ToUpper EqualFold target c).
Proof. unfold renderAlterCmd. rsolve. Qed.

#[local] Hint Resolve okT_renderAlterCmd : render.

Lemma okR_renderAlterTable s :
  okR false (renderAlterTable ToUpper EqualFold target s).
Proof. unfold renderAlterTable. rsolve. Qed.

Lemma okR_renderDropTable s : okR false (renderDropTable target s).
Proof. unfold renderDropTable. rsolve. Qed.

Lemma okR_renderCreateIndex s : okR false (renderCreateIndex target s).
Proof. unfold renderCreateIndex. rsolve. Qed.

Lemma okR_renderDropIndex s : okR false (renderDropIndex target s).
Proof. unfold renderDropIndex. rsolve. Qed.

Lemma okR_renderCreateView s :
  okR false (renderCreateView ToUpper EqualFold target s).
Proof. unfold renderCreateView. rsolve. Qed.

Lemma okR_renderCreateDatabase s :
  okR false (renderCreateDatabase target s).
Proof. unfold renderCreateDatabase. rsolve. Qed.

Lemma okR_renderAlterDatabase s : okR false (renderAlterDatabase target s).
Proof. unfold renderAlterDatabase. rsolve. Qed.

Lemma okR_renderDropDatabase s : okR false (renderDropDatabase target s).
Proof. unfold renderDropDatabase. rsolve. Qed.

Lemma okR_renderShow s : okR false (renderShow ToUpper EqualFold target s).
Proof. unfold renderShow. rsolve. Qed.

Lemma okR_renderCall s : okR false (renderCall ToUpper EqualFold target s).
Proof. unfold renderCall. rsolve. Qed.

Lemma okT_renderTx s : okT (renderTx ToUpper target s).
Proof. unfold renderTx. cbv zeta. rsolve. Qed.

Lemma okT_renderGenericDDL s : okT (renderGenericDDL ToUpper target s).
Proof. unfold renderGenericDDL. rsolve. Qed.

(** *** [renderInsert]: the statement, then the upsert clause *)

(** The body of [renderInsert] up to the [switch r.target], followed by
    [rest]. *)
Definition insertInto (s : InsertStmt) (rest : W unit) : W unit :=
  writeR (renderWith (ins_With s)) ;;;
  (if Replace s then writeS "REPLACE INTO "
   else
     writeS "INSERT " ;;;
     when (Ignore s && String.eqb target DialectMySQL)
       (writeS "IGNORE ") ;;;
     writeS "INTO ") ;;;
  writeS (renderQualifiedIdent target (ins_Table s)) ;;;
  when (nonEmpty (ins_Columns s)) (
    writeS " (" ;;; writeIdents target (ins_Columns s) ;;; writeS ")") ;;;
  (if nonEmpty (ins_Values s) then
     writeS " VALUES " ;;;
     forRange (ins_Values s) (fun i row =>
       sep i ", " ;;;
       writeS "(" ;;;
       forRange row (fun j e => sep j ", " ;;; writeR (renderExpr e)) ;;;
       writeS ")")
   else
     match ins_Select s with
     | Some sel =>
         sel <- callE (renderSelect sel) ;;
         writeS " " ;;; write sel
     | None => ret tt
     end) ;;;
  rest.

(** The [switch r.target] at the end of [renderInsert]. *)
Definition onConflict (s : InsertStmt) : W unit :=
  if String.eqb target DialectMySQL then
    let assign := OnDupKey s in
    let assign :=
      if negb (nonEmpty assign) then OnConflictUpdate s else assign in
    when (nonEmpty assign) (
      writeS " ON DUPLICATE KEY UPDATE " ;;;
      writeAssignments ToUpper EqualFold target assign)
  else if String.eqb target DialectPostgres
          || String.eqb target DialectSQLite then
    let tgt := OnConflictTarget s in
    let assign := OnConflictUpdate s in
    let doNothing := OnConflictDoNothing s in
    let assign :=
      if negb (nonEmpty assign) && nonEmpty (OnDupKey s)
      then OnDupKey s else assign in
    if nonEmpty assign || doNothing then
      tgt <- (if negb (nonEmpty tgt) && nonEmpty assign then
                match ins_Columns s with
                | c :: _ => ret [c]
                | [] =>
                    if strict then throw ErrNoConflictTarget else ret tgt
                end
              else ret tgt) ;;
      writeS " ON CONFLICT" ;;;
      when (nonEmpty tgt) (
        writeS " (" ;;; writeIdents target tgt ;;; writeS ")") ;;;
      if doNothing && negb (nonEmpty assign) then writeS " DO NOTHING"
      else writeS " DO UPDATE SET " ;;;
           writeAssignments ToUpper EqualFold target assign
    else ret tt
  else ret tt.

Lemma renderInsert_eq s :
  renderInsert ToUpper EqualFold target strict s
  = run (insertInto s (onConflict s)).
Proof. reflexivity. Qed.

Lemma bind_assoc {A B C} (m : W A) (f : A -> W B) (g : B -> W C) st :
  bind (bind m f) g st = bind m (fun x => bind (f x) g) st.
Proof. unfold bind. now destruct (m st) as [[a|e] st']. Qed.

Lemma bind_ext {A B} (m : W A) (f g : A -> W B) st :
  (forall x st', f x st' = g x st') -> bind m f st = bind m g st.
Proof. intros H. unfold bind. now destruct (m st) as [[a|e] st']. Qed.

Lemma insertInto_bind s rest st :
  insertInto s rest st = bind (insertInto s (ret tt)) (fun _ => rest) st.
Proof.
  symmetry. unfold insertInto.
  repeat (rewrite bind_assoc; apply bind_ext; intros ? ?).
  reflexivity.
Qed.

Lemma wok_insertInto F s rest : wok F rest -> wok F (insertInto s rest).
Proof. intros H. unfold insertInto. wsolve. Qed.

(** The statement part never fails. *)
Lemma insertInto_Done s k :
  exists h k1,
    insertInto s (ret tt) (k, []) = (Done tt, (k1, h)) /\ ph_ok k h k1.
Proof.
  pose proof (wok_insertInto false s (ret tt) (wok_ret false tt) k k []
                (ph_ok_plain k [] eq_refl)) as H.
  unfold text in *.
  destruct (insertInto s (ret tt) (k, [])) as [[[]|e] [k1 h]];
    [|discriminate].
  now exists h, k1.
Qed.

(** The upsert of [s] has assignments but neither a conflict target nor a
    column to make one from, and the target wants a conflict target. *)
Definition lacksConflictTarget (s : InsertStmt) : bool :=
  (String.eqb target DialectPostgres || String.eqb target DialectSQLite)
  && (nonEmpty (OnConflictUpdate s) || nonEmpty (OnDupKey s))
  && negb (nonEmpty (OnConflictTarget s))
  && negb (nonEmpty (ins_Columns s)).

Lemma not_MySQL :
  String.eqb target DialectPostgres || String.eqb target DialectSQLite
  = true ->
  String.eqb target DialectMySQL = false.
Proof.
  intros H. apply String.eqb_neq. intros ->. discriminate H.
Qed.

Lemma wok_throw_if F {A} e : F = true -> wok F (@throw A e).
Proof. intros -> k0 k b _. reflexivity. Qed.

Lemma wok_onConflict s :
  wok (strict && lacksConflictTarget s) (onConflict s).
Proof.
  unfold onConflict, lacksConflictTarget. cbv zeta.
  destruct (String.eqb target DialectMySQL); [wsolve|].
  destruct (String.eqb target DialectPostgres
            || String.eqb target DialectSQLite); [|apply wok_ret].
  cbn [andb].
  match goal with
  | |- wok _ (if ?c then _ else _) => destruct c; [|apply wok_ret]
  end.
  apply wok_bind; [|intros tgt; wsolve].
  destruct (OnConflictTarget s) as [|t ts]; cbn [nonEmpty negb andb];
    [|apply wok_ret].
  destruct (OnConflictUpdate s) as [|u us], (OnDupKey s) as [|d ds];
    cbn [nonEmpty negb andb orb]; try apply wok_ret;
    (destruct (ins_Columns s) as [|c cs]; [|apply wok_ret]);
    (destruct strict; [|apply wok_ret]);
    now apply wok_throw_if.
Qed.

Lemma okR_renderInsert s :
  okR (strict && lacksConflictTarget s)
    (renderInsert ToUpper EqualFold target strict s).
Proof.
  rewrite renderInsert_eq. apply okR_run, wok_insertInto, wok_onConflict.
Qed.

Lemma onConflict_fails s st :
  strict = true -> lacksConflictTarget s = true ->
  onConflict s st = (Fail ErrNoConflictTarget, st).
Proof.
  unfold lacksConflictTarget, onConflict. intros -> H. cbv zeta.
  apply andb_prop in H. destruct H as [H Hc].
  apply andb_prop in H. destruct H as [H Ht].
  apply andb_prop in H. destruct H as [Hd Ha].
  rewrite (not_MySQL Hd), Hd.
  destruct (OnConflictTarget s); [|discriminate Ht].
  destruct (ins_Columns s); [|discriminate Hc].
  destruct (OnConflictUpdate s), (OnDupKey s); try discriminate Ha;
    reflexivity.
Qed.

Lemma renderInsert_fails s k :
  strict = true -> lacksConflictTarget s = true ->
  exists k1,
    renderInsert ToUpper EqualFold target strict s k
    = (Failed ErrNoConflictTarget, k1).
Proof.
  intros Hs Hl. rewrite renderInsert_eq. unfold run.
  rewrite insertInto_bind. unfold bind.
  destruct (insertInto_Done s k) as [h [k1 [E _]]].
  unfold text in *. rewrite E, (onConflict_fails s _ Hs Hl).
  now exists k1.
Qed.

(** *** Statements *)

Local Abbreviation renderStatement :=
  (renderStatement ToUpper EqualFold target strict).
Local Abbreviation renderStatements :=
  (renderStatements ToUpper EqualFold target strict).
Local Abbreviation ConvertStatements :=
  (ConvertStatements ToUpper EqualFold target strict).

(** The statements on which the renderer gives up in strict mode: a
    statement type outside its type switch, an upsert without a conflict
    target, and [EXPLAIN] of one of these. *)
Fixpoint unrenderable (stmt : Statement) : bool :=
  match stmt with
  | SOther _ => true
  | SInsert s => lacksConflictTarget s
  | SExplain inner _ => unrenderable inner
  | _ => false
  end.

Lemma wok_mono (F G : bool) {A} (m : W A) :
  (F = true -> G = true) -> wok F m -> wok G m.
Proof.
  intros FG H k0 k b Hb. specialize (H k0 k b Hb).
  destruct (m (k, b)) as [[a|e] [k' b']]; [assumption | now apply FG].
Qed.

Lemma okR_renderStatement stmt :
  okR (strict && unrenderable stmt) (renderStatement stmt).
Proof.
  induction stmt; cbn [sqlparser.renderStatement unrenderable];
    try (apply okR_weaken;
         first [ apply okR_renderSelect | apply okR_renderUpdate
               | apply okR_renderDelete | apply okR_renderCreateTable
               | apply okR_renderAlterTable | apply okR_renderDropTable
               | apply okR_renderCreateIndex | apply okR_renderDropIndex
               | apply okR_renderCreateView | apply okR_renderCreateDatabase
               | apply okR_renderAlterDatabase | apply okR_renderDropDatabase
               | apply okR_renderShow | apply okR_renderCall ]).
  - apply okR_renderInsert.
  - apply okR_rendered. now apply okT_pure.
  - apply okR_rendered. now apply okT_pure.
  - apply okR_run. wsolve.
  - apply okR_rendered, okT_renderTx.
  - apply okR_rendered, okT_renderGenericDDL.
  - intros k. destruct strict; cbn [andb]; [reflexivity|].
    now apply ph_ok_plain.
Qed.

Lemma renderStatement_fails stmt k :
  strict = true -> unrenderable stmt = true ->
  exists e k1, renderStatement stmt k = (Failed e, k1).
Proof.
  intros Hs. revert k.
  induction stmt; intros k Hu; cbn [unrenderable] in Hu;
    try discriminate Hu.
  - destruct (renderInsert_fails s k Hs Hu) as [k1 E].
    now exists ErrNoConflictTarget, k1.
  - destruct (IHstmt k Hu) as [e [k1 E]].
    exists e, k1. cbn [sqlparser.renderStatement].
    unfold run, bind, callE. now rewrite E.
  - exists (ErrUnsupported typeName), k. cbn [sqlparser.renderStatement].
    now rewrite Hs.
Qed.

Lemma wok_statement i stmt :
  wok (strict && unrenderable stmt)
    (sep i "; " ;;; s <- callE (renderStatement stmt) ;; write s).
Proof. pose proof (okR_renderStatement stmt). wsolve. Qed.

Lemma okR_renderStatements stmts :
  okR (strict && existsb unrenderable stmts) (renderStatements stmts).
Proof.
  unfold sqlparser.renderStatements. apply okR_run, wok_forRange.
  intros i x Hx. apply (wok_mono (strict && unrenderable x));
    [|apply wok_statement].
  intros H. apply andb_prop in H. destruct H as [-> H]. cbn [andb].
  apply existsb_exists. now exists x.
Qed.

Lemma forRange_fails (f : nat -> Statement -> W unit) :
  (forall i x st, unrenderable x = true ->
     exists e st', f i x st = (Fail e, st')) ->
  forall l i st, existsb unrenderable l = true ->
    exists e st',
      (fix go (i : nat) (l : list Statement) {struct l} : W unit :=
         match l with
         | [] => ret tt
         | x :: xs => f i x ;;; go (S i) xs
         end) i l st = (Fail e, st').
Proof.
  intros Hf. induction l as [|x xs IH]; intros i st Hl; [discriminate Hl|].
  cbn [existsb] in Hl. unfold bind at 1.
  destruct (f i x st) as [[[]|e] st'] eqn:E.
  - destruct (unrenderable x) eqn:Ux.
    + destruct (Hf i x st Ux) as [e [st2 E2]]. congruence.
    + now apply IH.
  - now exists e, st'.
Qed.

Lemma renderStatements_fails stmts k :
  strict = true -> existsb unrenderable stmts = true ->
  exists e k1, renderStatements stmts k = (Failed e, k1).
Proof.
  intros Hs Hu. unfold sqlparser.renderStatements, run, forRange.
  destruct (forRange_fails
              (fun i stmt =>
                 sep i "; " ;;; s <- callE (renderStatement stmt) ;; write s))
    with (l := stmts) (i := 0%nat) (st := (k, @nil piece))
    as [e [[k1 b1] E]]; [|exact Hu|].
  - intros i x [k0 b0] Hx. unfold bind at 1.
    assert (Es : exists b, sep i "; " (k0, b0) = (Done tt, (k0, b))).
    { unfold sep, when. destruct (0 <? i)%nat; eexists; reflexivity. }
    destruct Es as [b ->].
    destruct (renderStatement_fails x k0 Hs Hx) as [e [k1 E]].
    exists e, (k1, b). unfold bind, callE. now rewrite E.
  - unfold text in *. rewrite E. now exists e, k1.
Qed.

(** *** Bodies that only append to the builder *)

Definition framed (m : W unit) : Prop :=
  forall k, exists t k', forall b, m (k, b) = (Done tt, (k', b ++ t)).

Lemma framed_ret : framed (ret tt).
Proof. intros k. exists [], k. intros b. now rewrite app_nil_r. Qed.

Lemma framed_writeS s : framed (writeS s).
Proof. intros k. now exists (T s), k. Qed.

Lemma framed_writeR m : framed (writeR m).
Proof.
  intros k. destruct (m k) as [t k'] eqn:E. exists t, k'. intros b.
  unfold writeR, bind, call. now rewrite E.
Qed.

Lemma framed_bind m1 m2 : framed m1 -> framed m2 -> framed (m1 ;;; m2).
Proof.
  intros H1 H2 k. destruct (H1 k) as [t1 [k1 E1]].
  destruct (H2 k1) as [t2 [k2 E2]]. exists (t1 ++ t2), k2. intros b.
  unfold bind. now rewrite E1, E2, app_assoc.
Qed.

Lemma framed_sep i s : framed (sep i s).
Proof.
  unfold sep, when. destruct (0 <? i)%nat;
    [apply framed_writeS | apply framed_ret].
Qed.

Lemma framed_forRange {A} (l : list A) (f : nat -> A -> W unit) :
  (forall i x, framed (f i x)) -> framed (forRange l f).
Proof.
  intros Hf. unfold forRange. generalize 0%nat.
  induction l as [|x xs IH]; intros i; [apply framed_ret|].
  apply framed_bind; [apply Hf | apply IH].
Qed.

Lemma framed_writeAssignments a :
  framed (writeAssignments ToUpper EqualFold target a).
Proof.
  unfold writeAssignments. apply framed_forRange. intros i x.
  repeat first [ apply framed_bind | apply framed_sep
               | apply framed_writeS | apply framed_writeR ].
Qed.

(** *** An upsert that comes from [ON DUPLICATE KEY UPDATE] alone *)

(** The statement [s] without its [ON DUPLICATE KEY UPDATE] clause. *)
Definition withoutOnDupKey (s : InsertStmt) : InsertStmt :=
  mkInsertStmt (ins_With s) (ins_Table s) (ins_Columns s) (ins_Values s)
    (ins_Select s) [] (OnConflictTarget s) (OnConflictDoNothing s)
    (OnConflictUpdate s) (Ignore s) (Replace s) (ins_TokPos s).

Lemma onConflict_none s st :
  OnConflictUpdate s = [] -> OnConflictDoNothing s = false ->
  onConflict (withoutOnDupKey s) st = (Done tt, st).
Proof.
  intros Hu Hn. unfold onConflict, withoutOnDupKey.
  cbn [OnDupKey OnConflictUpdate OnConflictDoNothing OnConflictTarget
       ins_Columns].
  rewrite Hu, Hn. cbn [nonEmpty negb andb orb].
  now destruct (String.eqb target DialectMySQL),
    (String.eqb target DialectPostgres || String.eqb target DialectSQLite).
Qed.

Lemma renderInsert_withoutOnDupKey s k h k1 :
  OnConflictUpdate s = [] -> OnConflictDoNothing s = false ->
  insertInto s (ret tt) (k, []) = (Done tt, (k1, h)) ->
  renderInsert ToUpper EqualFold target strict (withoutOnDupKey s) k
  = (Rendered h, k1).
Proof.
  intros Hu Hn E. rewrite renderInsert_eq. unfold run.
  rewrite insertInto_bind. unfold bind.
  change (insertInto (withoutOnDupKey s) (ret tt))
    with (insertInto s (ret tt)).
  unfold text in *. rewrite E. now rewrite (onConflict_none s _ Hu Hn).
Qed.

(** C7. Rendering for PostgreSQL or SQLite an INSERT whose only upsert
    information is a list of ON DUPLICATE KEY UPDATE assignments: after the
    text [h] of the statement itself (what the same statement renders to
    without the clause), the renderer writes [ON CONFLICT (c) DO UPDATE
    SET] and the assignments, [c] being the first column of the column
    list.  Without a column list it fails in strict mode, and writes
    [ON CONFLICT DO UPDATE SET] and the assignments otherwise. *)
Theorem on_duplicate_key_becomes_on_conflict (s : InsertStmt) (k : Z) :
  target = DialectPostgres \/ target = DialectSQLite ->
  OnConflictTarget s = [] ->
  OnConflictUpdate s = [] ->
  OnConflictDoNothing s = false ->
  OnDupKey s <> [] ->
  exists h k1,
    renderInsert ToUpper EqualFold target strict (withoutOnDupKey s) k
    = (Rendered h, k1) /\
    let (a, k2) :=
      runT (writeAssignments ToUpper EqualFold target (OnDupKey s)) k1 in
    match ins_Columns s with
    | c :: _ =>
        renderInsert ToUpper EqualFold target strict s k
        = (Rendered
             (h ++ T " ON CONFLICT" ++ T " (" ++ T (renderIdent (Some c))
                ++ T ")" ++ T " DO UPDATE SET " ++ a), k2)
    | [] =>
        if strict
        then renderInsert ToUpper EqualFold target strict s k
             = (Failed ErrNoConflictTarget, k1)
        else renderInsert ToUpper EqualFold target strict s k
             = (Rendered
                  (h ++ T " ON CONFLICT" ++ T " DO UPDATE SET " ++ a), k2)
    end.
Proof.
  intros Ht Hc Hu Hn Hd.
  assert (Hpg : String.eqb target DialectPostgres
                || String.eqb target DialectSQLite = true).
  { destruct Ht as [-> | ->]; reflexivity. }
  destruct (insertInto_Done s k) as [h [k1 [E _]]].
  exists h, k1. split.
  { now apply renderInsert_withoutOnDupKey. }
  destruct (framed_writeAssignments (OnDupKey s) k1) as [a [k2 Ha]].
  unfold runT. unfold text in *. rewrite (Ha []). cbn [app].
  assert (Er : renderInsert ToUpper EqualFold target strict s k
               = match onConflict s (k1, h) with
                 | (Done _, (k', b)) => (Rendered b, k')
                 | (Fail e, (k', _)) => (Failed e, k')
                 end).
  { rewrite renderInsert_eq. unfold run. rewrite insertInto_bind.
    unfold bind at 1. unfold text in *. now rewrite E. }
  rewrite !Er. clear Er.
  unfold onConflict. rewrite (not_MySQL Hpg), Hpg, Hc, Hu, Hn.
  destruct (OnDupKey s) as [|d ds] eqn:Ed; [now contradiction Hd|].
  cbv zeta. cbn [nonEmpty negb andb orb].
  destruct (ins_Columns s) as [|c cs].
  - destruct strict.
    + reflexivity.
    + cbv [bind ret writeS write when nonEmpty].
      rewrite Ha. now rewrite <- !app_assoc.
  - cbv [bind ret writeS write when writeIdents forRange sep nonEmpty
         Nat.ltb Nat.leb].
    rewrite Ha. now rewrite <- !app_assoc.
Qed.

(** C6. Rendering a statement list returns an error exactly when the
    renderer is strict and the list holds a statement outside the type
    switch or an upsert that lacks a conflict target (possibly under
    [EXPLAIN]); when it is not strict it always returns a text. *)
Theorem error_iff_strict_and_unrenderable (stmts : list Statement) :
  ((exists e, ConvertStatements stmts = Failed e)
   <-> strict = true /\ existsb unrenderable stmts = true)
  /\ (strict = false -> exists t, ConvertStatements stmts = Rendered t).
Proof.
  unfold sqlparser.ConvertStatements.
  pose proof (okR_renderStatements stmts 0%Z) as Hok.
  split; [split|].
  - intros [e He].
    destruct (renderStatements stmts 0%Z) as [[t'|e'] k'];
      [discriminate He|].
    now apply andb_prop in Hok.
  - intros [Hs Hu].
    destruct (renderStatements_fails stmts 0%Z Hs Hu) as [e [k1 E]].
    exists e. now rewrite E.
  - intros Hs.
    destruct (renderStatements stmts 0%Z) as [[t'|e'] k'];
      [now exists t'|].
    rewrite Hs in Hok. discriminate Hok.
Qed.

(** *** Further properties of the renderer *)

(** X17. [renderSelect] never returns an error, whatever the statement, the
    target and the parameter index: the callers that drop its error
    ([sub, _ := r.renderSelect(...)]) lose nothing. *)
Theorem renderSelect_never_fails (s : SelectStmt) (k : Z) :
  exists t k', renderSelect s k = (Rendered t, k').
Proof.
  pose proof (okR_renderSelect s k) as H.
  destruct (renderSelect s k) as [[t|e] k']; [eauto | discriminate H].
Qed.

(** **** Chains of set operations *)

(** The body of [renderSelect] up to the loop over the set operations,
    followed by [rest]. *)
Definition selectBody (s : SelectStmt) (rest : W unit) : W unit :=
  writeR (renderWith (sel_With s)) ;;;
  writeS "SELECT " ;;;
  when (sel_Distinct s) (writeS "DISTINCT ") ;;;
  forRange (sel_Columns s) (fun i c =>
    sep i ", " ;;;
    (if sc_Star c then writeS "*"
     else writeR (renderExpr (sc_Expr c))) ;;;
    match sc_Alias c with
    | Some _ => writeS " AS " ;;; writeS (renderIdent (sc_Alias c))
    | None => ret tt
    end) ;;;
  when (nonEmpty (sel_From s)) (
    writeS " FROM " ;;;
    forRange (sel_From s) (fun i tr =>
      sep i ", " ;;; writeR (renderTableRef tr))) ;;;
  when (negb (isNil (sel_Where s))) (
    writeS " WHERE " ;;; writeR (renderExpr (sel_Where s))) ;;;
  when (nonEmpty (sel_GroupBy s)) (
    writeS " GROUP BY " ;;;
    forRange (sel_GroupBy s) (fun i e =>
      sep i ", " ;;; writeR (renderExpr e))) ;;;
  when (negb (isNil (sel_Having s))) (
    writeS " HAVING " ;;; writeR (renderExpr (sel_Having s))) ;;;
  when (nonEmpty (sel_OrderBy s)) (
    writeS " ORDER BY " ;;;
    forRange (sel_OrderBy s) (fun i it =>
      sep i ", " ;;;
      writeR (renderExpr (ob_Expr it)) ;;;
      (if ob_Desc it then writeS " DESC" else writeS " ASC"))) ;;;
  match sel_Limit s with
  | Some lim =>
      writeS " LIMIT " ;;;
      writeR (renderExpr (Count lim)) ;;;
      when (negb (isNil (Offset lim))) (
        writeS " OFFSET " ;;; writeR (renderExpr (Offset lim)))
  | None => ret tt
  end ;;;
  rest.

Lemma renderSelect_eq s :
  renderSelect s = run (selectBody s (renderSetOps s)).
Proof. destruct s. reflexivity. Qed.

Lemma selectBody_bind s rest st :
  selectBody s rest st = bind (selectBody s (ret tt)) (fun _ => rest) st.
Proof.
  symmetry. unfold selectBody.
  repeat (rewrite bind_assoc; apply bind_ext; intros ? ?).
  reflexivity.
Qed.

Lemma wok_selectBody F s rest : wok F rest -> wok F (selectBody s rest).
Proof. intros H. unfold selectBody. wsolve. Qed.

Lemma selectBody_Done s k :
  exists h k1, selectBody s (ret tt) (k, []) = (Done tt, (k1, h)).
Proof.
  pose proof (wok_selectBody false s (ret tt) (wok_ret false tt) k k []
                (ph_ok_plain k [] eq_refl)) as H.
  unfold text in *.
  destruct (selectBody s (ret tt) (k, [])) as [[[]|e] [k1 h]];
    [|discriminate].
  now exists h, k1.
Qed.

(** The select [s] without its set operations. *)
Definition withoutSetOp (s : SelectStmt) : SelectStmt :=
  mkSelectStmt (sel_With s) (sel_Distinct s) (sel_Columns s) (sel_From s)
    (sel_Where s) (sel_GroupBy s) (sel_Having s) (sel_OrderBy s)
    (sel_Limit s) None (sel_TokPos s).

Lemma renderSelect_withoutSetOp s k h k1 :
  selectBody s (ret tt) (k, []) = (Done tt, (k1, h)) ->
  renderSelect (withoutSetOp s) k = (Rendered h, k1).
Proof.
  intros E. rewrite renderSelect_eq. unfold run.
  rewrite selectBody_bind. unfold bind.
  change (selectBody (withoutSetOp s) (ret tt))
    with (selectBody s (ret tt)).
  unfold text in *. now rewrite E.
Qed.

(** What the loop writes before the right-hand side of a set operation. *)
Definition link (c : SetOperation) : text :=
  T " " ++ T (setOpString (so_Op c))
  ++ (if so_All c then T " ALL" else []) ++ T " ".

(** One turn of the loop: the right-hand select is rendered by
    [renderSelect], set operations of its own included, and the loop goes
    on with the set operation of that select. *)
Lemma renderSetOps_turn x c k b t k1 :
  sel_SetOp x = Some c ->
  renderSelect (so_Right c) k = (Rendered t, k1) ->
  renderSetOps x (k, b) = renderSetOps (so_Right c) (k1, b ++ link c ++ t).
Proof.
  intros Hx Hr. destruct x as [w d cs f wh g hv o l so p].
  cbn [sel_SetOp] in Hx. subst so.
  cbn [sqlparser.renderSetOps sel_SetOp].
  unfold link.
  destruct (so_All c); cbv [bind writeS write when callE ret];
    rewrite Hr; do 2 f_equal; now rewrite <- !app_assoc.
Qed.

Lemma renderSetOps_end x st :
  sel_SetOp x = None -> renderSetOps x st = (Done tt, st).
Proof.
  intros Hx. destruct x as [w d cs f wh g hv o l so p].
  cbn [sel_SetOp] in Hx. subst so. reflexivity.
Qed.

Lemma renderSelect_split s k h k1 :
  selectBody s (ret tt) (k, []) = (Done tt, (k1, h)) ->
  renderSelect s k
  = match renderSetOps s (k1, h) with
    | (Done _, (k', b)) => (Rendered b, k')
    | (Fail e, (k', _)) => (Failed e, k')
    end.
Proof.
  intros E. rewrite renderSelect_eq. unfold run.
  rewrite selectBody_bind. unfold bind at 1.
  unfold text in *. now rewrite E.
Qed.

(** X18. For a chain of two set operations, [s op1 r1 op2 r2] as the parser
    links it ([s.SetOp.Right = r1], [r1.SetOp.Right = r2]), [renderSelect]
    writes [r2] twice: once inside the text of [r1], which [renderSelect]
    renders with its own set operation, and once more when the loop moves
    on to the set operation of [r1]. *)
Theorem setop_chain_renders_last_select_twice
    (s : SelectStmt) (c1 c2 : SetOperation) (k : Z) :
  sel_SetOp s = Some c1 ->
  sel_SetOp (so_Right c1) = Some c2 ->
  sel_SetOp (so_Right c2) = None ->
  exists h k1 h1 k2 t2 k3 t2' k4,
    renderSelect (withoutSetOp s) k = (Rendered h, k1) /\
    renderSelect (withoutSetOp (so_Right c1)) k1 = (Rendered h1, k2) /\
    renderSelect (so_Right c2) k2 = (Rendered t2, k3) /\
    renderSelect (so_Right c2) k3 = (Rendered t2', k4) /\
    renderSelect s k
    = (Rendered
         (h ++ link c1 ++ (h1 ++ link c2 ++ t2) ++ link c2 ++ t2'), k4).
Proof.
  intros H1 H2 H3.
  destruct (selectBody_Done s k) as [h [k1 E]].
  destruct (selectBody_Done (so_Right c1) k1) as [h1 [k2 E1]].
  destruct (renderSelect_never_fails (so_Right c2) k2) as [t2 [k3 R2]].
  destruct (renderSelect_never_fails (so_Right c2) k3) as [t2' [k4 R2']].
  exists h, k1, h1, k2, t2, k3, t2', k4.
  assert (R1 : renderSelect (so_Right c1) k1
               = (Rendered (h1 ++ link c2 ++ t2), k3)).
  { rewrite (renderSelect_split _ _ _ _ E1).
    rewrite (renderSetOps_turn _ _ _ _ _ _ H2 R2).
    now rewrite (renderSetOps_end _ _ H3). }
  repeat split; try assumption; try now apply renderSelect_withoutSetOp.
  rewrite (renderSelect_split _ _ _ _ E).
  rewrite (renderSetOps_turn _ _ _ _ _ _ H1 R1).
  rewrite (renderSetOps_turn _ _ _ _ _ _ H2 R2').
  rewrite (renderSetOps_end _ _ H3). now rewrite <- !app_assoc.
Qed.

(** **** The other upserts *)

(** The statement [s] without any upsert clause. *)
Definition withoutUpsert (s : InsertStmt) : InsertStmt :=
  mkInsertStmt (ins_With s) (ins_Table s) (ins_Columns s) (ins_Values s)
    (ins_Select s) [] [] false [] (Ignore s) (Replace s) (ins_TokPos s).

Lemma renderInsert_withoutUpsert s k h k1 :
  insertInto s (ret tt) (k, []) = (Done tt, (k1, h)) ->
  renderInsert ToUpper EqualFold target strict (withoutUpsert s) k
  = (Rendered h, k1).
Proof.
  intros E. rewrite renderInsert_eq. unfold run.
  rewrite insertInto_bind. unfold bind.
  change (insertInto (withoutUpsert s) (ret tt))
    with (insertInto s (ret tt)).
  unfold text in *. rewrite E. unfold onConflict, withoutUpsert.
  cbn [OnDupKey OnConflictUpdate OnConflictDoNothing OnConflictTarget
       ins_Columns nonEmpty negb andb orb].
  now destruct (String.eqb target DialectMySQL),
    (String.eqb target DialectPostgres || String.eqb target DialectSQLite).
Qed.

Lemma renderInsert_split s k h k1 :
  insertInto s (ret tt) (k, []) = (Done tt, (k1, h)) ->
  renderInsert ToUpper EqualFold target strict s k
  = match onConflict s (k1, h) with
    | (Done _, (k', b)) => (Rendered b, k')
    | (Fail e, (k', _)) => (Failed e, k')
    end.
Proof.
  intros E. rewrite renderInsert_eq. unfold run. rewrite insertInto_bind.
  unfold bind at 1. unfold text in *. now rewrite E.
Qed.

(** X19. With target MySQL an INSERT is never refused.  Its assignments, the
    [ON DUPLICATE KEY UPDATE] ones or else those of [ON CONFLICT ... DO
    UPDATE], are written after the statement as [ON DUPLICATE KEY UPDATE];
    the conflict target and [DO NOTHING] are dropped, so an
    [ON CONFLICT DO NOTHING] leaves no trace in the output. *)
Theorem mysql_upsert_is_on_duplicate_key (s : InsertStmt) (k : Z) :
  target = DialectMySQL ->
  exists h k1,
    renderInsert ToUpper EqualFold target strict (withoutUpsert s) k
    = (Rendered h, k1) /\
    let assign :=
      if nonEmpty (OnDupKey s) then OnDupKey s else OnConflictUpdate s in
    let (a, k2) :=
      runT (writeAssignments ToUpper EqualFold target assign) k1 in
    renderInsert ToUpper EqualFold target strict s k
    = if nonEmpty assign
      then (Rendered (h ++ T " ON DUPLICATE KEY UPDATE " ++ a), k2)
      else (Rendered h, k1).
Proof.
  intros Ht. destruct (insertInto_Done s k) as [h [k1 [E _]]].
  exists h, k1. split; [now apply renderInsert_withoutUpsert|].
  cbv zeta.
  destruct (framed_writeAssignments
              (if nonEmpty (OnDupKey s) then OnDupKey s
               else OnConflictUpdate s) k1) as [a [k2 Ha]].
  unfold runT. unfold text in *. rewrite (Ha []). cbn [app].
  rewrite (renderInsert_split _ _ _ _ E). unfold onConflict.
  rewrite Ht in Ha |- *. rewrite String.eqb_refl. cbv zeta.
  destruct (OnDupKey s) as [|d ds]; cbn [nonEmpty negb] in *.
  - destruct (OnConflictUpdate s) as [|u us]; cbn [nonEmpty when];
      [reflexivity|].
    cbv [bind writeS write]. rewrite Ha. now rewrite <- !app_assoc.
  - cbn [when]. cbv [bind writeS write]. rewrite Ha.
    now rewrite <- !app_assoc.
Qed.

(** Bodies that write a text that does not depend on the state. *)
Definition constant (m : W unit) : Prop :=
  exists t, forall k b, m (k, b) = (Done tt, (k, b ++ t)).

Lemma constant_ret : constant (ret tt).
Proof. exists []. intros k b. now rewrite app_nil_r. Qed.

Lemma constant_writeS s : constant (writeS s).
Proof. now exists (T s). Qed.

Lemma constant_bind m1 m2 :
  constant m1 -> constant m2 -> constant (m1 ;;; m2).
Proof.
  intros [t1 E1] [t2 E2]. exists (t1 ++ t2). intros k b.
  unfold bind. now rewrite E1, E2, app_assoc.
Qed.

Lemma constant_writeIdents ids : constant (writeIdents target ids).
Proof.
  unfold writeIdents, forRange. generalize 0%nat.
  induction ids as [|x xs IH]; intros i; [apply constant_ret|].
  apply constant_bind; [|apply IH].
  apply constant_bind; [|apply constant_writeS].
  unfold sep, when. destruct (0 <? i)%nat;
    [apply constant_writeS | apply constant_ret].
Qed.

(** X20. For PostgreSQL and SQLite an INSERT that has a conflict target is
    never refused.  After the statement come [ON CONFLICT (targets)] and
    [DO UPDATE SET] with the assignments (those of [DO UPDATE], or else
    those of [ON DUPLICATE KEY UPDATE]); without assignments
    [DO NOTHING] if the statement has it, and no clause at all if not. *)
Theorem on_conflict_with_target (s : InsertStmt) (k : Z) :
  target = DialectPostgres \/ target = DialectSQLite ->
  OnConflictTarget s <> [] ->
  exists h k1,
    renderInsert ToUpper EqualFold target strict (withoutUpsert s) k
    = (Rendered h, k1) /\
    let assign :=
      if nonEmpty (OnConflictUpdate s) then OnConflictUpdate s
      else OnDupKey s in
    let (a, k2) :=
      runT (writeAssignments ToUpper EqualFold target assign) k1 in
    let ids := fst (runT (writeIdents target (OnConflictTarget s)) k1) in
    renderInsert ToUpper EqualFold target strict s k
    = if nonEmpty assign
      then (Rendered
              (h ++ T " ON CONFLICT" ++ T " (" ++ ids ++ T ")"
                 ++ T " DO UPDATE SET " ++ a), k2)
      else if OnConflictDoNothing s
      then (Rendered
              (h ++ T " ON CONFLICT" ++ T " (" ++ ids ++ T ")"
                 ++ T " DO NOTHING"), k1)
      else (Rendered h, k1).
Proof.
  intros Ht Hc.
  assert (Hpg : String.eqb target DialectPostgres
                || String.eqb target DialectSQLite = true).
  { destruct Ht as [-> | ->]; reflexivity. }
  destruct (insertInto_Done s k) as [h [k1 [E _]]].
  exists h, k1. split; [now apply renderInsert_withoutUpsert|].
  cbv zeta.
  destruct (framed_writeAssignments
              (if nonEmpty (OnConflictUpdate s) then OnConflictUpdate s
               else OnDupKey s) k1) as [a [k2 Ha]].
  destruct (constant_writeIdents (OnConflictTarget s)) as [ids Hi].
  unfold runT. unfold text in *. rewrite (Ha []), (Hi k1 []). cbn [app fst].
  rewrite (renderInsert_split _ _ _ _ E). unfold onConflict.
  rewrite (not_MySQL Hpg), Hpg. cbv zeta.
  destruct (OnConflictTarget s) as [|c cs] eqn:Ec; [now contradiction Hc|].
  cbn [nonEmpty negb andb].
  destruct (OnConflictUpdate s) as [|u us], (OnDupKey s) as [|d ds];
    cbn [nonEmpty negb andb orb] in *;
    destruct (OnConflictDoNothing s); try reflexivity;
    cbv [bind ret writeS write when nonEmpty andb negb];
    rewrite ?Hi, ?Ha; now rewrite <- !app_assoc.
Qed.

(** **** Statement lists *)

(** The loop of [renderStatements], entered at index [i]. *)
Definition statementsFrom (i : nat) (stmts : list Statement) : W unit :=
  (fix go (i : nat) (l : list Statement) {struct l} : W unit :=
     match l with
     | [] => ret tt
     | x :: xs =>
         (sep i "; " ;;; s <- callE (renderStatement x) ;; write s) ;;;
         go (S i) xs
     end) i stmts.

Lemma renderStatements_eq stmts :
  renderStatements stmts = run (statementsFrom 0 stmts).
Proof. reflexivity. Qed.

Lemma statementsFrom_cons i x xs k b :
  statementsFrom i (x :: xs) (k, b)
  = match renderStatement x k with
    | (Rendered t, k1) =>
        statementsFrom (S i) xs
          (k1, b ++ (if (0 <? i)%nat then T "; " else []) ++ t)
    | (Failed e, k1) =>
        (Fail e, (k1, b ++ (if (0 <? i)%nat then T "; " else [])))
    end.
Proof.
  unfold statementsFrom at 1. fold (statementsFrom (S i) xs).
  cbv [bind sep when writeS write callE ret].
  destruct (0 <? i)%nat; destruct (renderStatement x k) as [[t|e] k1];
    cbn [app]; rewrite ?app_nil_r, <- ?app_assoc; reflexivity.
Qed.

(** Past the first statement the loop does the same at every index, and
    only appends to the builder. *)
Lemma statementsFrom_shift xs i j k b :
  (0 < i)%nat -> (0 < j)%nat ->
  statementsFrom i xs (k, b)
  = let '(o, (k', t)) := statementsFrom j xs (k, []) in (o, (k', b ++ t)).
Proof.
  revert i j k b. induction xs as [|x xs IH]; intros i j k b Hi Hj.
  - cbn. now rewrite app_nil_r.
  - rewrite !statementsFrom_cons.
    apply Nat.ltb_lt in Hi, Hj. rewrite Hi, Hj. cbn [app].
    destruct (renderStatement x k) as [[t|e] k1]; [|reflexivity].
    unfold text in *.
    rewrite (IH (S i) (S j) k1 (b ++ T "; " ++ t)) by lia.
    rewrite (IH (S j) (S j) k1 (T "; " ++ t)) by lia.
    destruct (statementsFrom (S j) xs (k1, [])) as [o [k' r]].
    now rewrite <- !app_assoc.
Qed.

(** X21. [renderStatements] renders the statements one after the other,
    each from the parameter index the one before has left, and joins
    their texts with ["; "]; the first error ends it. *)
Theorem renderStatements_cons (stmt : Statement) (rest : list Statement)
    (k : Z) :
  renderStatements [] k = (Rendered [], k) /\
  renderStatements (stmt :: rest) k
  = match renderStatement stmt k with
    | (Failed e, k1) => (Failed e, k1)
    | (Rendered a, k1) =>
        match rest with
        | [] => (Rendered a, k1)
        | _ :: _ =>
            match renderStatements rest k1 with
            | (Failed e, k2) => (Failed e, k2)
            | (Rendered b, k2) => (Rendered (a ++ T "; " ++ b), k2)
            end
        end
    end.
Proof.
  split; [reflexivity|].
  rewrite !renderStatements_eq. unfold run.
  rewrite statementsFrom_cons. cbn [Nat.ltb Nat.leb app].
  destruct (renderStatement stmt k) as [[a|e] k1]; [|reflexivity].
  destruct rest as [|x xs]; [reflexivity|].
  rewrite !statementsFrom_cons. cbn [Nat.ltb Nat.leb app].
  destruct (renderStatement x k1) as [[t|e] k2]; [|reflexivity].
  pose proof (statementsFrom_shift xs 2 1 k2 (a ++ T "; " ++ t)) as S2.
  pose proof (statementsFrom_shift xs 1 1 k2 t) as S1.
  unfold text in *. rewrite S2, S1 by lia.
  destruct (statementsFrom 1 xs (k2, [])) as [[[]|e] [k' r]];
    [|reflexivity].
  now rewrite <- !app_assoc.
Qed.

(** **** Quoted identifiers, from the parser to the renderer *)

Lemma str_app (a b : bytes) : str (a ++ b) = (str a ++ str b)%string.
Proof.
  unfold str. induction a as [|x a IH]; cbn; [reflexivity | now rewrite IH].
Qed.

Lemma str_inj (a b : bytes) : str a = str b -> a = b.
Proof.
  intros H. apply (f_equal list_ascii_of_string) in H.
  unfold str in H. now rewrite !list_ascii_of_string_of_list_ascii in H.
Qed.

Lemma ReplaceAll_length (s : string) (c : ascii) :
  (String.length s
   <= String.length
        (ReplaceAll s c (String.String c (String.String c EmptyString))))%nat.
Proof.
  induction s as [|x s IH]; cbn [ReplaceAll]; [reflexivity|].
  destruct (Ascii.eqb x c); cbn [String.append String.length]; lia.
Qed.

(** Doubling the delimiter changes a name exactly when the delimiter
    occurs in it. *)
Lemma ReplaceAll_id (body : bytes) (c : ascii) :
  ReplaceAll (str body) c (String.String c (String.String c EmptyString))
  = str body <-> ~ In c body.
Proof.
  induction body as [|x body IH]; cbn [str string_of_list_ascii ReplaceAll].
  - split; [intros _ [] | reflexivity].
  - fold (str body). destruct (Ascii.eqb x c) eqn:E.
    + apply Ascii.eqb_eq in E. subst x. split.
      * cbn [String.append]. intros H. injection H as H.
        pose proof (ReplaceAll_length (str body) c) as L.
        apply (f_equal String.length) in H. cbn [String.length] in H. lia.
      * intros H. exfalso. apply H. now left.
    + apply Ascii.eqb_neq in E. split.
      * intros H. injection H as H. intros [Hx|Hx]; [congruence|].
        now apply IH in H.
      * intros H. f_equal. apply IH. intros Hx. apply H. now right.
Qed.

Lemma unquote_quoted (q : byte) (body : bytes) :
  q = DQ \/ q = "`"%char ->
  parser.unquoteIdentArena (q :: body ++ [q]) = str body.
Proof.
  intros Hq. unfold parser.unquoteIdentArena.
  assert (L : List.length (q :: body ++ [q]) = S (S (List.length body))).
  { cbn [List.length]. rewrite length_app. cbn. lia. }
  unfold byte, bytes in *.
  rewrite L. cbn [Nat.ltb Nat.leb]. cbn [index nth Nat.sub].
  replace (nth (List.length body) (body ++ [q]) zero) with q.
  2: { rewrite app_nth2, Nat.sub_diag by lia. reflexivity. }
  rewrite Ascii.eqb_refl, andb_true_r.
  replace ((q =? "`")%char || (q =? DQ)%char) with true.
  2: { destruct Hq as [-> | ->]; reflexivity. }
  unfold slice, parser.bytesToString. cbn [skipn Nat.sub].
  rewrite Nat.sub_0_r.
  replace (List.length body) with (List.length body + 0)%nat at 1 by lia.
  rewrite firstn_app_2. cbn [firstn]. now rewrite app_nil_r.
Qed.

(** The identifier that the parser makes of the token [q body q]. *)
Definition quotedIdent (q : byte) (body : bytes) (p : Z) : Ident :=
  {| Raw := q :: body ++ [q];
     Unquoted := parser.unquoteIdentArena (q :: body ++ [q]);
     TokPos := p |}.

(** The bytes of [body] with every [q] written twice. *)
Definition doubled (q : byte) (body : bytes) : bytes :=
  flat_map (fun c => if Ascii.eqb c q then [q; q] else [c]) body.

Lemma ReplaceAll_doubled (body : bytes) (q : ascii) :
  ReplaceAll (str body) q (String.String q (String.String q EmptyString))
  = str (doubled q body).
Proof.
  induction body as [|x body IH];
    cbn [str string_of_list_ascii ReplaceAll doubled flat_map];
    [reflexivity|].
  fold (str body). fold (doubled q body). rewrite IH.
  destruct (Ascii.eqb x q); reflexivity.
Qed.

(** X22. An identifier written between the delimiters of the target: the
    parser keeps what stands between the delimiters as it is, a doubled
    delimiter included.  The renderer writes that name between the
    delimiters with every delimiter of the name doubled, but the name [*],
    which it writes bare.  So the renderer gives the source text back
    exactly when no delimiter occurs between the outer ones and the name
    is not [*]; a delimiter that was doubled in the source comes out four
    times. *)
Theorem quoted_ident_round_trip (q : byte) (body : bytes) (p : Z) :
  (q = DQ /\ target <> DialectMySQL)
  \/ (q = "`"%char /\ target = DialectMySQL) ->
  Unquoted (quotedIdent q body p) = str body
  /\ renderIdent (Some (quotedIdent q body p))
     = (if String.eqb (str body) "*" then "*"
        else str (q :: doubled q body ++ [q]))
  /\ (renderIdent (Some (quotedIdent q body p)) = str (q :: body ++ [q])
      <-> ~ In q body /\ str body <> "*").
Proof.
  intros Hq.
  assert (Hu : parser.unquoteIdentArena (q :: body ++ [q]) = str body).
  { apply unquote_quoted. destruct Hq as [[-> _]|[-> _]]; auto. }
  assert (Hw : forall x : bytes,
             str (q :: x ++ [q])
             = (String.String q EmptyString ++ str x
                ++ String.String q EmptyString)%string).
  { intros x. cbn [str string_of_list_ascii String.append].
    fold (str (x ++ [q])). now rewrite str_app. }
  assert (Hr : renderIdent (Some (quotedIdent q body p))
               = (if String.eqb (str body) "*" then "*"
                  else str (q :: doubled q body ++ [q]))).
  { unfold sqlparser.renderIdent, quotedIdent. cbn [Unquoted]. rewrite Hu.
    destruct (String.eqb (str body) "*"); [reflexivity|].
    rewrite Hw, <- ReplaceAll_doubled.
    destruct Hq as [[-> Ht]|[-> Ht]].
    - apply String.eqb_neq in Ht. now rewrite Ht.
    - now rewrite Ht, String.eqb_refl. }
  split; [exact Hu|]. split; [exact Hr|]. rewrite Hr.
  destruct (String.eqb (str body) "*") eqn:Es.
  - apply String.eqb_eq in Es. split.
    + rewrite Hw, Es. intros H. exfalso.
      destruct Hq as [[-> _]|[-> _]]; discriminate H.
    + intros [_ H]. contradiction.
  - apply String.eqb_neq in Es. rewrite <- ReplaceAll_id.
    split.
    + intros H. split; [|exact Es].
      apply str_inj in H. injection H as H. apply app_inv_tail in H.
      now rewrite ReplaceAll_doubled, H.
    + intros [H _]. rewrite ReplaceAll_doubled in H. apply str_inj in H.
      now rewrite H.
Qed.

End Facts.

(** *** The parameter nodes that are written

    The parameter nodes of a tree that the renderer writes, in the order
    in which it writes them, each with the bytes it has in the source.
    The traversal follows the tree, clause by clause in the order of the
    output.  It leaves out what the renderer does not write: the operand
    of an [INTERVAL], the arguments of a call that has the star flag, the
    list of an [IN] that has a subquery, the expression of a starred
    column, the [OFFSET] of an [UPDATE] or [DELETE], the [CHECK], [ON
    UPDATE] and generated expressions of a column and the [CHECK] of a
    table constraint, the columns and the select of [CREATE TABLE ...
    LIKE], the select of an [INSERT] that has rows, and of the two
    assignment lists of an upsert the one that the target does not use.
    And it takes more than once what the renderer writes more than once:
    the selects at the right of the second and the later operations of a
    chain of set operations. *)

Definition paramsWith_ (paramsSelect : SelectStmt -> list bytes)
  (w : option WithClause) : list bytes :=
  match w with
  | None => []
  | Some w => flat_map (fun cte => paramsSelect (cte_Subq cte)) (CTEs w)
  end.

Fixpoint paramsExpr (e : Expr) {struct e} : list bytes :=
  match e with
  | Param raw _ => [raw]
  | BinaryExpr lhs rhs _ _ => paramsExpr lhs ++ paramsExpr rhs
  | UnaryExpr e _ _ => paramsExpr e
  | FuncCall _ args _ star _ =>
      if star then [] else flat_map paramsExpr args
  | CaseExpr operand whens els _ =>
      paramsExpr operand
      ++ flat_map (fun w => paramsExpr (Cond w) ++ paramsExpr (Result w))
           whens
      ++ paramsExpr els
  | BetweenExpr e lo hi _ _ => paramsExpr e ++ paramsExpr lo ++ paramsExpr hi
  | InExpr e lst subq _ _ =>
      paramsExpr e
      ++ match subq with
         | Some sq => paramsSelect sq
         | None => flat_map paramsExpr lst
         end
  | LikeExpr e pattern escape _ _ =>
      paramsExpr e ++ paramsExpr pattern ++ paramsExpr escape
  | IsNullExpr e _ _ => paramsExpr e
  | ExistsExpr subq _ _ => paramsSelect subq
  | SubqueryExpr subq _ => paramsSelect subq
  | CastExpr e _ _ => paramsExpr e
  | ESelect s => paramsSelect s
  | ENil | EIdent _ | EQualifiedIdent _ | StarExpr _ | ELiteral _
  | NullLit _ | IntervalExpr _ _ _ => []
  end

with paramsSelect (s : SelectStmt) {struct s} : list bytes :=
  paramsWith_ paramsSelect (sel_With s)
  ++ flat_map (fun c => if sc_Star c then [] else paramsExpr (sc_Expr c))
       (sel_Columns s)
  ++ flat_map paramsTableRef (sel_From s)
  ++ paramsExpr (sel_Where s)
  ++ flat_map paramsExpr (sel_GroupBy s)
  ++ paramsExpr (sel_Having s)
  ++ flat_map (fun it => paramsExpr (ob_Expr it)) (sel_OrderBy s)
  ++ match sel_Limit s with
     | Some lim => paramsExpr (Count lim) ++ paramsExpr (Offset lim)
     | None => []
     end
  (* the select at the right of a set operation is rendered with the
     operations that hang on it, and the loop then goes through these
     again *)
  ++ (fix chain (x : SelectStmt) {struct x} : list bytes :=
        match sel_SetOp x with
        | None => []
        | Some cur => paramsSelect (so_Right cur) ++ chain (so_Right cur)
        end) s

with paramsTableRef (tr : TableRef) {struct tr} : list bytes :=
  match tr with
  | SubqueryTable subq _ _ => paramsSelect subq
  | JoinTable lhs rhs _ on _ _ =>
      paramsTableRef lhs ++ paramsTableRef rhs ++ paramsExpr on
  | TNil | SimpleTable _ _ => []
  end.

Definition paramsWith (w : option WithClause) : list bytes :=
  paramsWith_ paramsSelect w.

(** What the loop over the chain of set operations writes. *)
Fixpoint paramsSetOps (x : SelectStmt) : list bytes :=
  match sel_SetOp x with
  | None => []
  | Some cur => paramsSelect (so_Right cur) ++ paramsSetOps (so_Right cur)
  end.

Definition paramsAssignments (assign : list Assignment) : list bytes :=
  flat_map (fun a => paramsExpr (Value a)) assign.

Definition paramsOrder (order : list OrderByItem) : list bytes :=
  flat_map (fun o => paramsExpr (ob_Expr o)) order.

Definition paramsColumnDef (c : ColumnDef) : list bytes :=
  paramsExpr (col_Default c).

Definition paramsAlterCmd (cmd : AlterCmd) : list bytes :=
  match cmd with
  | AddColumnCmd col _ _ _ | ModifyColumnCmd col _ _ _ => paramsColumnDef col
  | _ => []
  end.

Section Written.

Variable target : Dialect.

(** The assignments that the upsert clause of an [INSERT] is written
    with, for the target. *)
Definition upsertAssignments (s : InsertStmt) : list Assignment :=
  if String.eqb target DialectMySQL then
    if nonEmpty (OnDupKey s) then OnDupKey s else OnConflictUpdate s
  else if String.eqb target DialectPostgres
          || String.eqb target DialectSQLite then
    if nonEmpty (OnConflictUpdate s) then OnConflictUpdate s else OnDupKey s
  else [].

Definition paramsInsert (s : InsertStmt) : list bytes :=
  paramsWith (ins_With s)
  ++ (if nonEmpty (ins_Values s)
      then flat_map (flat_map paramsExpr) (ins_Values s)
      else match ins_Select s with
           | Some sel => paramsSelect sel
           | None => []
           end)
  ++ paramsAssignments (upsertAssignments s).

Definition paramsUpdate (s : UpdateStmt) : list bytes :=
  paramsWith (upd_With s)
  ++ flat_map paramsTableRef (upd_Tables s)
  ++ paramsAssignments (upd_Set s)
  ++ paramsExpr (upd_Where s)
  ++ paramsOrder (upd_Order s)
  ++ match upd_Limit s with
     | Some lim => paramsExpr (Count lim)
     | None => []
     end.

Definition paramsDelete (s : DeleteStmt) : list bytes :=
  paramsWith (del_With s)
  ++ flat_map paramsTableRef (del_From s)
  ++ paramsExpr (del_Where s)
  ++ paramsOrder (del_Order s)
  ++ match del_Limit s with
     | Some lim => paramsExpr (Count lim)
     | None => []
     end.

Definition paramsCreateTable (s : CreateTableStmt) : list bytes :=
  match ct_Like s with
  | Some _ => []
  | None =>
      flat_map paramsColumnDef (ct_Columns s)
      ++ match ct_Select s with
         | Some sel => paramsSelect sel
         | None => []
         end
  end.

Fixpoint paramsStatement (stmt : Statement) : list bytes :=
  match stmt with
  | SSelect s => paramsSelect s
  | SInsert s => paramsInsert s
  | SUpdate s => paramsUpdate s
  | SDelete s => paramsDelete s
  | SCreateTable s => paramsCreateTable s
  | SAlterTable s => flat_map paramsAlterCmd (at_Cmds s)
  | SCreateView s => paramsSelect (cv_Select s)
  | SShow s => paramsExpr (show_Where s)
  | SExplain inner _ => paramsStatement inner
  | SCall s => flat_map paramsExpr (call_Args s)
  | _ => []
  end.


End Written.

(** *** All the parameter nodes

    Every parameter node of a tree, field by field, whether the renderer
    writes it or not. *)











(** *** Counting the placeholders of the output *)

Section Counting.

Variable ToUpper : string -> string.
Variable EqualFold : string -> string -> bool.
Variable target : Dialect.
Variable strict : bool.

Local Abbreviation renderExpr := (renderExpr ToUpper EqualFold target).
Local Abbreviation renderSelect := (renderSelect ToUpper EqualFold target).
Local Abbreviation renderTableRef :=
  (renderTableRef ToUpper EqualFold target).
Local Abbreviation renderSetOps := (renderSetOps ToUpper EqualFold target).
Local Abbreviation renderWith := (renderWith ToUpper EqualFold target).

(** The number of placeholders of a text. *)
Definition holes (t : text) : nat := List.length (placeholders t).

Lemma holes_app (a b : text) : holes (a ++ b) = (holes a + holes b)%nat.
Proof. unfold holes. now rewrite placeholders_app, length_app. Qed.

(** A function that returns a string: it has one placeholder for each
    element of [L]. *)
Definition cntT (m : R text) (L : list bytes) : Prop :=
  forall k, holes (fst (m k)) = List.length L.

(** The same for a function that returns [(string, error)]; it may fail
    only if [mayFail] holds. *)
Definition cntR (mayFail : bool) (m : R result) (L : list bytes) : Prop :=
  forall k,
    match m k with
    | (Rendered t, _) => holes t = List.length L
    | (Failed _, _) => mayFail = true
    end.

(** A function body: it adds one placeholder for each element of [L] to
    the builder. *)
Definition cntW (mayFail : bool) {A} (m : W A) (L : list bytes) : Prop :=
  forall k b,
    match m (k, b) with
    | (Done _, (_, b')) => holes b' = (holes b + List.length L)%nat
    | (Fail _, _) => mayFail = true
    end.

(** A call from a body: it leaves the builder alone. *)
Definition cntC (mayFail : bool) (c : W text) (L : list bytes) : Prop :=
  forall k b,
    match c (k, b) with
    | (Done t, (_, b')) => b' = b /\ holes t = List.length L
    | (Fail _, _) => mayFail = true
    end.

Lemma cntT_eq m L L' : cntT m L -> L = L' -> cntT m L'.
Proof. now intros H <-. Qed.

Lemma cntR_eq F m L L' : cntR F m L -> L = L' -> cntR F m L'.
Proof. now intros H <-. Qed.

Lemma cntW_eq F {A} (m : W A) L L' : cntW F m L -> L = L' -> cntW F m L'.
Proof. now intros H <-. Qed.

Lemma cntR_weaken F m L : cntR false m L -> cntR F m L.
Proof.
  intros H k. specialize (H k).
  destruct (m k) as [[t|e] k']; [assumption | discriminate].
Qed.

Lemma cntW_ret F {A} (a : A) : cntW F (ret a) [].
Proof. intros k b. cbn. lia. Qed.

Lemma cntW_throw {A} e : cntW true (@throw A e) [].
Proof. intros k b. reflexivity. Qed.

Lemma cntW_bind F {A B} (m : W A) (f : A -> W B) L1 L2 :
  cntW F m L1 -> (forall a, cntW F (f a) L2) -> cntW F (bind m f) (L1 ++ L2).
Proof.
  intros Hm Hf k b. unfold bind. specialize (Hm k b).
  destruct (m (k, b)) as [[a|e] [k' b']]; [|assumption].
  specialize (Hf a k' b').
  destruct (f a (k', b')) as [[x|e] [k2 b2]]; [|assumption].
  rewrite length_app. lia.
Qed.

(** A step that writes no placeholder, before or after the others. *)
Lemma cntW_skipl F {A B} (m : W A) (f : A -> W B) L :
  cntW F m [] -> (forall a, cntW F (f a) L) -> cntW F (bind m f) L.
Proof. intros Hm Hf. exact (cntW_bind F m f [] L Hm Hf). Qed.

Lemma cntW_skipr F {A B} (m : W A) (f : A -> W B) L :
  cntW F m L -> (forall a, cntW F (f a) []) -> cntW F (bind m f) L.
Proof.
  intros Hm Hf. intros k b.
  generalize (cntW_bind F m f L [] Hm Hf k b).
  destruct (bind m f (k, b)) as [[x|e] [k2 b2]]; [|trivial].
  rewrite length_app. cbn [List.length]. lia.
Qed.

Lemma cntW_write F t L : holes t = List.length L -> cntW F (write t) L.
Proof. intros H k b. cbn [write]. rewrite holes_app. lia. Qed.

Lemma cntW_writeS F s : cntW F (writeS s) [].
Proof. now apply cntW_write. Qed.

Lemma cntW_when F c m L :
  cntW F m L -> (c = false -> L = []) -> cntW F (when c m) L.
Proof.
  intros H Hc. destruct c; [exact H|]. rewrite Hc by reflexivity.
  apply cntW_ret.
Qed.

Lemma cntW_sep F i s : cntW F (sep i s) [].
Proof. apply cntW_when; [apply cntW_writeS | reflexivity]. Qed.

Lemma cntW_if F {A} (c : bool) (m1 m2 : W A) L1 L2 :
  cntW F m1 L1 -> cntW F m2 L2 ->
  cntW F (if c then m1 else m2) (if c then L1 else L2).
Proof. now destruct c. Qed.

Lemma cntW_option F {A B} (o : option B) (f : B -> W A) (m : W A) g L :
  (forall x, o = Some x -> exists Lx, cntW F (f x) Lx /\ Lx = g x) ->
  cntW F m L ->
  cntW F (match o with Some x => f x | None => m end)
         (match o with Some x => g x | None => L end).
Proof.
  intros Hf Hm. destruct o as [x|]; [|exact Hm].
  destruct (Hf x eq_refl) as [Lx [H <-]]. exact H.
Qed.

Lemma cntW_forRange_from F {A} (f : nat -> A -> W unit) g (l : list A) :
  (forall i x, In x l -> cntW F (f i x) (g x)) ->
  forall i,
    cntW F ((fix go (i : nat) (l : list A) {struct l} : W unit :=
               match l with
               | [] => ret tt
               | x :: xs => bind (f i x) (fun _ => go (S i) xs)
               end) i l)
           (flat_map g l).
Proof.
  induction l as [|x xs IH]; intros Hf i.
  - apply cntW_ret.
  - cbn [flat_map]. apply cntW_bind; [apply Hf; now left|]. intros _.
    apply IH. intros j y Hy. apply Hf. now right.
Qed.

Lemma cntW_forRange F {A} (l : list A) (f : nat -> A -> W unit) g :
  (forall i x, In x l -> exists Lx, cntW F (f i x) Lx /\ Lx = g x) ->
  cntW F (forRange l f) (flat_map g l).
Proof.
  intros H. apply (cntW_forRange_from F f g l).
  intros i x Hx. destruct (H i x Hx) as [Lx [Hc <-]]. exact Hc.
Qed.

Lemma cntW_forWrote F {A} (l : list A) (f : A -> W unit) g wrote :
  (forall x, In x l -> exists Lx, cntW F (f x) Lx /\ Lx = g x) ->
  cntW F (forWrote l f wrote) (flat_map g l).
Proof.
  unfold forWrote. revert wrote. induction l as [|x xs IH]; intros wrote Hf.
  - apply cntW_ret.
  - cbn [flat_map].
    apply cntW_skipl;
      [apply cntW_when; [apply cntW_writeS | reflexivity]|].
    intros _. apply cntW_bind.
    + destruct (Hf x) as [Lx [Hc <-]]; [now left | exact Hc].
    + intros _. apply IH. intros y Hy. apply Hf. now right.
Qed.

Lemma cntC_call F m L : cntT m L -> cntC F (call m) L.
Proof.
  intros H k b. cbn [call]. specialize (H k).
  destruct (m k) as [t k']. now split.
Qed.

Lemma cntC_callE F m L : cntR F m L -> cntC F (callE m) L.
Proof.
  intros H k b. cbn [callE]. specialize (H k).
  destruct (m k) as [[t|e] k']; [now split | assumption].
Qed.

Lemma cntC_callIgnore F m L : cntR false m L -> cntC F (callIgnore m) L.
Proof.
  intros H k b. cbn [callIgnore]. specialize (H k).
  destruct (m k) as [[t|e] k']; [now split | discriminate].
Qed.

(** [x := call; ...]: the text [x] has its placeholders when it is
    written. *)
Lemma cntW_call F {A} (c : W text) (f : text -> W A) Lc L :
  cntC F c Lc ->
  (forall x, holes x = List.length Lc -> cntW F (f x) L) ->
  cntW F (bind c f) L.
Proof.
  intros Hc Hf k b. unfold bind. specialize (Hc k b).
  destruct (c (k, b)) as [[x|e] [k' b']]; [|assumption].
  destruct Hc as [-> Hx]. exact (Hf x Hx k' b).
Qed.

Lemma cntW_writeR F m L : cntT m L -> cntW F (writeR m) L.
Proof.
  intros H. unfold writeR.
  apply (cntW_call F (call m) _ L L); [now apply cntC_call|].
  intros x Hx. now apply cntW_write.
Qed.

Lemma cntT_runT m L : cntW false m L -> cntT (runT m) L.
Proof.
  intros H k. unfold runT. specialize (H k []).
  unfold text in *.
  destruct (m (k, [])) as [[a|e] [k' b']]; cbn [fst snd];
    [exact H | discriminate].
Qed.

Lemma cntR_run F m L : cntW F m L -> cntR F (run m) L.
Proof.
  intros H k. unfold run. specialize (H k []).
  unfold text in *.
  destruct (m (k, [])) as [[a|e] [k' b']]; exact H.
Qed.

Lemma cntT_pure t L : holes t = List.length L -> cntT (pure t) L.
Proof. intros H k. exact H. Qed.

Lemma cntT_lit s : cntT (pure (T s)) [].
Proof. now apply cntT_pure. Qed.

Lemma cntT_nil : cntT (pure []) [].
Proof. now apply cntT_pure. Qed.

(** One parameter node, one placeholder. *)
Lemma cntT_renderParam raw : cntT (renderParam target raw) [raw].
Proof.
  intros k. unfold renderParam.
  destruct (String.eqb target DialectPostgres); reflexivity.
Qed.

Lemma cntR_rendered F m L : cntT m L -> cntR F (rendered m) L.
Proof.
  intros H k. unfold rendered. specialize (H k).
  now destruct (m k) as [t k'].
Qed.

Lemma cntW_writeIdents F ids : cntW F (writeIdents target ids) [].
Proof.
  unfold writeIdents.
  apply (cntW_eq F _ (flat_map (fun _ => []) ids));
    [|induction ids; [reflexivity | assumption]].
  apply cntW_forRange. intros i x _. exists []. split; [|reflexivity].
  apply cntW_skipl; [apply cntW_sep|]. intros _. apply cntW_writeS.
Qed.

Create HintDb count.

(** A body that writes no placeholder. *)
Ltac litstep :=
  lazymatch goal with
  | |- cntW _ (if ?c then _ else _) _ => destruct c
  | |- cntW _ (match ?o with _ => _ end) _ => destruct o
  | |- cntW _ (forRange ?l _) _ =>
      eapply cntW_eq;
      [ eapply (cntW_forRange _ _ _ (fun _ => []));
        intros ? ? ?; exists []; split; [|reflexivity]
      | induction l; [reflexivity | assumption] ]
  | |- _ =>
      first
        [ apply cntW_ret
        | apply cntW_throw
        | apply cntW_writeS
        | apply cntW_sep
        | apply cntW_writeIdents
        | apply cntW_when; [|reflexivity]
        | apply cntW_skipl; [|intros ?]
        | solve [auto with count] ]
  end.

Ltac litsolve := solve [repeat litstep].

Ltac inv_all :=
  repeat match goal with
    | H : option_all _ (Some _) |- _ => apply option_all_Some in H
    | H : _ /\ _ |- _ => destruct H
    end.

Ltac cih :=
  inv_all;
  solve
    [ eauto with count
    | match goal with H : _ |- _ => exact H end
    | match goal with
      | H : forall x, In x _ -> _, Hx : In _ _ |- _ =>
          first [ apply (H _ Hx) | apply (proj1 (H _ Hx))
                | apply (proj2 (H _ Hx)) ]
      end ].

Ltac ccallok :=
  first [ eapply cntC_callIgnore | eapply cntC_callE | eapply cntC_call ];
  first [ cih | apply cntR_weaken; cih ].

(** The side condition of [cntW_when]. *)
Ltac nil_side :=
  let H := fresh in
  intros H;
  repeat match type of H with
    | negb (isNil ?e) = false => destruct e; try discriminate H
    | nonEmpty ?l = false => destruct l; try discriminate H
    end;
  reflexivity.

Ltac csolve :=
  first
    [ litsolve
    | lazymatch goal with
      | |- cntW _ (bind (callIgnore _) _) _ =>
          eapply cntW_call; [ccallok | intros ? ?; cbv zeta; csolve]
      | |- cntW _ (bind (callE _) _) _ =>
          eapply cntW_call; [ccallok | intros ? ?; cbv zeta; csolve]
      | |- cntW _ (bind (call _) _) _ =>
          eapply cntW_call; [ccallok | intros ? ?; cbv zeta; csolve]
      | |- cntW _ (bind _ _) _ =>
          first
            [ eapply cntW_skipl; [litsolve | intros ?; csolve]
            | (eapply cntW_skipr; [|intros ?; litsolve]); [csolve]
            | eapply cntW_bind; [csolve | intros ?; csolve] ]
      | |- cntW _ (write _) _ => eapply cntW_write; eassumption
      | |- cntW _ (writeR _) _ => eapply cntW_writeR; cih
      | |- cntW _ (when _ _) _ => eapply cntW_when; [csolve | nil_side]
      | |- cntW _ (if _ then _ else _) _ => eapply cntW_if; [csolve | csolve]
      | |- cntW _ (match _ with Some _ => _ | None => _ end) _ =>
          eapply cntW_option;
            [ let E := fresh in
              intros ? E; try (rewrite E in * ); eexists;
              split; [csolve | reflexivity]
            | csolve ]
      | |- cntW _ (forRange _ _) _ =>
          eapply cntW_forRange; intros ? ? ?; eexists;
            split; [csolve | reflexivity]
      | |- cntW _ (forWrote _ _ _) _ =>
          eapply cntW_forWrote; intros ? ?; eexists;
            split; [csolve | reflexivity]
      | |- _ => cih
      end ].

Lemma cntT_renderWith_ (w : option WithClause) :
  option_all
    (WithClause__all
       (fun s => cntR false (renderSelect s) (paramsSelect s)
                 /\ cntW false (renderSetOps s) (paramsSetOps s)))
    w ->
  cntT (renderWith_ target renderSelect w) (paramsWith w).
Proof.
  destruct w as [w|]; [|intros _; apply cntT_nil].
  intros H.
  assert (Hc : forall c, In c (CTEs w) ->
                cntR false (renderSelect (cte_Subq c))
                  (paramsSelect (cte_Subq c))).
  { refine (option_all_map _
              (fun w => forall c, In c (CTEs w) ->
                          cntR false (renderSelect (cte_Subq c))
                            (paramsSelect (cte_Subq c))) w _ H).
    intros x Hx. destruct Hx as [r ctes Hc]. cbn [CTEs].
    intros c Hc'. exact (proj1 (ctes_all _ _ Hc c Hc')). }
  unfold renderWith_. eapply cntT_eq; [apply cntT_runT; csolve|].
  reflexivity.
Qed.

#[local] Hint Resolve cntT_renderWith_ cntT_lit cntT_nil : count.

Ltac tsolve := eapply cntT_eq; [apply cntT_runT; csolve | try reflexivity].
Ltac rsolve := eapply cntR_eq; [apply cntR_run; csolve | try reflexivity].

Lemma paramsSelect_eq (s : SelectStmt) :
  paramsSelect s
  = paramsWith (sel_With s)
    ++ flat_map (fun c => if sc_Star c then [] else paramsExpr (sc_Expr c))
         (sel_Columns s)
    ++ flat_map paramsTableRef (sel_From s)
    ++ paramsExpr (sel_Where s)
    ++ flat_map paramsExpr (sel_GroupBy s)
    ++ paramsExpr (sel_Having s)
    ++ flat_map (fun it => paramsExpr (ob_Expr it)) (sel_OrderBy s)
    ++ match sel_Limit s with
       | Some lim => paramsExpr (Count lim) ++ paramsExpr (Offset lim)
       | None => []
       end
    ++ paramsSetOps s.
Proof. destruct s. reflexivity. Qed.

Lemma cntT_renderExpr_cases :
  (forall e, cntT (renderExpr e) (paramsExpr e)) /\
  (forall s, cntR false (renderSelect s) (paramsSelect s)
             /\ cntW false (renderSetOps s) (paramsSetOps s)) /\
  (forall t, cntT (renderTableRef t) (paramsTableRef t)).
Proof.
  apply tree_mutind.
  - (* ENil *) apply cntT_nil.
  - intros id. apply cntT_lit.
  - intros q. apply cntT_lit.
  - intros p. apply cntT_lit.
  - intros l. apply cntT_lit.
  - intros p. apply cntT_lit.
  - intros raw p. apply cntT_renderParam.
  - (* BinaryExpr *)
    intros l IHl r IHr op p. cbn [sqlparser.renderExpr]. tsolve.
  - intros e IHe op p. cbn [sqlparser.renderExpr]. tsolve.
  - (* FuncCall *)
    intros name args IH distinct star p. cbn [sqlparser.renderExpr].
    pose proof (list_all_In _ _ IH) as IHa. tsolve.
  - (* CaseExpr *)
    intros operand IHo whens IH els IHe p. cbn [sqlparser.renderExpr].
    pose proof (whens_all _ _ IH) as IHw. tsolve.
  - (* BetweenExpr *)
    intros e IHe lo IHlo hi IHhi n p. cbn [sqlparser.renderExpr]. tsolve.
  - (* InExpr *)
    intros e IHe lst IH subq IHs n p. cbn [sqlparser.renderExpr].
    pose proof (list_all_In _ _ IH) as IHa. tsolve.
  - (* LikeExpr *)
    intros e IHe pat IHp esc IHesc n p. cbn [sqlparser.renderExpr]. tsolve.
  - (* IsNullExpr *)
    intros e IHe n p. cbn [sqlparser.renderExpr]. tsolve.
  - (* ExistsExpr *)
    intros subq IHs n p. cbn [sqlparser.renderExpr]. tsolve.
  - (* SubqueryExpr *)
    intros subq IHs p. cbn [sqlparser.renderExpr]. tsolve.
  - (* CastExpr *)
    intros e IHe ty p. cbn [sqlparser.renderExpr]. tsolve.
  - (* IntervalExpr *)
    intros e IHe u p. apply cntT_nil.
  - (* ESelect *)
    intros s IHs. cbn [sqlparser.renderExpr]. tsolve.
  - (* SelectStmt *)
    intros w IHw distinct columns IHc from IHf where_ IHwh groupBy IHg
      having IHh orderBy IHo limit IHl setOp IHso p.
    pose proof (columns_all _ _ IHc) as IHc'.
    pose proof (list_all_In _ _ IHf) as IHf'.
    pose proof (list_all_In _ _ IHg) as IHg'.
    pose proof (orderBy_all _ _ IHo) as IHo'.
    assert (Hso : cntW false
              (renderSetOps
                 (mkSelectStmt w distinct columns from where_ groupBy having
                    orderBy limit setOp p))
              (paramsSetOps
                 (mkSelectStmt w distinct columns from where_ groupBy having
                    orderBy limit setOp p))).
    { cbn [sqlparser.renderSetOps paramsSetOps sel_SetOp].
      destruct setOp as [cur|]; [|apply cntW_ret].
      apply setOp_all in IHso.
      eapply cntW_eq; [csolve | reflexivity]. }
    split; [|exact Hso].
    destruct limit as [lim|]; [apply limit_all in IHl|];
      (destruct setOp as [cur|]; [apply setOp_all in IHso|]);
    cbn [sqlparser.renderSelect sel_With sel_Distinct sel_Columns sel_From
           sel_Where sel_GroupBy sel_Having sel_OrderBy sel_Limit sel_SetOp];
      rsolve; rewrite paramsSelect_eq;
      cbn [sel_With sel_Distinct sel_Columns sel_From sel_Where sel_GroupBy
             sel_Having sel_OrderBy sel_Limit sel_SetOp paramsSetOps app];
      rewrite ?app_nil_r; reflexivity.
  - (* TNil *) apply cntT_nil.
  - (* SimpleTable *)
    intros name alias. cbn [sqlparser.renderTableRef]. tsolve.
  - (* SubqueryTable *)
    intros subq IHs alias p. cbn [sqlparser.renderTableRef]. tsolve.
  - (* JoinTable *)
    intros l IHl r IHr kind on IHon using_ p. cbn [sqlparser.renderTableRef].
    tsolve.
Qed.

Lemma cntT_renderExpr e : cntT (renderExpr e) (paramsExpr e).
Proof. apply cntT_renderExpr_cases. Qed.

Lemma cntR_renderSelect s : cntR false (renderSelect s) (paramsSelect s).
Proof. apply cntT_renderExpr_cases. Qed.

Lemma cntT_renderTableRef t : cntT (renderTableRef t) (paramsTableRef t).
Proof. apply cntT_renderExpr_cases. Qed.

#[local] Hint Resolve cntT_renderExpr cntR_renderSelect cntT_renderTableRef
  : count.

Lemma cntT_renderWith w : cntT (renderWith w) (paramsWith w).
Proof.
  destruct w as [w|]; [|apply cntT_nil].
  unfold sqlparser.renderWith, renderWith_. tsolve.
Qed.

#[local] Hint Resolve cntT_renderWith : count.

(** *** The statements *)

Lemma cntW_writeAssignments F a :
  cntW F (writeAssignments ToUpper EqualFold target a) (paramsAssignments a).
Proof.
  unfold writeAssignments. eapply cntW_eq; [csolve | reflexivity].
Qed.

Lemma cntW_writeOptions F o : cntW F (writeOptions o) [].
Proof. unfold writeOptions. litsolve. Qed.

Lemma cntW_writeTxOptions F o : cntW F (writeTxOptions o) [].
Proof. unfold writeTxOptions. litsolve. Qed.

#[local] Hint Resolve cntW_writeAssignments cntW_writeOptions
  cntW_writeTxOptions : count.

Lemma cntR_renderUpdate s :
  cntR false (renderUpdate ToUpper EqualFold target s) (paramsUpdate s).
Proof. unfold renderUpdate. rsolve. Qed.

Lemma cntR_renderDelete s :
  cntR false (renderDelete ToUpper EqualFold target s) (paramsDelete s).
Proof. unfold renderDelete. rsolve. Qed.

Lemma cntT_renderColumnDef c :
  cntT (renderColumnDef ToUpper EqualFold target c) (paramsColumnDef c).
Proof. unfold renderColumnDef. tsolve. Qed.

Lemma cntT_renderConstraint c : cntT (renderConstraint target c) [].
Proof. unfold renderConstraint. apply cntT_runT. litsolve. Qed.

#[local] Hint Resolve cntT_renderColumnDef cntT_renderConstraint : count.

Lemma cntR_renderCreateTable s :
  cntR false (renderCreateTable ToUpper EqualFold target s)
    (paramsCreateTable s).
Proof.
  unfold renderCreateTable, paramsCreateTable. apply cntR_run.
  do 3 (eapply cntW_skipl; [litsolve | intros _]).
  destruct (ct_Like s) as [like|]; [litsolve|].
  apply cntW_bind.
  - apply cntW_when.
    + eapply cntW_skipl; [litsolve | intros _].
      eapply cntW_skipr.
      * apply cntW_forWrote. intros c _. eexists.
        split; [csolve | reflexivity].
      * intros wrote. eapply cntW_skipl; [|intros _; litsolve].
        apply (cntW_eq false _
                 (flat_map (fun _ => []) (ct_Constraints s)));
          [|induction (ct_Constraints s); [reflexivity | assumption]].
        apply cntW_forWrote. intros c _. exists [].
        split; [csolve | reflexivity].
    + intros H. destruct (ct_Columns s); [reflexivity | discriminate H].
  - intros _. eapply cntW_skipl; [litsolve | intros _].
    eapply cntW_eq; [csolve | reflexivity].
Qed.

Lemma cntT_renderAlterCmd c :
  cntT (renderAlterCmd ToUpper EqualFold target c) (paramsAlterCmd c).
Proof.
  unfold renderAlterCmd.
  destruct c; first [apply cntT_nil | apply cntT_lit | tsolve].
Qed.

#[local] Hint Resolve cntT_renderAlterCmd : count.

Lemma cntR_renderAlterTable s :
  cntR false (renderAlterTable ToUpper EqualFold target s)
    (flat_map paramsAlterCmd (at_Cmds s)).
Proof. unfold renderAlterTable. rsolve. Qed.

Lemma cntR_renderCreateView s :
  cntR false (renderCreateView ToUpper EqualFold target s)
    (paramsSelect (cv_Select s)).
Proof. unfold renderCreateView. rsolve. Qed.

Lemma cntR_renderShow s :
  cntR false (renderShow ToUpper EqualFold target s)
    (paramsExpr (show_Where s)).
Proof. unfold renderShow. rsolve. Qed.

Lemma cntR_renderCall s :
  cntR false (renderCall ToUpper EqualFold target s)
    (flat_map paramsExpr (call_Args s)).
Proof. unfold renderCall. rsolve. Qed.

(** The statements in which no expression is written. *)
Ltac nosolve :=
  repeat match goal with
    | |- cntT (if ?c then _ else _) _ => destruct c
    | |- cntR _ (if ?c then _ else _) _ => destruct c
    | |- cntT (match ?c with _ => _ end) _ => destruct c
    end;
  first [ apply cntT_lit | apply cntT_nil
        | apply cntT_runT; litsolve | apply cntR_run; litsolve ].

Lemma cntR_renderDropTable s : cntR false (renderDropTable target s) [].
Proof. unfold renderDropTable. nosolve. Qed.

Lemma cntR_renderCreateIndex s : cntR false (renderCreateIndex target s) [].
Proof. unfold renderCreateIndex. nosolve. Qed.

Lemma cntR_renderDropIndex s : cntR false (renderDropIndex target s) [].
Proof. unfold renderDropIndex. nosolve. Qed.

Lemma cntR_renderCreateDatabase s :
  cntR false (renderCreateDatabase target s) [].
Proof. unfold renderCreateDatabase. nosolve. Qed.

Lemma cntR_renderAlterDatabase s :
  cntR false (renderAlterDatabase target s) [].
Proof. unfold renderAlterDatabase. nosolve. Qed.

Lemma cntR_renderDropDatabase s : cntR false (renderDropDatabase target s) [].
Proof. unfold renderDropDatabase. nosolve. Qed.

Lemma cntT_renderTx s : cntT (renderTx ToUpper target s) [].
Proof. unfold renderTx. nosolve. Qed.

Lemma cntT_renderGenericDDL s : cntT (renderGenericDDL ToUpper target s) [].
Proof. unfold renderGenericDDL. nosolve. Qed.

(** The upsert clause: the assignments that the target uses. *)
Lemma cntW_onConflict s :
  cntW true (onConflict ToUpper EqualFold target strict s)
    (paramsAssignments (upsertAssignments target s)).
Proof.
  unfold onConflict, upsertAssignments.
  destruct (String.eqb target DialectMySQL).
  - cbv zeta. destruct (nonEmpty (OnDupKey s)); cbn [negb];
      (apply cntW_when;
       [ eapply cntW_skipl; [litsolve | intros _];
         apply cntW_writeAssignments
       | intros H;
         match type of H with
         | nonEmpty ?l = false =>
             destruct l; [reflexivity | discriminate H]
         end ]).
  - destruct (String.eqb target DialectPostgres
              || String.eqb target DialectSQLite); [|apply cntW_ret].
    cbv zeta.
    destruct (OnConflictUpdate s) as [|u us], (OnDupKey s) as [|d ds];
      cbn [nonEmpty negb andb orb];
      repeat match goal with
        | |- cntW _ (if ?c then _ else _) _ => destruct c
        end;
      try (apply cntW_ret);
      rewrite ?andb_false_r, ?andb_true_r; cbn [andb negb];
      (eapply cntW_skipl; [litsolve | intros ?]);
      (eapply cntW_skipl; [litsolve | intros ?]);
      (eapply cntW_skipl; [litsolve | intros ?]);
      first [ litsolve
            | eapply cntW_skipl; [litsolve | intros ?];
              apply cntW_writeAssignments ].
Qed.

Lemma cntW_insertInto s rest L :
  cntW true rest L ->
  cntW true (insertInto ToUpper EqualFold target s rest)
    (paramsWith (ins_With s)
     ++ (if nonEmpty (ins_Values s)
         then flat_map (flat_map paramsExpr) (ins_Values s)
         else match ins_Select s with
              | Some sel => paramsSelect sel
              | None => []
              end)
     ++ L).
Proof.
  intros H. unfold insertInto.
  eapply cntW_eq; [csolve | reflexivity].
Qed.

Lemma cntR_renderInsert s :
  cntR true (renderInsert ToUpper EqualFold target strict s)
    (paramsInsert target s).
Proof.
  rewrite renderInsert_eq. apply cntR_run.
  apply cntW_insertInto, cntW_onConflict.
Qed.

Lemma cntR_renderStatement stmt :
  cntR true (renderStatement ToUpper EqualFold target strict stmt)
    (paramsStatement target stmt).
Proof.
  induction stmt; cbn [renderStatement paramsStatement];
    first
      [ apply cntR_renderInsert
      | apply cntR_weaken;
        first
          [ apply cntR_renderSelect
          | apply cntR_renderUpdate | apply cntR_renderDelete
          | apply cntR_renderCreateTable | apply cntR_renderAlterTable
          | apply cntR_renderDropTable | apply cntR_renderCreateIndex
          | apply cntR_renderDropIndex | apply cntR_renderCreateView
          | apply cntR_renderCreateDatabase | apply cntR_renderAlterDatabase
          | apply cntR_renderDropDatabase | apply cntR_renderShow
          | apply cntR_renderCall
          | apply cntR_rendered;
            first [ apply cntT_lit | apply cntT_renderTx
                  | apply cntT_renderGenericDDL ] ]
      | idtac ].
  - (* SExplain *)
    eapply cntR_eq; [apply cntR_run; csolve | reflexivity].
  - (* SOther *)
    intros k. destruct strict; reflexivity.
Qed.

#[local] Hint Resolve cntR_renderStatement : count.




End Counting.

(** *** The theorems at concrete statements *)

Definition ident (name : string) : Ident := mkIdent (B name) name 0.

Definition number (digits : string) : Expr :=
  ELiteral (mkLiteral (B digits) lexer.INT 0).

(** [SELECT :a, ?] *)
Definition select_two_params : Statement :=
  SSelect
    (mkSelectStmt None false
       [mkSelectColumn (Param (B ":a") 7) None false;
        mkSelectColumn (Param (B "?") 11) None false]
       [] ENil [] ENil [] None None 0).

(** [INSERT INTO t (id, n) VALUES (1, 2) ON DUPLICATE KEY UPDATE n = 3],
    with or without the column list. *)
Definition insert_on_dup_key (columns : list Ident) : InsertStmt :=
  mkInsertStmt None (Some (mkQualifiedIdent [ident "t"])) columns
    [[number "1"; number "2"]] None
    [mkAssignment (Some (ident "n")) (number "3")] [] false [] false false 0.




Lemma error_iff_strict_and_unrenderable_witness :
  exists e,
    ConvertStatements (fun s => s) String.eqb DialectPostgres true
      [select_two_params; SInsert (insert_on_dup_key [])]
    = Failed e.
Proof.
  apply (proj1 (error_iff_strict_and_unrenderable (fun s => s) String.eqb
                  DialectPostgres true
                  [select_two_params; SInsert (insert_on_dup_key [])])).
  split; reflexivity.
Defined.

Lemma on_duplicate_key_becomes_on_conflict_witness :
  exists h k1,
    renderInsert (fun s => s) String.eqb DialectPostgres true
      (withoutOnDupKey (insert_on_dup_key [ident "id"; ident "n"])) 0%Z
    = (Rendered h, k1) /\
    renderInsert (fun s => s) String.eqb DialectPostgres true
      (insert_on_dup_key [ident "id"; ident "n"]) 0%Z
    = (Rendered
         (h ++ T " ON CONFLICT" ++ T " (" ++ T (DQS ++ "id" ++ DQS)
            ++ T ")" ++ T " DO UPDATE SET "
            ++ [Lit (DQS ++ "n" ++ DQS); Lit " = "; Lit "3"]), k1).
Proof.
  apply (on_duplicate_key_becomes_on_conflict (fun s => s) String.eqb
           DialectPostgres true (insert_on_dup_key [ident "id"; ident "n"])
           0%Z);
    [now left | reflexivity | reflexivity | reflexivity
    | intros H; discriminate H].
Defined.

(** [SELECT n], followed by a set operation or not. *)
Definition select_number (n : string) (so : option SetOperation)
  : SelectStmt :=
  mkSelectStmt None false [mkSelectColumn (number n) None false]
    [] ENil [] ENil [] None so 0.

(** [SELECT 1 UNION SELECT 2 UNION ALL SELECT 3], as [parseSelect] links
    it. *)
Definition union_all_3 : SetOperation :=
  mkSetOperation Union true (select_number "3" None).

Definition union_2 : SetOperation :=
  mkSetOperation Union false (select_number "2" (Some union_all_3)).

Definition union_of_three : SelectStmt :=
  select_number "1" (Some union_2).

Lemma union_of_three_rendered :
  match renderSelect (fun s => s) String.eqb DialectPostgres
          union_of_three 0%Z with
  | (Rendered t, _) =>
      String t = "SELECT 1 UNION SELECT 2 UNION ALL SELECT 3 UNION ALL SELECT 3"
  | (Failed _, _) => False
  end.
Proof. reflexivity. Qed.

Lemma setop_chain_renders_last_select_twice_witness :
  exists h k1 h1 k2 t2 k3 t2' k4,
    renderSelect (fun s => s) String.eqb DialectPostgres
      (withoutSetOp union_of_three) 0%Z = (Rendered h, k1) /\
    renderSelect (fun s => s) String.eqb DialectPostgres
      (withoutSetOp (so_Right union_2)) k1 = (Rendered h1, k2) /\
    renderSelect (fun s => s) String.eqb DialectPostgres
      (so_Right union_all_3) k2 = (Rendered t2, k3) /\
    renderSelect (fun s => s) String.eqb DialectPostgres
      (so_Right union_all_3) k3 = (Rendered t2', k4) /\
    renderSelect (fun s => s) String.eqb DialectPostgres union_of_three 0%Z
    = (Rendered
         (h ++ link union_2 ++ (h1 ++ link union_all_3 ++ t2)
            ++ link union_all_3 ++ t2'), k4).
Proof.
  apply (setop_chain_renders_last_select_twice (fun s => s) String.eqb
           DialectPostgres union_of_three union_2 union_all_3 0%Z);
    reflexivity.
Defined.

(** [INSERT INTO t (id, n) VALUES (1, 2) ON CONFLICT (id)] with
    [DO UPDATE SET] assignments or [DO NOTHING]. *)
Definition insert_on_conflict (update : list Assignment) (nothing : bool)
  : InsertStmt :=
  mkInsertStmt None (Some (mkQualifiedIdent [ident "t"]))
    [ident "id"; ident "n"] [[number "1"; number "2"]] None []
    [ident "id"] nothing update false false 0.

Definition set_n_3 : list Assignment :=
  [mkAssignment (Some (ident "n")) (number "3")].

Lemma mysql_upsert_is_on_duplicate_key_witness :
  exists h k1,
    renderInsert (fun s => s) String.eqb DialectMySQL true
      (withoutUpsert (insert_on_conflict set_n_3 false)) 0%Z
    = (Rendered h, k1) /\
    renderInsert (fun s => s) String.eqb DialectMySQL true
      (insert_on_conflict set_n_3 false) 0%Z
    = (Rendered
         (h ++ T " ON DUPLICATE KEY UPDATE "
            ++ [Lit "`n`"; Lit " = "; Lit "3"]), k1).
Proof.
  apply (mysql_upsert_is_on_duplicate_key (fun s => s) String.eqb
           DialectMySQL true (insert_on_conflict set_n_3 false) 0%Z).
  reflexivity.
Defined.

Lemma on_conflict_with_target_witness :
  exists h k1,
    renderInsert (fun s => s) String.eqb DialectPostgres true
      (withoutUpsert (insert_on_conflict [] true)) 0%Z
    = (Rendered h, k1) /\
    renderInsert (fun s => s) String.eqb DialectPostgres true
      (insert_on_conflict [] true) 0%Z
    = (Rendered
         (h ++ T " ON CONFLICT" ++ T " (" ++ T (DQS ++ "id" ++ DQS)
            ++ T ")" ++ T " DO NOTHING"), k1).
Proof.
  apply (on_conflict_with_target (fun s => s) String.eqb
           DialectPostgres true (insert_on_conflict [] true) 0%Z);
    [now left | intros H; discriminate H].
Defined.

(** A name with an escaped double quote in it: [a], two double quotes,
    [b]. *)
Definition a_qq_b : bytes := B "a" ++ [DQ; DQ] ++ B "b".

Lemma quoted_ident_round_trip_witness :
  Unquoted (quotedIdent DQ a_qq_b 0) = str a_qq_b
  /\ renderIdent DialectPostgres (Some (quotedIdent DQ a_qq_b 0))
     = str (DQ :: (B "a" ++ [DQ; DQ; DQ; DQ] ++ B "b") ++ [DQ])
  /\ (renderIdent DialectPostgres (Some (quotedIdent DQ a_qq_b 0))
      = str (DQ :: a_qq_b ++ [DQ])
      <-> ~ In DQ a_qq_b /\ str a_qq_b <> "*").
Proof.
  apply (quoted_ident_round_trip DialectPostgres DQ a_qq_b 0%Z).
  left. split; [reflexivity | intros H; discriminate H].
Defined.

End RenderFacts.
